(** * ScatterConnection (ding/torch_utils/network/scatter_connection.py)

    A shallow embedding of the [ScatterConnection] module and of the part
    of the tensor library it calls, followed by the properties of its two
    entry points [forward] and [xy_forward]. *)

From Stdlib Require Import ZArith Lia String Floats.SpecFloat.
From Stdlib Require QArith.
From stdpp Require Import base tactics option list numbers strings gmap.

Local Open Scope Z_scope.
Local Open Scope nat_scope.

(** ** Python exceptions and the error monad *)

Inductive exn : Type :=
| AssertionError
| ValueError
| IndexError
| RuntimeError.

Inductive result (A : Type) : Type :=
| Ok (a : A)
| Raise (e : exn).
Arguments Ok {A} a.
Arguments Raise {A} e.

Global Instance result_ret : MRet result := λ A, Ok.
Global Instance result_bind : MBind result :=
  λ A B f m, match m with Ok a => f a | Raise e => Raise e end.

Definition is_ok {A} (r : result A) : bool :=
  match r with Ok _ => true | Raise _ => false end.

(** ** Row-major index arithmetic *)

Fixpoint numel (s : list nat) : nat :=
  match s with
  | [] => 1
  | d :: s' => d * numel s'
  end.

(** The multi-index of the [k]-th element of a contiguous array of shape [s]. *)
Fixpoint unravel (s : list nat) (k : nat) : list nat :=
  match s with
  | [] => []
  | d :: s' => k / numel s' :: unravel s' (k mod numel s')
  end.

(** The flat offset of a multi-index in a contiguous array of shape [s]. *)
Fixpoint ravel (s : list nat) (I : list nat) : nat :=
  match s, I with
  | d :: s', i :: I' => i * numel s' + ravel s' I'
  | _, _ => 0
  end.

(** [inb I s]: the multi-index [I] addresses an element of shape [s]. *)
Definition inb (I s : list nat) : Prop := Forall2 lt I s.

(** ** Scalars

    [int64] values are integers with their two's-complement wrap-around
    written out.  The float dtype is kept abstract behind an interface: the
    code only adds feature values, and (in [xy_forward]) multiplies, adds
    and truncates coordinates. *)

Definition wrap64 (z : Z) : Z := ((z + 2 ^ 63) mod 2 ^ 64 - 2 ^ 63)%Z.

Class FloatOps (F : Type) : Type := {
  fzero : F;
  fadd : F → F → F;
  fmul : F → F → F;
  (** conversion of an integer scalar to the float dtype *)
  f_of_long : Z → F;
  (** the cast to int64 performed by [.long()] *)
  f_to_long : F → Z;
}.

Global Instance float_inhabited `{FloatOps F} : Inhabited F := populate fzero.

(** IEEE 754 binary32, the default float dtype, after the specification of
    floating-point numbers of the standard library.  The cast to int64
    truncates toward zero; it is undefined on NaN, on the infinities and
    beyond the int64 range, where x86-64 yields the least int64. *)
Definition float32 : Type := spec_float.

Definition f32_to_long (f : float32) : Z :=
  match f with
  | S754_zero _ => 0%Z
  | S754_finite s m e =>
      let v := match e with
               | Zneg p => Z.quot (Zpos m) (2 ^ Zpos p)
               | _ => (Zpos m * 2 ^ e)%Z
               end in
      if decide (v < 2 ^ 63)%Z then (if s then - v else v)%Z else (- 2 ^ 63)%Z
  | S754_infinity _ | S754_nan => (- 2 ^ 63)%Z
  end.

Global Instance binary32 : FloatOps float32 := {|
  fzero := S754_zero false;
  fadd := SFadd 24 128;
  fmul := SFmul 24 128;
  f_of_long := λ z, binary_normalize 24 128 z 0 false;
  f_to_long := f32_to_long;
|}.

(** Exact rational arithmetic, an instance in which addition is
    commutative and zero is neutral. *)
Definition Q_of (z : Z) : QArith_base.Q := QArith_base.Qmake z 1.

Global Instance exact_Q : FloatOps QArith_base.Q := {|
  fzero := Q_of 0;
  fadd := QArith_base.Qplus;
  fmul := QArith_base.Qmult;
  f_of_long := Q_of;
  f_to_long := λ q, Z.quot (QArith_base.Qnum q) (Zpos (QArith_base.Qden q));
|}.

(** The binary32 numbers 1.0, 2.0, 1.6 and 0.9. *)
Definition f32_one : float32 := S754_finite false 8388608 (-23).
Definition f32_two : float32 := S754_finite false 8388608 (-22).

(** ** Contiguous n-dimensional arrays *)

Record ndarray (A : Type) : Type := NDArray { shape : list nat; data : list A }.
Arguments NDArray {A} shape data.
Arguments shape {A} _.
Arguments data {A} _.

(** Every array handed out by the tensor library has as many elements as its
    shape announces. *)
Definition wf {A} (a : ndarray A) : Prop := length (data a) = numel (shape a).

Definition get `{Inhabited A} (a : ndarray A) (I : list nat) : A :=
  data a !!! ravel (shape a) I.

(** The multi-indices of shape [s], in row-major order. *)
Definition indices (s : list nat) : list (list nat) :=
  unravel s <$> seq 0 (numel s).

(** The array of shape [s] whose element at multi-index [I] is [f I]. *)
Definition tab {A} (s : list nat) (f : list nat → A) : ndarray A :=
  NDArray s (f <$> indices s).

Definition nd_map {A B} (f : A → B) (a : ndarray A) : ndarray B :=
  NDArray (shape a) (f <$> data a).

(** [infer_size]: the target shape of [view]/[reshape], where one entry may
    be [-1] and is then inferred from the number of elements. *)
Definition infer_size (spec : list Z) (n : nat) : result (list nat) :=
  if decide (Exists (λ z, z < -1)%Z spec) then Raise RuntimeError
  else
    let known := filter (λ z, z ≠ (-1)%Z) spec in
    let newsize := numel (Z.to_nat <$> known) in
    match length spec - length known with
    | 0 => if decide (newsize = n) then Ok (Z.to_nat <$> spec)
           else Raise RuntimeError
    | 1 => if decide (0 < newsize ∧ n mod newsize = 0)
           then Ok ((λ z, if decide (z = (-1)%Z) then n / newsize
                          else Z.to_nat z) <$> spec)
           else Raise RuntimeError
    | _ => Raise RuntimeError
    end.

Definition nd_view {A} (a : ndarray A) (spec : list Z) : result (ndarray A) :=
  s ← infer_size spec (numel (shape a));
  mret (NDArray s (data a)).

Definition nd_unsqueeze {A} (a : ndarray A) (dim : nat) : result (ndarray A) :=
  if decide (dim ≤ length (shape a))
  then Ok (NDArray (take dim (shape a) ++ 1 :: drop dim (shape a)) (data a))
  else Raise IndexError.

(** [a.repeat(reps...)]: missing leading dimensions count as 1, and every
    dimension is tiled [reps] times. *)
Definition nd_repeat `{Inhabited A} (a : ndarray A) (reps : list nat)
  : result (ndarray A) :=
  if decide (length (shape a) ≤ length reps) then
    let s := replicate (length reps - length (shape a)) 1 ++ shape a in
    Ok (tab (zip_with Nat.mul s reps)
            (λ I, data a !!! ravel s (zip_with Nat.modulo I s)))
  else Raise RuntimeError.

(** [a[:, c]] *)
Definition nd_select1 `{Inhabited A} (a : ndarray A) (c : nat)
  : result (ndarray A) :=
  match shape a with
  | d0 :: d1 :: s' =>
      if decide (c < d1)
      then Ok (tab (d0 :: s') (λ I, get a (take 1 I ++ c :: drop 1 I)))
      else Raise IndexError
  | _ => Raise IndexError
  end.

Fixpoint index_of (d : nat) (l : list nat) : nat :=
  match l with
  | [] => 0
  | x :: l' => if decide (x = d) then 0 else S (index_of d l')
  end.

(** [a.permute(dims...)]: dimension [j] of the result is dimension [dims[j]]
    of [a]. *)
Definition nd_permute `{Inhabited A} (a : ndarray A) (dims : list nat)
  : result (ndarray A) :=
  let r := length (shape a) in
  if decide (length dims = r ∧ Forall (λ d, d ∈ dims) (seq 0 r)) then
    Ok (tab ((λ d, shape a !!! d) <$> dims)
            (λ I, get a ((λ d, I !!! index_of d dims) <$> seq 0 r)))
  else Raise RuntimeError.

(** Broadcasting of two shapes, aligned on their last dimensions. *)
Fixpoint broadcast_rev (s1 s2 : list nat) : option (list nat) :=
  match s1, s2 with
  | [], s | s, [] => Some s
  | d1 :: s1', d2 :: s2' =>
      r ← broadcast_rev s1' s2';
      if decide (d1 = d2) then Some (d1 :: r)
      else if decide (d1 = 1) then Some (d2 :: r)
      else if decide (d2 = 1) then Some (d1 :: r)
      else None
  end.

Definition broadcast_shapes (s1 s2 : list nat) : option (list nat) :=
  reverse <$> broadcast_rev (reverse s1) (reverse s2).

(** The element of [a] that position [I] of the broadcast shape [s] reads. *)
Definition bget `{Inhabited A} (a : ndarray A) (s : list nat) (I : list nat) : A :=
  get a (zip_with Nat.modulo (drop (length s - length (shape a)) I) (shape a)).

Definition nd_zip_with {A B C} `{Inhabited A, Inhabited B}
    (f : A → B → C) (a : ndarray A) (b : ndarray B) : result (ndarray C) :=
  match broadcast_shapes (shape a) (shape b) with
  | Some s => Ok (tab s (λ I, f (bget a s I) (bget b s I)))
  | None => Raise RuntimeError
  end.

(** In-place variant: the broadcast shape has to be the shape of [a]. *)
Definition nd_zip_with_ {A B} `{Inhabited A, Inhabited B}
    (f : A → B → A) (a : ndarray A) (b : ndarray B) : result (ndarray A) :=
  match broadcast_shapes (shape a) (shape b) with
  | Some s => if decide (s = shape a)
              then Ok (tab s (λ I, f (bget a s I) (bget b s I)))
              else Raise RuntimeError
  | None => Raise RuntimeError
  end.

(** The shape test of [scatter_]/[scatter_add_] along [dim]. *)
Definition scatter_shape_ok (dim : nat) (self index src : list nat) : Prop :=
  length index = length self ∧ length index = length src ∧ dim < length self ∧
  Forall (λ d, d = dim ∨ index !!! d ≤ self !!! d) (seq 0 (length index)) ∧
  Forall2 le index src.

Global Instance scatter_shape_ok_dec dim self index src :
  Decision (scatter_shape_ok dim self index src).
Proof. unfold scatter_shape_ok. apply _. Defined.

(** The write loop of [scatter_]/[scatter_add_]: the positions of [index] are
    visited in row-major order and
    [self[I with I[dim] := index[I]] := upd self[..] src[I]]. *)
Definition scatter_loop `{Inhabited A} (upd : A → A → A) (dim : nat)
    (self : ndarray A) (index : ndarray Z) (src : ndarray A)
  : result (list A) :=
  foldl (λ acc I,
           out ← acc;
           let i := get index I in
           if decide (0 ≤ i < Z.of_nat (shape self !!! dim))%Z then
             let dst := ravel (shape self) (<[dim := Z.to_nat i]> I) in
             Ok (<[dst := upd (out !!! dst) (get src I)]> out)
           else Raise RuntimeError)
        (Ok (data self)) (indices (shape index)).

Definition nd_scatter `{Inhabited A} (upd : A → A → A) (dim : nat)
    (self : ndarray A) (index : ndarray Z) (src : ndarray A)
  : result (ndarray A) :=
  if decide (numel (shape index) = 0) then Ok self
  else if decide (scatter_shape_ok dim (shape self) (shape index) (shape src))
  then d ← scatter_loop upd dim self index src; mret (NDArray (shape self) d)
  else Raise RuntimeError.

(** The value that position [I] of the index writes to cell [J], if any. *)
Definition write_to `{Inhabited A} (dim : nat) (index : ndarray Z)
    (src : ndarray A) (J I : list nat) : option A :=
  if decide (<[dim := Z.to_nat (get index I)]> I = J) then Some (get src I)
  else None.

(** Position [I] of the index addresses a cell of [self]. *)
Definition index_ok {A} (dim : nat) (self : ndarray A) (index : ndarray Z)
    (I : list nat) : Prop :=
  (0 ≤ get index I < Z.of_nat (shape self !!! dim))%Z ∧
  inb (<[dim := Z.to_nat (get index I)]> I) (shape self).

(** ** Tensors

    A tensor is an array together with its dtype: [torch.int64] or the float
    dtype. *)

Inductive tensor (F : Type) : Type :=
| TLong (a : ndarray Z)
| TFloat (a : ndarray F).
Arguments TLong {F} a.
Arguments TFloat {F} a.

Global Instance result_fmap : FMap result :=
  λ A B f m, match m with Ok a => Ok (f a) | Raise e => Raise e end.

Definition int64_range (z : Z) : Prop := (- 2 ^ 63 ≤ z < 2 ^ 63)%Z.

Section torch.
Context {F : Type} `{!FloatOps F}.

(** [t.shape] *)
Definition size (t : tensor F) : list nat :=
  match t with TLong a => shape a | TFloat a => shape a end.

Definition lift (f : ∀ A, Inhabited A → ndarray A → result (ndarray A))
    (t : tensor F) : result (tensor F) :=
  match t with
  | TLong a => TLong <$> f Z _ a
  | TFloat a => TFloat <$> f F _ a
  end.

Definition view (t : tensor F) (spec : list Z) : result (tensor F) :=
  lift (λ A _ a, nd_view a spec) t.

(** On a contiguous array [reshape] is [view]. *)
Definition reshape (t : tensor F) (spec : list Z) : result (tensor F) :=
  view t spec.

Definition unsqueeze (t : tensor F) (dim : nat) : result (tensor F) :=
  lift (λ A _ a, nd_unsqueeze a dim) t.

Definition repeat (t : tensor F) (reps : list nat) : result (tensor F) :=
  lift (λ A _ a, nd_repeat a reps) t.

Definition select1 (t : tensor F) (c : nat) : result (tensor F) :=
  lift (λ A _ a, nd_select1 a c) t.

Definition permute (t : tensor F) (dims : list nat) : result (tensor F) :=
  lift (λ A _ a, nd_permute a dims) t.

(** [.contiguous()] and [.to(device)] change neither shape nor values. *)
Definition contiguous (t : tensor F) : tensor F := t.
Definition to_device (t : tensor F) : tensor F := t.

(** [torch.arange(n)] *)
Definition arange (n : nat) : tensor F :=
  TLong (NDArray [n] (Z.of_nat <$> seq 0 n)).

(** [torch.zeros(s)]: an array of the float dtype. *)
Definition zeros (s : list nat) : tensor F :=
  TFloat (NDArray s (replicate (numel s) fzero)).

(** [t * c] for a Python integer [c], which has to fit the scalar type. *)
Definition mul (t : tensor F) (c : Z) : result (tensor F) :=
  if decide (int64_range c) then
    match t with
    | TLong a => Ok (TLong (nd_map (λ z, wrap64 (z * c)) a))
    | TFloat a => Ok (TFloat (nd_map (λ v, fmul v (f_of_long c)) a))
    end
  else Raise RuntimeError.

(** [t.mul_(c)] computes the same values in place. *)
Definition mul_ (t : tensor F) (c : Z) : result (tensor F) := mul t c.

(** [t1 + t2], with broadcasting and promotion to the float dtype. *)
Definition add (t1 t2 : tensor F) : result (tensor F) :=
  match t1, t2 with
  | TLong a, TLong b => TLong <$> nd_zip_with (λ x y, wrap64 (x + y)) a b
  | TLong a, TFloat b => TFloat <$> nd_zip_with (λ x y, fadd (f_of_long x) y) a b
  | TFloat a, TLong b => TFloat <$> nd_zip_with (λ x y, fadd x (f_of_long y)) a b
  | TFloat a, TFloat b => TFloat <$> nd_zip_with fadd a b
  end.

(** [t1 += t2]: the result keeps the shape and the dtype of [t1]. *)
Definition iadd (t1 t2 : tensor F) : result (tensor F) :=
  match t1, t2 with
  | TLong a, TLong b => TLong <$> nd_zip_with_ (λ x y, wrap64 (x + y)) a b
  | TLong a, TFloat b => Raise RuntimeError
  | TFloat a, TLong b => TFloat <$> nd_zip_with_ (λ x y, fadd x (f_of_long y)) a b
  | TFloat a, TFloat b => TFloat <$> nd_zip_with_ fadd a b
  end.

(** [t.long()] *)
Definition long (t : tensor F) : tensor F :=
  match t with
  | TLong a => TLong a
  | TFloat a => TLong (nd_map f_to_long a)
  end.

(** The dtype tests of the scatter family: a non-empty index is int64, and
    [self] and [src] have one dtype. *)
Definition scatter_with (updL : Z → Z → Z) (updF : F → F → F)
    (self : tensor F) (dim : nat) (index src : tensor F)
  : result (tensor F) :=
  if decide (dim < length (size self)) then
    i ← match index with
        | TLong i => Ok i
        | TFloat i => if decide (numel (shape i) = 0)
                      then Ok (NDArray (shape i) [])
                      else Raise RuntimeError
        end;
    match self, src with
    | TLong o, TLong s => TLong <$> nd_scatter updL dim o i s
    | TFloat o, TFloat s => TFloat <$> nd_scatter updF dim o i s
    | _, _ => Raise RuntimeError
    end
  else Raise IndexError.

(** [self.scatter_(dim, index, src)] *)
Definition scatter_ : tensor F → nat → tensor F → tensor F → result (tensor F) :=
  scatter_with (λ _ v, v) (λ _ v, v).

(** [self.scatter_add_(dim, index, src)] *)
Definition scatter_add_ : tensor F → nat → tensor F → tensor F → result (tensor F) :=
  scatter_with (λ a v, wrap64 (a + v)) fadd.

(** [a, b, c = s] *)
Definition unpack3 (s : list nat) : result (nat * nat * nat) :=
  match s with
  | [a; b; c] => Ok (a, b, c)
  | _ => Raise ValueError
  end.
End torch.

(** ** The module *)

Record ScatterConnection : Type := { scatter_type : string }.

(** [ScatterConnection.__init__] *)
Definition __init__ (scatter_type : string) : result ScatterConnection :=
  let self := {| scatter_type := scatter_type |} in
  if decide (scatter_type ∈ ["cover"; "add"]%string) then Ok self
  else Raise AssertionError.

(** Modelled from the spec: the decorator [hpc_wrapper] of [ding.hpc_rl],
    which may hand the call to an accelerated implementation that has to
    return the outputs of the decorated function on the same inputs. *)
Definition hpc_wrapper {A} (f : A) : A := f.

(** The linear address that [forward] computes for the entity [e = [b; m]],
    in int64 arithmetic: [(row * W + col) + b * (H * W)]. *)
Definition fwd_address (la : ndarray Z) (H W : nat) (e : list nat) : Z :=
  wrap64 (wrap64 (wrap64 (get la (e ++ [0]) * Z.of_nat W) + get la (e ++ [1]))
          + wrap64 (Z.of_nat (e !!! 0) * Z.of_nat (H * W))).

(** The index and source arrays that [forward] hands to the scatter: one
    row per channel, one column per entity in flattening order. *)
Definition fwd_index (la : ndarray Z) (B M N H W : nat) : ndarray Z :=
  tab [N; B * M] (λ I, fwd_address la H W (unravel [B; M] (I !!! 1))).

Definition fwd_src `{Inhabited A} (xa : ndarray A) (B M N : nat) : ndarray A :=
  tab [N; B * M] (λ I, get xa (unravel [B; M] (I !!! 1) ++ [I !!! 0])).

(** The index and source arrays that [xy_forward] hands to the scatter,
    from the int64 array [ia] of per-entity cell indices. *)
Definition xy_index (ia : ndarray Z) (B M N : nat) : ndarray Z :=
  tab [B; N; M] (λ I, get ia [I !!! 0; I !!! 2]).

Definition xy_src `{Inhabited A} (xa : ndarray A) (B M N : nat) : ndarray A :=
  tab [B; N; M] (λ I, get xa [I !!! 0; I !!! 2; I !!! 1]).

(** The linear address, within the whole output, of the cell that
    [xy_forward] writes for the entity [e = [b; m]]. *)
Definition xy_address (ia : ndarray Z) (H W : nat) (e : list nat) : Z :=
  (Z.of_nat (e !!! 0%nat * (H * W)) + get ia e)%Z.

(** The sizes of the grid are representable in int64, as the index
    arithmetic of both entry points needs. *)
Definition sizes_fit (B H W : nat) : Prop :=
  int64_range (Z.of_nat W) ∧ int64_range (Z.of_nat (H * W)) ∧
  int64_range (Z.of_nat (B * H * W)).

(** The [(row, column)] pair of entity [m] of batch element [b] in a
    [(B, M, 2)] location array. *)
Definition loc_row (la : ndarray Z) (b m : nat) : Z := get la [b; m; 0].
Definition loc_col (la : ndarray Z) (b m : nat) : Z := get la [b; m; 1].

(** Every location of the [(B, M, 2)] array [la] is a [(row, column)] pair
    of the [H] x [W] grid. *)
Definition locations_in_range (la : ndarray Z) (B M H W : nat) : Prop :=
  ∀ b m, b < B → m < M →
    (0 ≤ loc_row la b m < Z.of_nat H)%Z ∧ (0 ≤ loc_col la b m < Z.of_nat W)%Z.

(** The coordinate arrays of [xy_forward]: [coord_x] is multiplied by [W]
    and so ranges over the [H] rows, [coord_y] over the [W] columns. *)
Definition coords_in_range (ca cb : ndarray Z) (B M H W : nat) : Prop :=
  ∀ b m, b < B → m < M →
    (0 ≤ get ca [b; m] < Z.of_nat H)%Z ∧ (0 ≤ get cb [b; m] < Z.of_nat W)%Z.

(** The int64 cell index [xy_forward] computes from int64 coordinates. *)
Definition xy_long_index (ca cb : ndarray Z) (W : nat) (e : list nat) : Z :=
  wrap64 (wrap64 (get ca e * Z.of_nat W) + get cb e).

(** [forward] hands every entity's address to the scatter, which accepts it
    when it lies within the flat buffer of [B * H * W] cells per channel. *)
Definition fwd_accepted (la : ndarray Z) (B M H W : nat) : Prop :=
  ∀ e, inb e [B; M] → (0 ≤ fwd_address la H W e < Z.of_nat (B * H * W))%Z.

(** [xy_forward] scatters within one batch element: a cell index is accepted
    within the [H * W] cells of the grid. *)
Definition xy_accepted (ca cb : ndarray Z) (B M H W : nat) : Prop :=
  ∀ e, inb e [B; M] → (0 ≤ xy_long_index ca cb W e < Z.of_nat (H * W))%Z.

(** Entity [m] of batch element [b1] targets the cell [(b, h, w)]. *)
Definition fwd_targets (la : ndarray Z) (H W : nat) (b1 m b h w : nat) : Prop :=
  fwd_address la H W [b1; m] = Z.of_nat (b * (H * W) + h * W + w).

Definition xy_targets (ca cb : ndarray Z) (W : nat) (b1 m b h w : nat) : Prop :=
  b1 = b ∧ xy_long_index ca cb W [b1; m] = Z.of_nat (h * W + w).

(** The values written to the linear address [a], in the order of the
    entities [ents]: [addr e] is the address of entity [e], [val e] the
    value it carries. *)
Definition writes_at {A} (addr : list nat → Z) (val : list nat → A)
    (a : nat) (ents : list (list nat)) : list A :=
  omap (λ e, if decide (addr e = Z.of_nat a) then Some (val e) else None) ents.

(** An output of shape [(1, 2, H, W)] that holds the vector [v] at the cell
    [(h, w)] and zero elsewhere. *)
Definition one_hot_grid `{FloatOps F} (H W h w : nat) (v : list F) : ndarray F :=
  tab [1; 2; H; W]
      (λ I, if decide (I !!! 2 = h ∧ I !!! 3 = w) then v !!! (I !!! 1) else fzero).

(** A small scene: two batch elements of two entities with one channel
    on a 2 x 2 grid.  In batch element 0 both entities sit at (row 0,
    column 1); in batch element 1 they sit at (1, 1) and (0, 0). *)
Definition scene_features : ndarray QArith_base.Q :=
  NDArray [2; 2; 1] (Q_of <$> [10; 20; 30; 40]%Z).
Definition scene_locations : ndarray Z :=
  NDArray [2; 2; 2] [0; 1; 0; 1; 1; 1; 0; 0]%Z.
Definition scene_coord_x : ndarray Z := NDArray [2; 2] [0; 0; 1; 0]%Z.
Definition scene_coord_y : ndarray Z := NDArray [2; 2] [1; 1; 1; 0]%Z.

(** The same scene after batch element 0 changed its features and
    locations. *)
Definition scene_features' : ndarray QArith_base.Q :=
  NDArray [2; 2; 1] (Q_of <$> [11; 21; 30; 40]%Z).
Definition scene_locations' : ndarray Z :=
  NDArray [2; 2; 2] [1; 0; 0; 0; 1; 1; 0; 0]%Z.
Definition scene_coord_x' : ndarray Z := NDArray [2; 2] [1; 0; 1; 0]%Z.
Definition scene_coord_y' : ndarray Z := NDArray [2; 2] [0; 0; 1; 0]%Z.

Section ScatterConnection.
Context {F : Type} `{!FloatOps F}.

Definition forward : ScatterConnection → tensor F → nat * nat → tensor F →
                     result (tensor F) :=
  hpc_wrapper (λ self x spatial_size location,
    '(B, M, N) ← unpack3 (size x);
    let '(H, W) := spatial_size in
    index ← view location [-1; 2]%Z;
    bias ← (b ← mul_ (arange B) (Z.of_nat (H * W));
            b ← unsqueeze b 1;
            b ← repeat b [1; M];
            b ← view b [-1]%Z;
            mret (to_device b));
    index ← (i0 ← select1 index 0;
             i0 ← mul i0 (Z.of_nat W);
             i1 ← select1 index 1;
             add i0 i1);
    index ← iadd index bias;
    index ← repeat index [N; 1];
    x ← (x ← view x [-1; Z.of_nat N]%Z; permute x [1; 0]);
    let output := zeros [N; B * H * W] in
    output ← (if decide (scatter_type self = "cover"%string)
              then scatter_ output 1 index x
              else if decide (scatter_type self = "add"%string)
              then scatter_add_ output 1 index x
              else mret output);
    output ← reshape output (Z.of_nat <$> [N; B; H; W]);
    output ← permute output [1; 0; 2; 3];
    mret (contiguous output)).

Definition xy_forward : ScatterConnection → tensor F → nat * nat →
                        tensor F → tensor F → result (tensor F) :=
  hpc_wrapper (λ self x spatial_size coord_x coord_y,
    '(BatchSize, Num, EmbeddingSize) ← unpack3 (size x);
    x ← permute x [0; 2; 1];
    let '(H, W) := spatial_size in
    indices ← (cx ← mul coord_x (Z.of_nat W); s ← add cx coord_y; mret (long s));
    indices ← (i ← unsqueeze indices 1; repeat i [1; EmbeddingSize; 1]);
    output ← view (zeros [BatchSize; EmbeddingSize; H; W])
                  (Z.of_nat <$> [BatchSize; EmbeddingSize; H * W]);
    output ← (if decide (scatter_type self = "cover"%string)
              then scatter_ output 2 indices x
              else if decide (scatter_type self = "add"%string)
              then scatter_add_ output 2 indices x
              else mret output);
    output ← view output (Z.of_nat <$> [BatchSize; EmbeddingSize; H; W]);
    mret output).

(** What the configured policy does to a cell holding [old] when it writes
    [v]; no write happens under any other value of [scatter_type]. *)
Definition policy_upd (self : ScatterConnection) : F → F → F :=
  if decide (scatter_type self = "cover"%string) then λ _ v, v
  else if decide (scatter_type self = "add"%string) then fadd
  else λ old _, old.

End ScatterConnection.


(** ** Storages, views and in-place operations

    The functions above compute the values of tensors.  The library calls
    of the module also decide which tensors share their memory and which
    calls write into the memory of their receiver: a tensor is a view, a
    layout of offsets, of a storage, the store holds the storages, and a
    call allocates a storage, returns a view of the storage of its
    receiver, or writes in place. *)

Inductive storage (F : Type) : Type :=
| SLong (l : list Z)
| SFloat (l : list F).
Arguments SLong {F} l.
Arguments SFloat {F} l.

(** [layout h] holds, for every element of the tensor, its offset in the
    storage [sid h]. *)
Record handle : Type := Handle { sid : nat; layout : ndarray nat }.

(** A computation on the store: its result or exception, and the store it
    leaves behind. *)
Definition St (F A : Type) : Type := list (storage F) → result A * list (storage F).

Global Instance St_ret {F} : MRet (St F) := λ A a σ, (Ok a, σ).
Global Instance St_bind {F} : MBind (St F) :=
  λ A B k m σ, match m σ with
               | (Ok a, σ') => k a σ'
               | (Raise e, σ') => (Raise e, σ')
               end.

(** [vals] written at the offsets [offs] of a storage. *)
Definition write_list {A} (l : list A) (offs : list nat) (vals : list A) : list A :=
  foldl (λ acc ov, <[ov.1 := ov.2]> acc) l (zip offs vals).

Definition contiguous_layout (a : ndarray nat) : Prop :=
  data a = seq (default 0 (head (data a))) (length (data a)).

Global Instance contiguous_layout_dec a : Decision (contiguous_layout a).
Proof. unfold contiguous_layout. apply _. Defined.

Section store.
Context {F : Type} `{!FloatOps F}.

Definition run {A} (r : result A) : St F A := λ σ, (r, σ).

(** The value of the tensor [h] in the store [σ]. *)
Definition read (σ : list (storage F)) (h : handle) : result (tensor F) :=
  match σ !! sid h with
  | Some (SLong l) => Ok (TLong (nd_map (λ o, l !!! o) (layout h)))
  | Some (SFloat l) => Ok (TFloat (nd_map (λ o, l !!! o) (layout h)))
  | None => Raise RuntimeError
  end.

Definition load (h : handle) : St F (tensor F) := λ σ, (read σ h, σ).

(** The elements of a tensor, as a storage of its dtype, and the contiguous
    tensor that covers such a storage at the identifier [n]. *)
Definition tdata_length (t : tensor F) : nat :=
  match t with TLong a => length (data a) | TFloat a => length (data a) end.

Definition storage_of (t : tensor F) : storage F :=
  match t with TLong a => SLong (data a) | TFloat a => SFloat (data a) end.

Definition covering (n : nat) (t : tensor F) : handle :=
  Handle n (NDArray (size t) (seq 0 (tdata_length t))).

(** A fresh contiguous tensor holding [t]. *)
Definition alloc (t : tensor F) : St F handle :=
  λ σ, (Ok (covering (length σ) t), σ ++ [storage_of t]).

(** The elements of the tensor [h] overwritten, in place, by those of [t]. *)
Definition write (h : handle) (t : tensor F) : St F unit :=
  λ σ, match σ !! sid h, t with
       | Some (SLong l), TLong a =>
           (Ok (), <[sid h := SLong (write_list l (data (layout h)) (data a))]> σ)
       | Some (SFloat l), TFloat a =>
           (Ok (), <[sid h := SFloat (write_list l (data (layout h)) (data a))]> σ)
       | _, _ => (Raise RuntimeError, σ)
       end.

(** Views: the result shares the storage of the receiver.  [view] needs a
    contiguous receiver. *)
Definition st_view (h : handle) (spec : list Z) : St F handle :=
  if decide (contiguous_layout (layout h))
  then l ← run (nd_view (layout h) spec); mret (Handle (sid h) l)
  else run (Raise RuntimeError).

Definition st_unsqueeze (h : handle) (dim : nat) : St F handle :=
  l ← run (nd_unsqueeze (layout h) dim); mret (Handle (sid h) l).

Definition st_select1 (h : handle) (c : nat) : St F handle :=
  l ← run (nd_select1 (layout h) c); mret (Handle (sid h) l).

Definition st_permute (h : handle) (dims : list nat) : St F handle :=
  l ← run (nd_permute (layout h) dims); mret (Handle (sid h) l).

Definition st_to_device (h : handle) : handle := h.

(** [reshape] is a view of a contiguous receiver and a copy otherwise;
    [contiguous] returns a contiguous receiver itself and a copy
    otherwise; [long] returns an int64 receiver itself. *)
Definition st_reshape (h : handle) (spec : list Z) : St F handle :=
  if decide (contiguous_layout (layout h)) then st_view h spec
  else t ← load h; t' ← run (reshape t spec); alloc t'.

Definition st_contiguous (h : handle) : St F handle :=
  if decide (contiguous_layout (layout h)) then mret h
  else t ← load h; alloc t.

Definition st_long (h : handle) : St F handle :=
  t ← load h;
  match t with
  | TLong _ => mret h
  | TFloat _ => alloc (long t)
  end.

(** Calls that return a new tensor. *)
Definition st_arange (n : nat) : St F handle := alloc (arange n).
Definition st_zeros (s : list nat) : St F handle := alloc (zeros s).

Definition st_repeat (h : handle) (reps : list nat) : St F handle :=
  t ← load h; t' ← run (repeat t reps); alloc t'.

Definition st_mul (h : handle) (c : Z) : St F handle :=
  t ← load h; t' ← run (mul t c); alloc t'.

Definition st_add (h1 h2 : handle) : St F handle :=
  t1 ← load h1; t2 ← load h2; t ← run (add t1 t2); alloc t.

(** Calls that write into their receiver and return it. *)
Definition st_mul_ (h : handle) (c : Z) : St F handle :=
  t ← load h; t' ← run (mul_ t c); _ ← write h t'; mret h.

Definition st_iadd (h1 h2 : handle) : St F handle :=
  t1 ← load h1; t2 ← load h2; t ← run (iadd t1 t2); _ ← write h1 t; mret h1.

Definition st_scatter_ (self : handle) (dim : nat) (index src : handle)
  : St F handle :=
  ts ← load self; ti ← load index; tsrc ← load src;
  t ← run (scatter_ ts dim ti tsrc); _ ← write self t; mret self.

Definition st_scatter_add_ (self : handle) (dim : nat) (index src : handle)
  : St F handle :=
  ts ← load self; ti ← load index; tsrc ← load src;
  t ← run (scatter_add_ ts dim ti tsrc); _ ← write self t; mret self.

(** The two entry points on the store. *)
Definition forward_st : ScatterConnection → handle → nat * nat → handle →
                        St F handle :=
  hpc_wrapper (λ self x spatial_size location,
    '(B, M, N) ← run (unpack3 (shape (layout x)));
    let '(H, W) := spatial_size in
    index ← st_view location [-1; 2]%Z;
    bias ← (b ← st_arange B;
            b ← st_mul_ b (Z.of_nat (H * W));
            b ← st_unsqueeze b 1;
            b ← st_repeat b [1; M];
            b ← st_view b [-1]%Z;
            mret (st_to_device b));
    index ← (i0 ← st_select1 index 0;
             i0 ← st_mul i0 (Z.of_nat W);
             i1 ← st_select1 index 1;
             st_add i0 i1);
    index ← st_iadd index bias;
    index ← st_repeat index [N; 1];
    x ← (x ← st_view x [-1; Z.of_nat N]%Z; st_permute x [1; 0]);
    output ← st_zeros [N; B * H * W];
    output ← (if decide (scatter_type self = "cover"%string)
              then st_scatter_ output 1 index x
              else if decide (scatter_type self = "add"%string)
              then st_scatter_add_ output 1 index x
              else mret output);
    output ← st_reshape output (Z.of_nat <$> [N; B; H; W]);
    output ← st_permute output [1; 0; 2; 3];
    st_contiguous output).

Definition xy_forward_st : ScatterConnection → handle → nat * nat →
                           handle → handle → St F handle :=
  hpc_wrapper (λ self x spatial_size coord_x coord_y,
    '(BatchSize, Num, EmbeddingSize) ← run (unpack3 (shape (layout x)));
    x ← st_permute x [0; 2; 1];
    let '(H, W) := spatial_size in
    indices ← (cx ← st_mul coord_x (Z.of_nat W); s ← st_add cx coord_y; st_long s);
    indices ← (i ← st_unsqueeze indices 1; st_repeat i [1; EmbeddingSize; 1]);
    output ← (z ← st_zeros [BatchSize; EmbeddingSize; H; W];
              st_view z (Z.of_nat <$> [BatchSize; EmbeddingSize; H * W]));
    output ← (if decide (scatter_type self = "cover"%string)
              then st_scatter_ output 2 indices x
              else if decide (scatter_type self = "add"%string)
              then st_scatter_add_ output 2 indices x
              else mret output);
    output ← st_view output (Z.of_nat <$> [BatchSize; EmbeddingSize; H; W]);
    mret output).

(** [owned σ h t]: the tensor [h] is the contiguous tensor that covers its
    whole storage, which holds the elements of [t]. *)
Definition owned (σ : list (storage F)) (h : handle) (t : tensor F) : Prop :=
  σ !! sid h = Some (storage_of t) ∧ h = covering (sid h) t.

(** A tensor has as many elements as its shape announces. *)
Definition twf (t : tensor F) : Prop := tdata_length t = numel (size t).

(** Two tensors of one dtype, one shape and one number of elements. *)
Definition similar (t t' : tensor F) : Prop :=
  size t' = size t ∧ tdata_length t' = tdata_length t ∧
  match t, t' with
  | TLong _, TLong _ | TFloat _, TFloat _ => True
  | _, _ => False
  end.

(** [extends σ σ']: the store [σ'] has the tensors of [σ], with their
    values. *)
Definition extends (σ σ' : list (storage F)) : Prop :=
  length σ ≤ length σ' ∧ ∀ g u, read σ g = Ok u → read σ' g = Ok u.

(** [preserves n m Q]: the computation [m] leaves the first [n] storages
    as they are, and its result satisfies [Q]. *)
Definition preserves (n : nat) {A} (m : St F A) (Q : A → Prop) : Prop :=
  ∀ σ, n ≤ length σ →
    take n (m σ).2 = take n σ ∧ n ≤ length (m σ).2 ∧
    ∀ a, (m σ).1 = Ok a → Q a.
End store.

(** The small scene in a store: features, locations and the two coordinate
    arrays, each a contiguous tensor of its own storage. *)
Definition scene_store : list (storage QArith_base.Q) :=
  [SFloat (data scene_features); SLong (data scene_locations);
   SLong (data scene_coord_x); SLong (data scene_coord_y)].
Definition scene_x : handle := Handle 0 (NDArray [2; 2; 1] (seq 0 4)).
Definition scene_location : handle := Handle 1 (NDArray [2; 2; 2] (seq 0 8)).
Definition scene_cx : handle := Handle 2 (NDArray [2; 2] (seq 0 4)).
Definition scene_cy : handle := Handle 3 (NDArray [2; 2] (seq 0 4)).

(** ** The shape function of the accelerated implementation

    [shape_fn_scatter_connection] receives the positional and the keyword
    arguments of a call of [forward] or [xy_forward] as Python passes them:
    a tuple [args] and a dict [kwargs] of objects.  It fails the way the
    interpreter does: on a missing key, a missing position, an attribute
    that the object lacks, an object that cannot be iterated. *)

Inductive pyexn : Type :=
| KeyError (key : string)
| TupleIndexError
| AttributeError (attr : string)
| TypeError.

Inductive outcome (A : Type) : Type :=
| Returns (a : A)
| Raises (e : pyexn).
Arguments Returns {A} a.
Arguments Raises {A} e.

Global Instance outcome_ret : MRet outcome := λ A, Returns.
Global Instance outcome_bind : MBind outcome :=
  λ A B f m, match m with Returns a => f a | Raises e => Raises e end.

(** The objects of such a call: integers, strings, tuples of integers,
    tensors and the module itself. *)
Inductive pyobj (F : Type) : Type :=
| PInt (z : Z)
| PStr (s : string)
| PTuple (l : list Z)
| PTensor (t : tensor F)
| PModule (self : ScatterConnection).
Arguments PInt {F} z.
Arguments PStr {F} s.
Arguments PTuple {F} l.
Arguments PTensor {F} t.
Arguments PModule {F} self.

(** The slices [a[0], a[1], ...] along the first dimension; an array
    without dimensions has none. *)
Definition nd_rows {A} (a : ndarray A) : option (list (ndarray A)) :=
  match shape a with
  | [] => None
  | d0 :: s' =>
      Some ((λ i, NDArray s' (take (numel s') (drop (i * numel s') (data a))))
              <$> seq 0 d0)
  end.

Section shape_fn.
Context {F : Type} `{!FloatOps F}.

(** [kwargs[key]] and [args[i]] *)
Definition getitem (kwargs : gmap string (pyobj F)) (key : string)
  : outcome (pyobj F) :=
  match kwargs !! key with
  | Some v => Returns v
  | None => Raises (KeyError key)
  end.

Definition tuple_item (args : list (pyobj F)) (i : nat) : outcome (pyobj F) :=
  match args !! i with
  | Some v => Returns v
  | None => Raises TupleIndexError
  end.

(** [list(v.shape)]: only tensors have a shape. *)
Definition shape_list (v : pyobj F) : outcome (list (pyobj F)) :=
  match v with
  | PTensor t => Returns ((λ d, PInt (Z.of_nat d)) <$> size t)
  | _ => Raises (AttributeError "shape")
  end.

(** [v.scatter_type]: an attribute of the module. *)
Definition get_scatter_type (v : pyobj F) : outcome (pyobj F) :=
  match v with
  | PModule self => Returns (PStr (scatter_type self))
  | _ => Raises (AttributeError "scatter_type")
  end.

(** The elements that iterating over [v] yields: the members of a tuple,
    the characters of a string, the slices of a tensor. *)
Definition iterate (v : pyobj F) : outcome (list (pyobj F)) :=
  match v with
  | PTuple l => Returns (PInt <$> l)
  | PStr s => Returns ((λ c, PStr (String c EmptyString)) <$> list_ascii_of_string s)
  | PTensor (TLong a) =>
      match nd_rows a with
      | Some rows => Returns ((λ r, PTensor (TLong r)) <$> rows)
      | None => Raises TypeError
      end
  | PTensor (TFloat a) =>
      match nd_rows a with
      | Some rows => Returns ((λ r, PTensor (TFloat r)) <$> rows)
      | None => Raises TypeError
      end
  | PInt _ | PModule _ => Raises TypeError
  end.

(** [tmp.extend(v)] *)
Definition extend (tmp : list (pyobj F)) (v : pyobj F)
  : outcome (list (pyobj F)) :=
  items ← iterate v; mret (tmp ++ items).

Definition shape_fn_scatter_connection (args : list (pyobj F))
    (kwargs : gmap string (pyobj F)) : outcome (list (pyobj F)) :=
  tmp ← (if decide (length args ≤ 1)
         then x ← getitem kwargs "x"; shape_list x
         else x ← tuple_item args 1; shape_list x);
  tmp ← (if decide (length args ≤ 2)
         then s ← getitem kwargs "spatial_size"; extend tmp s
         else s ← tuple_item args 2; extend tmp s);
  self ← tuple_item args 0;
  st ← get_scatter_type self;
  mret (tmp ++ [st]).
End shape_fn.

(** ** Dtypes and further scenes *)

Definition is_float {F} (t : tensor F) : bool :=
  match t with TFloat _ => true | TLong _ => false end.

(** One entity per batch element on a 2 x 2 grid; the entity of batch
    element 0 names the row 2, which the grid does not have. *)
Definition stray_features : ndarray QArith_base.Q :=
  NDArray [2; 1; 1] (Q_of <$> [10; 20]%Z).
Definition stray_locations : ndarray Z := NDArray [2; 1; 2] [2; 0; 0; 1]%Z.

(** The locations of the small scene as a flat list of pairs. *)
Definition scene_locations_flat : ndarray Z :=
  NDArray [4; 2] [0; 1; 0; 1; 1; 1; 0; 0]%Z.

(** What both entry points return on the small scene under ['cover']. *)
Definition scene_cover_output : ndarray QArith_base.Q :=
  NDArray [2; 1; 2; 2] (Q_of <$> [0; 20; 0; 0; 40; 0; 0; 30]%Z).

(** The arguments of a call on the small scene, as Python objects. *)
Definition scene_kwargs : gmap string (pyobj QArith_base.Q) :=
  {[ "x"%string := PTensor (TFloat scene_features);
     "spatial_size"%string := PTuple [2; 2]%Z ]}.

(** * Properties

    ** Row-major index arithmetic *)

Lemma inb_nil : inb [] [].
Proof. constructor. Qed.

Lemma inb_cons i I d s : i < d → inb I s → inb (i :: I) (d :: s).
Proof. intros; by constructor. Qed.

Lemma inb_cons_inv i I d s : inb (i :: I) (d :: s) → i < d ∧ inb I s.
Proof. intros H; inversion H; subst; auto. Qed.

Lemma inb_nil_inv I : inb I [] → I = [].
Proof. by inversion 1. Qed.

Lemma inb_inv I d s : inb I (d :: s) → ∃ i I', I = i :: I' ∧ i < d ∧ inb I' s.
Proof. inversion 1; subst; eauto. Qed.

(** [inb_destruct H] turns [H : inb I [d1; ...; dn]] into [I = [i1; ...; in]]
    and the bounds of the [ik]. *)
Ltac inb_destruct H :=
  repeat lazymatch type of H with
  | inb ?I [] => apply inb_nil_inv in H; first [subst I | discriminate H | clear H]
  | inb ?I (_ :: _) =>
      let i := fresh "i" in
      let I' := fresh "I" in
      let Heq := fresh "Heq" in
      let Hi := fresh "Hi" in
      apply inb_inv in H as (i & I' & Heq & Hi & H);
      first [subst I | discriminate Heq | injection Heq as <- <-]
  end.

(** [inb_solve] proves [inb [i1; ...; in] [d1; ...; dn]] from bounds in the
    context. *)
Ltac inb_solve :=
  repeat (apply inb_cons; [first [done | lia]|]); apply inb_nil.

(** [below i] goes through the cases of a bound [i < n] on a numeral [n]. *)
Ltac below i :=
  repeat (destruct i as [|i]; [|try (exfalso; lia)]); try (exfalso; lia).

Lemma inb_length I s : inb I s → length I = length s.
Proof. apply Forall2_length. Qed.

Lemma ravel_lt s : ∀ I, inb I s → ravel s I < numel s.
Proof.
  induction s as [|d s IH]; intros I HI; inversion HI; subst; simpl; [lia|].
  specialize (IH _ H3). nia.
Qed.

Lemma unravel_inb s : ∀ k, k < numel s → inb (unravel s k) s.
Proof.
  induction s as [|d s IH]; intros k Hk; simpl in *; [constructor|].
  assert (numel s ≠ 0) by (intros E; rewrite E in Hk; lia).
  apply inb_cons.
  - apply Nat.Div0.div_lt_upper_bound. lia.
  - apply IH. by apply Nat.mod_upper_bound.
Qed.

Lemma ravel_unravel s : ∀ k, k < numel s → ravel s (unravel s k) = k.
Proof.
  induction s as [|d s IH]; intros k Hk; simpl in *; [lia|].
  assert (numel s ≠ 0) by (intros E; rewrite E in Hk; lia).
  rewrite IH by (by apply Nat.mod_upper_bound).
  pose proof (Nat.div_mod_eq k (numel s)). lia.
Qed.

Lemma unravel_ravel s : ∀ I, inb I s → unravel s (ravel s I) = I.
Proof.
  induction s as [|d s IH]; intros I HI; inversion HI; subst; simpl; [done|].
  pose proof (ravel_lt _ _ H3) as Hlt.
  f_equal.
  - rewrite Nat.div_add_l by lia. rewrite Nat.div_small by done. lia.
  - rewrite Nat.add_comm, Nat.Div0.mod_add, Nat.mod_small by done. by apply IH.
Qed.

Lemma ravel_inj s I J : inb I s → inb J s → ravel s I = ravel s J → I = J.
Proof.
  intros HI HJ E. rewrite <-(unravel_ravel s I), <-(unravel_ravel s J) by done.
  by rewrite E.
Qed.


Lemma flat_entity B M k :
  k < B * M →
  ∃ b m, unravel [B; M] k = [b; m] ∧ b < B ∧ m < M ∧ k = b * M + m.
Proof.
  intros Hk.
  assert (Hk' : k < numel [B; M]) by (simpl; lia).
  pose proof (unravel_inb _ _ Hk') as Hinb.
  pose proof (ravel_unravel _ _ Hk') as Hr.
  destruct (unravel [B; M] k) as [|b [|m [|]]]; inb_destruct Hinb. exists b, m. simpl in Hr. repeat split; [done..|lia].
Qed.

Lemma cell_lt B H W b h w :
  b < B → h < H → w < W → b * (H * W) + h * W + w < B * H * W.
Proof.
  intros Hb Hh Hw.
  pose proof (ravel_lt [B; H; W] [b; h; w]) as Hr. simpl in Hr.
  assert (inb [b; h; w] [B; H; W]) as Hi by inb_solve.
  specialize (Hr Hi). lia.
Qed.

(** ** Enumeration of multi-indices *)

Lemma length_indices s : length (indices s) = numel s.
Proof. unfold indices. by rewrite length_fmap, length_seq. Qed.

Lemma indices_lookup s I : inb I s → indices s !! ravel s I = Some I.
Proof.
  intros HI. unfold indices. rewrite list_lookup_fmap.
  rewrite lookup_seq_lt by (by apply ravel_lt). simpl.
  by rewrite unravel_ravel.
Qed.

Lemma indices_lookup_lt s k :
  k < numel s → indices s !! k = Some (unravel s k).
Proof.
  intros Hk. unfold indices. by rewrite list_lookup_fmap, lookup_seq_lt.
Qed.

Lemma indices_lookup_inv s k I : indices s !! k = Some I → inb I s ∧ ravel s I = k.
Proof.
  unfold indices. rewrite list_lookup_fmap. intros Hk.
  destruct (seq 0 (numel s) !! k) as [k'|] eqn:E; simplify_eq/=.
  apply lookup_seq in E as [-> ?]. simpl.
  split; [by apply unravel_inb | by apply ravel_unravel].
Qed.

Lemma elem_of_indices s I : I ∈ indices s ↔ inb I s.
Proof.
  split.
  - intros [k Hk]%list_elem_of_lookup. by apply indices_lookup_inv in Hk as [? _].
  - intros HI. apply list_elem_of_lookup. eexists. by apply indices_lookup.
Qed.

(** Before a multi-index come the smaller offsets, after it the larger ones. *)
Lemma indices_split s I :
  inb I s →
  ∃ pre post, indices s = pre ++ I :: post ∧
    Forall (λ J, inb J s ∧ ravel s J < ravel s I) pre ∧
    Forall (λ J, inb J s ∧ ravel s I < ravel s J) post.
Proof.
  intros HI. pose proof (ravel_lt _ _ HI) as Hlt.
  exists (unravel s <$> seq 0 (ravel s I)),
         (unravel s <$> seq (S (ravel s I)) (numel s - S (ravel s I))).
  split; [|split].
  - unfold indices.
    replace (numel s) with (ravel s I + S (numel s - S (ravel s I))) at 1 by lia.
    rewrite seq_app, fmap_app. simpl. by rewrite unravel_ravel.
  - apply Forall_fmap, Forall_forall. intros k [_ Hk]%elem_of_seq. simpl in *.
    split; [apply unravel_inb; lia | rewrite ravel_unravel; lia].
  - apply Forall_fmap, Forall_forall. intros k [? Hk]%elem_of_seq. simpl in *.
    split; [apply unravel_inb; lia | rewrite ravel_unravel; lia].
Qed.

Lemma indices_nil : indices [] = [[]].
Proof. done. Qed.

Lemma length_indices_bind n s :
  length ((j ← seq 0 n; (cons j) <$> indices s) : list (list nat)) = n * numel s.
Proof.
  induction n as [|n IH]; [done|].
  rewrite seq_S, bind_app, length_app, IH. simpl.
  rewrite app_nil_r, length_fmap, length_indices. lia.
Qed.

Lemma lookup_indices_bind n s i I :
  inb I s →
  ((j ← seq 0 n; (cons j) <$> indices s) : list (list nat)) !! (i * numel s + ravel s I)
  = if decide (i < n) then Some (i :: I) else None.
Proof.
  intros HI. pose proof (ravel_lt _ _ HI) as Hr.
  induction n as [|n IHn]; [by rewrite decide_False by lia|].
  rewrite seq_S, bind_app. cbn [mbind list_bind foldr app Nat.add].
  rewrite app_nil_r.
  pose proof (length_indices_bind n s) as Hlen.
  destruct (decide (i < n)) as [Hin|Hin].
  - rewrite lookup_app_l by (rewrite Hlen; nia).
    by rewrite IHn, decide_True by lia.
  - rewrite lookup_app_r by (rewrite Hlen; nia).
    rewrite Hlen. case_decide.
    + assert (i = n) as -> by lia.
      replace (n * numel s + ravel s I - n * numel s) with (ravel s I) by lia.
      by rewrite list_lookup_fmap, indices_lookup.
    + apply lookup_ge_None_2. rewrite length_fmap, length_indices. nia.
Qed.

Lemma indices_cons d s :
  indices (d :: s) = i ← seq 0 d; (cons i) <$> indices s.
Proof.
  apply list_eq_same_length with (d * numel s).
  - apply length_indices_bind.
  - by rewrite length_indices.
  - intros k I J Hk HI HJ.
    apply indices_lookup_inv in HI as [HI <-].
    destruct I as [|i I]; [inversion HI|]. apply inb_cons_inv in HI as [Hi HI].
    cbn [ravel] in HJ. rewrite lookup_indices_bind in HJ by done.
    rewrite decide_True in HJ by done. by simplify_eq.
Qed.

(** Flattening a shape does not change the order of enumeration. *)
Lemma indices_flatten s n :
  n = numel s → indices [n] = (λ I, [ravel s I]) <$> indices s.
Proof.
  intros ->. unfold indices. rewrite <-list_fmap_compose.
  cbn [numel]. rewrite Nat.mul_1_r. apply list_fmap_ext.
  intros i k [-> Hk]%lookup_seq. cbn [unravel numel compose Nat.add].
  rewrite ravel_unravel by done. by rewrite Nat.div_1_r.
Qed.

Lemma omap_fmap_compose {A B C} (g : B → option C) (f : A → B) (l : list A) :
  omap g (f <$> l) = omap (λ x, g (f x)) l.
Proof.
  induction l as [|x l IH]; [done|].
  cbn [fmap list_fmap omap list_omap]. by rewrite <-IH.
Qed.

Lemma omap_ext_in {A B} (f g : A → option B) (l : list A) :
  (∀ x, x ∈ l → f x = g x) → omap f l = omap g l.
Proof.
  induction l as [|x l IH]; intros Hfg; [done|].
  cbn [omap list_omap]. rewrite Hfg by left. rewrite IH; [done|].
  intros y Hy. apply Hfg. by right.
Qed.

(** Only the block of the leading index [n] contributes to a selection that
    rejects every other leading index. *)
Lemma omap_indices_block {A} (g : list nat → option A) d s n :
  n < d → (∀ i I, i < d → inb I s → i ≠ n → g (i :: I) = None) →
  omap g (indices (d :: s)) = omap (λ I, g (n :: I)) (indices s).
Proof.
  intros Hn Hg. rewrite indices_cons.
  assert (Hmap : ∀ i (l : list (list nat)),
            omap g ((cons i) <$> l) = omap (λ I, g (i :: I)) l).
  { intros i l. induction l as [|J Js IHJ]; [done|].
    cbn [fmap list_fmap omap list_omap]. by rewrite <-IHJ. }
  assert (Hnone : ∀ l : list nat, Forall (λ i, i < d ∧ i ≠ n) l →
            omap g ((i ← l; (cons i) <$> indices s) : list (list nat)) = []).
  { induction l as [|i l IH]; intros Hl; [done|].
    inversion Hl as [|? ? [Hid Hin] Hl']; subst.
    rewrite bind_cons, omap_app, IH, app_nil_r, Hmap by done.
    clear IH. rewrite (omap_ext_in _ (λ _, None)).
    - by induction (indices s).
    - intros I HI%elem_of_indices. by apply Hg. }
  replace d with (n + S (d - S n)) by lia.
  rewrite seq_app, bind_app, omap_app. cbn [seq Nat.add].
  rewrite bind_cons, omap_app, !Hnone, Hmap.
  - by rewrite app_nil_r.
  - apply Forall_forall. intros i [? ?]%elem_of_seq. lia.
  - apply Forall_forall. intros i [? ?]%elem_of_seq. lia.
Qed.


(** ** Arrays *)

(** Inversion of the sequencing of [result]. *)
Lemma bind_Ok {A B} (m : result A) (k : A → result B) b :
  m ≫= k = Ok b → ∃ a, m = Ok a ∧ k a = Ok b.
Proof. destruct m as [a|e]; [|done]. intros E. by exists a. Qed.

Lemma fmap_Ok {A B} (f : A → B) (m : result A) b :
  f <$> m = Ok b → ∃ a, m = Ok a ∧ b = f a.
Proof. destruct m as [a|e]; [|done]. intros [= <-]. by exists a. Qed.

Lemma wf_tab {A} s (f : list nat → A) : wf (tab s f).
Proof. unfold wf, tab. simpl. by rewrite length_fmap, length_indices. Qed.

Lemma get_tab `{Inhabited A} s (f : list nat → A) I :
  inb I s → get (tab s f) I = f I.
Proof.
  intros HI. unfold get, tab. simpl.
  apply list_lookup_total_correct.
  by rewrite list_lookup_fmap, indices_lookup.
Qed.

Lemma tab_ext {A} s (f g : list nat → A) :
  (∀ I, inb I s → f I = g I) → tab s f = tab s g.
Proof.
  intros Hfg. unfold tab. f_equal. apply list_fmap_ext.
  intros k I HI. apply Hfg. by apply indices_lookup_inv in HI as [? _].
Qed.

(** Reading a flattened array at the offset of a multi-index. *)
Lemma get_flat `{Inhabited A} s (l : list A) I n :
  n = numel s → inb I s → get (NDArray [n] l) [ravel s I] = get (NDArray s l) I.
Proof. intros -> HI. unfold get. simpl. f_equal. lia. Qed.

Lemma get_zeros_like `{Inhabited A} s (z : A) I :
  inb I s → get (NDArray s (replicate (numel s) z)) I = z.
Proof.
  intros HI. unfold get. simpl. apply lookup_total_replicate_2.
  by apply ravel_lt.
Qed.

(** ** Shape inference of [view] *)

Lemma infer_size_exact (s : list nat) n :
  numel s = n → infer_size (Z.of_nat <$> s) n = Ok s.
Proof.
  intros Hn. unfold infer_size.
  rewrite decide_False; last first.
  { rewrite Exists_fmap, Exists_exists. intros (d & _ & Hd). simpl in Hd. lia. }
  assert (Hf : filter (λ z, z ≠ (-1)%Z) (Z.of_nat <$> s) = Z.of_nat <$> s).
  { clear Hn. induction s as [|d s IH]; [done|]. rewrite fmap_cons.
    rewrite filter_cons_True by lia. by rewrite IH. }
  assert (Hs : Z.to_nat <$> (Z.of_nat <$> s) = s).
  { rewrite <-list_fmap_compose. rewrite <-(list_fmap_id s) at 2.
    apply list_fmap_ext. intros ???. simpl. lia. }
  cbv zeta. rewrite Hf, Nat.sub_diag, Hs. by rewrite decide_True.
Qed.

Lemma infer_size_flat1 n : infer_size [-1]%Z n = Ok [n].
Proof.
  unfold infer_size. rewrite decide_False; last first.
  { rewrite Exists_cons, Exists_nil. lia. }
  rewrite filter_cons_False, filter_nil by (intros ?; done).
  cbn [length Nat.sub fmap list_fmap numel].
  rewrite decide_True by (split; [lia | apply Nat.mod_1_r]).
  cbn [fmap list_fmap]. rewrite decide_True by done. by rewrite Nat.div_1_r.
Qed.

Lemma infer_size_flat2 (c r n : nat) :
  0 < c → n = r * c → infer_size [(-1)%Z; Z.of_nat c] n = Ok [r; c].
Proof.
  intros Hc ->. unfold infer_size. rewrite decide_False; last first.
  { rewrite !Exists_cons, Exists_nil. lia. }
  rewrite filter_cons_False by (intros ?; done).
  rewrite filter_cons_True, filter_nil by lia.
  cbn [length Nat.sub fmap list_fmap numel].
  replace (Z.to_nat (Z.of_nat c) * 1) with c by lia.
  rewrite decide_True by (split; [lia | apply Nat.Div0.mod_mul]).
  cbn [fmap list_fmap]. rewrite decide_True by done.
  rewrite decide_False by lia. rewrite Nat.div_mul by lia.
  by replace (Z.to_nat (Z.of_nat c)) with c by lia.
Qed.

Lemma nd_view_ok {A} (a : ndarray A) spec s :
  infer_size spec (numel (shape a)) = Ok s →
  nd_view a spec = Ok (NDArray s (data a)).
Proof. intros Hs. unfold nd_view. by rewrite Hs. Qed.

Lemma nd_view_flat1 {A} (a : ndarray A) n :
  numel (shape a) = n → nd_view a [-1]%Z = Ok (NDArray [n] (data a)).
Proof. intros <-. apply nd_view_ok, infer_size_flat1. Qed.

Lemma nd_view_flat2 {A} (a : ndarray A) (c r : nat) :
  0 < c → numel (shape a) = r * c →
  nd_view a [(-1)%Z; Z.of_nat c] = Ok (NDArray [r; c] (data a)).
Proof. intros Hc Hn. by apply nd_view_ok, infer_size_flat2. Qed.

Lemma nd_view_exact {A} (a : ndarray A) (s : list nat) :
  numel s = numel (shape a) →
  nd_view a (Z.of_nat <$> s) = Ok (NDArray s (data a)).
Proof. intros Hn. by apply nd_view_ok, infer_size_exact. Qed.

(** ** Broadcasting of equal shapes *)

Lemma broadcast_rev_same s : broadcast_rev s s = Some s.
Proof.
  induction s as [|d s IH]; [done|]. simpl. rewrite IH. simpl.
  by rewrite decide_True.
Qed.

Lemma broadcast_shapes_same s : broadcast_shapes s s = Some s.
Proof.
  unfold broadcast_shapes. rewrite broadcast_rev_same. simpl.
  by rewrite reverse_involutive.
Qed.

Lemma zip_with_mod_inb I s : inb I s → zip_with Nat.modulo I s = I.
Proof.
  induction 1 as [|i d I s Hi _ IH]; [done|]. simpl.
  by rewrite Nat.mod_small, IH.
Qed.

Lemma bget_same `{Inhabited A} (a : ndarray A) I :
  inb I (shape a) → bget a (shape a) I = get a I.
Proof.
  intros HI. unfold bget. rewrite Nat.sub_diag, drop_0.
  by rewrite zip_with_mod_inb.
Qed.

Lemma bget_shape `{Inhabited A} (a : ndarray A) s I :
  shape a = s → inb I s → bget a s I = get a I.
Proof. intros <-. apply bget_same. Qed.

Lemma bget_tab `{Inhabited A} s (f : list nat → A) I :
  inb I s → bget (tab s f) s I = f I.
Proof. intros HI. by rewrite (bget_same (tab s f)), get_tab. Qed.

Lemma nd_map_tab {A B} (g : A → B) s (f : list nat → A) :
  nd_map g (tab s f) = tab s (λ I, g (f I)).
Proof. unfold nd_map, tab. simpl. by rewrite <-list_fmap_compose. Qed.

Lemma get_nd_map `{Inhabited A, Inhabited B} (g : A → B) (a : ndarray A) I :
  wf a → inb I (shape a) → get (nd_map g a) I = g (get a I).
Proof.
  intros Hwf HI. unfold get, nd_map. cbn [shape data].
  apply list_lookup_total_fmap. rewrite Hwf. by apply ravel_lt.
Qed.

(** ** The permutations used by the module *)

Lemma nd_permute_10 `{Inhabited A} (a : ndarray A) r c :
  shape a = [r; c] →
  nd_permute a [1; 0] = Ok (tab [c; r] (λ I, get a [I !!! 1; I !!! 0])).
Proof.
  intros Hs. unfold nd_permute. rewrite Hs. cbn [length].
  rewrite decide_True by (split; [done|repeat constructor]). done.
Qed.

Lemma nd_permute_021 `{Inhabited A} (a : ndarray A) d0 d1 d2 :
  shape a = [d0; d1; d2] →
  nd_permute a [0; 2; 1]
  = Ok (tab [d0; d2; d1] (λ I, get a [I !!! 0; I !!! 2; I !!! 1])).
Proof.
  intros Hs. unfold nd_permute. rewrite Hs. cbn [length].
  rewrite decide_True by (split; [done|repeat constructor]). done.
Qed.

Lemma nd_permute_1023 `{Inhabited A} (a : ndarray A) d0 d1 d2 d3 :
  shape a = [d0; d1; d2; d3] →
  nd_permute a [1; 0; 2; 3]
  = Ok (tab [d1; d0; d2; d3] (λ I, get a [I !!! 1; I !!! 0; I !!! 2; I !!! 3])).
Proof.
  intros Hs. unfold nd_permute. rewrite Hs. cbn [length].
  rewrite decide_True by (split; [done|repeat constructor]). done.
Qed.

(** ** The write loop of scatter *)

Section scatter_loop.
Context `{Inhabited A} (upd : A → A → A) (dim : nat).
Context (self : ndarray A) (index : ndarray Z) (src : ndarray A).

Lemma scatter_fold Is : ∀ d0,
  length d0 = numel (shape self) → Forall (index_ok dim self index) Is →
  ∃ d, foldl (λ acc I,
                out ← acc;
                let i := get index I in
                if decide (0 ≤ i < Z.of_nat (shape self !!! dim))%Z then
                  let dst := ravel (shape self) (<[dim := Z.to_nat i]> I) in
                  Ok (<[dst := upd (out !!! dst) (get src I)]> out)
                else Raise RuntimeError) (Ok d0) Is = Ok d ∧
       length d = numel (shape self) ∧
       ∀ J, inb J (shape self) →
            d !!! ravel (shape self) J
            = foldl upd (d0 !!! ravel (shape self) J) (omap (write_to dim index src J) Is).
Proof.
  induction Is as [|I Is IH]; intros d0 Hlen HIs.
  { exists d0. by repeat split. }
  inversion HIs as [|? ? [Hrange Hinb] HIs']; subst.
  cbn [foldl]. cbn [mbind result_bind]. rewrite decide_True by done.
  cbv zeta.
  set (dst := ravel (shape self) (<[dim := Z.to_nat (get index I)]> I)).
  destruct (IH (<[dst := upd (d0 !!! dst) (get src I)]> d0)) as (d & Hd & Hl & Hget).
  { by rewrite length_insert. }
  { done. }
  exists d. split; [done|]. split; [done|].
  intros J HJ. rewrite Hget by done. cbn [omap list_omap].
  unfold write_to at 2. case_decide as HJI.
  - subst J. fold dst. rewrite list_lookup_total_insert_eq; [done|].
    rewrite Hlen. by apply ravel_lt.
  - rewrite list_lookup_total_insert_ne; [done|].
    intros E. apply HJI. by apply (ravel_inj (shape self)).
Qed.

Lemma scatter_loop_ok :
  wf self → (∀ I, inb I (shape index) → index_ok dim self index I) →
  ∃ d, scatter_loop upd dim self index src = Ok d ∧
       length d = numel (shape self) ∧
       ∀ J, inb J (shape self) →
            d !!! ravel (shape self) J
            = foldl upd (get self J) (omap (write_to dim index src J) (indices (shape index))).
Proof.
  intros Hwf Hok. unfold scatter_loop. apply scatter_fold; [done|].
  apply Forall_forall. intros I HI. apply Hok. by apply elem_of_indices.
Qed.

(** A single out-of-range entry makes the whole loop fail. *)
Lemma scatter_fold_raise Is : ∀ d0 : list A,
  (∃ I, I ∈ Is ∧ ¬ (0 ≤ get index I < Z.of_nat (shape self !!! dim))%Z) →
  foldl (λ acc I,
           out ← acc;
           let i := get index I in
           if decide (0 ≤ i < Z.of_nat (shape self !!! dim))%Z then
             let dst := ravel (shape self) (<[dim := Z.to_nat i]> I) in
             Ok (<[dst := upd (out !!! dst) (get src I)]> out)
           else Raise RuntimeError) (Ok d0) Is = Raise RuntimeError.
Proof.
  induction Is as [|I Is IH]; intros d0 (I' & HI' & Hbad).
  { by apply elem_of_nil in HI'. }
  cbn [foldl]. cbn [mbind result_bind]. cbv zeta.
  destruct (decide (0 ≤ get index I < Z.of_nat (shape self !!! dim))%Z) as [Hin|Hout].
  - apply IH. apply elem_of_cons in HI' as [->|HI']; [done|eauto].
  - clear. induction Is as [|? ? IHl]; [done|]. by cbn [foldl mbind result_bind].
Qed.

Lemma scatter_loop_raise I :
  inb I (shape index) →
  ¬ (0 ≤ get index I < Z.of_nat (shape self !!! dim))%Z →
  scatter_loop upd dim self index src = Raise RuntimeError.
Proof.
  intros HI Hbad. unfold scatter_loop. apply scatter_fold_raise.
  exists I. split; [by apply elem_of_indices | done].
Qed.

Lemma nd_scatter_ok :
  wf self →
  (numel (shape index) ≠ 0 →
   scatter_shape_ok dim (shape self) (shape index) (shape src)) →
  (∀ I, inb I (shape index) → index_ok dim self index I) →
  ∃ out, nd_scatter upd dim self index src = Ok out ∧
         shape out = shape self ∧ wf out ∧
         ∀ J, inb J (shape self) →
              get out J
              = foldl upd (get self J) (omap (write_to dim index src J) (indices (shape index))).
Proof.
  intros Hwf Hshape Hok. unfold nd_scatter. case_decide as Hn.
  - exists self. repeat split; [done|]. intros J HJ.
    assert (indices (shape index) = []) as ->; [|done].
    apply length_zero_iff_nil. by rewrite length_indices.
  - rewrite decide_True by auto.
    destruct (scatter_loop_ok Hwf Hok) as (d & -> & Hlen & Hget).
    eexists. split; [done|]. repeat split; [done|]. exact Hget.
Qed.

Lemma nd_scatter_raise I :
  numel (shape index) ≠ 0 →
  inb I (shape index) →
  ¬ (0 ≤ get index I < Z.of_nat (shape self !!! dim))%Z →
  ∃ e, nd_scatter upd dim self index src = Raise e.
Proof.
  intros Hn HI Hbad. unfold nd_scatter. rewrite decide_False by done.
  case_decide; [|by eexists].
  rewrite (scatter_loop_raise I) by done. by eexists.
Qed.
End scatter_loop.

(** ** The index computation of [forward] *)

Section forward_steps.
Context {F : Type} `{!FloatOps F}.

Lemma view_long_flat2 (a : ndarray Z) cz c r :
  cz = Z.of_nat c → 0 < c → numel (shape a) = r * c →
  view (F:=F) (TLong a) [(-1)%Z; cz] = Ok (TLong (NDArray [r; c] (data a))).
Proof. intros -> ??. unfold view, lift. by rewrite (nd_view_flat2 _ c r). Qed.

Lemma view_float_flat2 (a : ndarray F) cz c r :
  cz = Z.of_nat c → 0 < c → numel (shape a) = r * c →
  view (TFloat a) [(-1)%Z; cz] = Ok (TFloat (NDArray [r; c] (data a))).
Proof. intros -> ??. unfold view, lift. by rewrite (nd_view_flat2 _ c r). Qed.

Lemma view_float_exact (a : ndarray F) (s : list nat) :
  numel s = numel (shape a) →
  view (TFloat a) (Z.of_nat <$> s) = Ok (TFloat (NDArray s (data a))).
Proof. intros ?. unfold view, lift. by rewrite nd_view_exact. Qed.

Lemma permute_float_10 (a : ndarray F) r c :
  shape a = [r; c] →
  permute (TFloat a) [1; 0]
  = Ok (TFloat (tab [c; r] (λ I, get a [I !!! 1; I !!! 0]))).
Proof. intros Hs. unfold permute, lift. by rewrite (nd_permute_10 _ r c). Qed.

Lemma permute_float_021 (a : ndarray F) d0 d1 d2 :
  shape a = [d0; d1; d2] →
  permute (TFloat a) [0; 2; 1]
  = Ok (TFloat (tab [d0; d2; d1] (λ I, get a [I !!! 0; I !!! 2; I !!! 1]))).
Proof. intros Hs. unfold permute, lift. by rewrite (nd_permute_021 _ d0 d1 d2). Qed.

Lemma permute_float_1023 (a : ndarray F) d0 d1 d2 d3 :
  shape a = [d0; d1; d2; d3] →
  permute (TFloat a) [1; 0; 2; 3]
  = Ok (TFloat (tab [d1; d0; d2; d3]
                  (λ I, get a [I !!! 1; I !!! 0; I !!! 2; I !!! 3]))).
Proof.
  intros Hs. unfold permute, lift. by rewrite (nd_permute_1023 _ d0 d1 d2 d3).
Qed.

Lemma bias_block B M HW :
  int64_range (Z.of_nat HW) →
  (b ← mul_ (arange B) (Z.of_nat HW);
   b ← unsqueeze b 1;
   b ← repeat b [1; M];
   b ← view b [-1]%Z;
   mret (to_device b))
  = Ok (TLong (F:=F) (NDArray [B * M]
         ((λ e, wrap64 (Z.of_nat (e !!! 0) * Z.of_nat HW)) <$> indices [B; M]))).
Proof.
  intros HHW. unfold mul_, mul. rewrite decide_True by done.
  cbn [arange mbind result_bind].
  unfold unsqueeze, lift, nd_unsqueeze. cbn [shape nd_map length].
  rewrite decide_True by lia.
  cbn [take drop app fmap result_fmap mbind result_bind].
  unfold repeat, lift, nd_repeat. cbn [shape length].
  rewrite decide_True by lia.
  cbn [fmap result_fmap mbind result_bind Nat.sub replicate app zip_with].
  rewrite Nat.mul_1_r, Nat.mul_1_l.
  unfold view, lift. rewrite (nd_view_flat1 _ (B * M)) by (simpl; lia).
  cbn [fmap result_fmap mbind result_bind mret result_ret to_device].
  unfold to_device, tab. cbn [data]. do 3 f_equal.
  apply list_fmap_ext. intros k e He.
  apply indices_lookup_inv in He as [He _].
  inb_destruct He.
  cbn [zip_with ravel numel nd_map data]. rewrite Nat.mod_1_r, Nat.mod_small by done.
  replace (i * (1 * 1) + (0 * 1 + 0)) with i by lia.
  apply list_lookup_total_correct.
  by rewrite !list_lookup_fmap, lookup_seq_lt.
Qed.

Lemma select1_long (ia : ndarray Z) K c :
  shape ia = [K; 2] → c < 2 →
  select1 (F:=F) (TLong ia) c
  = Ok (TLong (tab [K] (λ I, get ia (take 1 I ++ c :: drop 1 I)))).
Proof.
  intros Hs Hc. unfold select1, lift, nd_select1. rewrite Hs.
  by rewrite decide_True by done.
Qed.


Lemma index_block (ia : ndarray Z) K W :
  shape ia = [K; 2] → int64_range W →
  (i0 ← select1 (F:=F) (TLong ia) 0;
   i0 ← mul i0 W;
   i1 ← select1 (TLong ia) 1;
   add i0 i1)
  = Ok (TLong (tab [K] (λ J, wrap64 (wrap64 (get ia [J !!! 0; 0] * W)
                                     + get ia [J !!! 0; 1])))).
Proof.
  intros Hs HW. unfold select1, lift, nd_select1. rewrite Hs.
  rewrite !decide_True by lia.
  cbn [fmap result_fmap mbind result_bind]. unfold mul.
  rewrite decide_True by done. cbn [mbind result_bind add].
  unfold nd_zip_with. cbn [shape nd_map tab].
  rewrite broadcast_shapes_same. cbn [fmap result_fmap]. do 2 f_equal.
  apply tab_ext. intros J HJ. inb_destruct HJ.
  rewrite nd_map_tab, !bget_tab by (by repeat constructor). done.
Qed.

Lemma forward_unfold self (xa : ndarray F) (la : ndarray Z) B M N H W :
  shape xa = [B; M; N] → shape la = [B; M; 2] → 0 < N →
  int64_range (Z.of_nat W) → int64_range (Z.of_nat (H * W)) →
  forward self (TFloat xa) (H, W) (TLong la) =
    output ← (if decide (scatter_type self = "cover"%string)
              then scatter_ (zeros [N; B * H * W]) 1
                     (TLong (fwd_index la B M N H W)) (TFloat (fwd_src xa B M N))
              else if decide (scatter_type self = "add"%string)
              then scatter_add_ (zeros [N; B * H * W]) 1
                     (TLong (fwd_index la B M N H W)) (TFloat (fwd_src xa B M N))
              else mret (zeros [N; B * H * W]));
    output ← reshape output (Z.of_nat <$> [N; B; H; W]);
    output ← permute output [1; 0; 2; 3];
    mret (contiguous output).
Proof.
  intros Hx Hl HN HW HHW. unfold forward, hpc_wrapper.
  cbn [size]. rewrite Hx. cbn [unpack3 mbind result_bind].
  rewrite (view_long_flat2 _ _ 2 (B * M)) by (rewrite ?Hl; simpl; lia).
  cbn [mbind result_bind].
  rewrite bias_block by done. cbn [mbind result_bind].
  rewrite (index_block _ (B * M)) by done. cbn [mbind result_bind].
  rewrite (view_float_flat2 _ _ N (B * M)) by (rewrite ?Hx; simpl; lia).
  cbn [mbind result_bind].
  cbn [iadd]. unfold nd_zip_with_. cbn [shape tab].
  rewrite broadcast_shapes_same, decide_True by done.
  cbn [fmap result_fmap mbind result_bind].
  unfold repeat, lift, nd_repeat. cbn [shape tab length].
  rewrite decide_True by lia.
  cbn [fmap result_fmap mbind result_bind Nat.sub replicate app zip_with].
  rewrite (permute_float_10 _ (B * M) N) by done.
  cbn [mbind result_bind].
  assert (Hidx : ∀ (f : list nat → Z) (g : list nat → Z),
    (∀ k, k < B * M → g [k] = f (unravel [B; M] k)) →
    tab [1 * N; B * M * 1]
      (λ I, data (tab [B * M] g) !!! ravel [1; B * M] (zip_with Nat.modulo I [1; B * M]))
    = tab [N; B * M] (λ I, f (unravel [B; M] (I !!! 1)))).
  { intros f g Hfg. rewrite Nat.mul_1_l, Nat.mul_1_r. apply tab_ext.
    intros I HI. inb_destruct HI. cbn [zip_with]. rewrite Nat.mod_1_r.
    rewrite Nat.mod_small by done.
    change (data (tab [B * M] g) !!! ravel [1; B * M] [0; i0])
      with (get (tab [B * M] g) [i0]).
    rewrite get_tab by (by repeat constructor). by apply Hfg. }
  rewrite (Hidx (fwd_address la H W)); last first.
  { intros k Hk. rewrite bget_tab by (by repeat constructor).
    rewrite (bget_same (NDArray [B * M] _)) by (by repeat constructor).
    destruct (flat_entity B M k Hk) as (b & m & Hu & Hb & Hm & ->).
    rewrite Hu. unfold fwd_address. cbn [app lookup_total list_lookup_total].
    assert (Hg : ∀ c, get {| shape := [B * M; 2]; data := data la |} [b * M + m; c]
                      = get la [b; m; c]).
    { intros c. unfold get. rewrite Hl. cbn [shape data ravel numel]. f_equal. lia. }
    rewrite !Hg. f_equal. f_equal.
    unfold get. cbn [shape data ravel numel].
    apply list_lookup_total_correct.
    rewrite list_lookup_fmap, indices_lookup_lt by (simpl; lia).
    replace ((b * M + m) * 1 + 0) with (b * M + m) by lia. by rewrite Hu. }
  clear Hidx. fold (fwd_index la B M N H W).
  replace (tab [N; B * M]
             (λ I, get {| shape := [B * M; N]; data := data xa |} [I !!! 1; I !!! 0]))
    with (fwd_src xa B M N); [done|].
  apply tab_ext. intros I HI. inb_destruct HI.
  cbn [lookup_total list_lookup_total].
  destruct (flat_entity B M i0 Hi0) as (b & m & Hu & Hb & Hm & ->).
  rewrite Hu. unfold get. rewrite Hx. cbn [shape data ravel numel app].
  f_equal. lia.
Qed.
End forward_steps.

(** ** What [forward] returns *)

Section forward_spec.
Context {F : Type} `{!FloatOps F}.

(** The accumulator after the scatter of [forward]: cell [a] of channel
    [n] folds, in flattening order, the values of the entities addressed
    to [a]. *)
Lemma forward_accumulate (upd : F → F → F) (xa : ndarray F) (la : ndarray Z)
    B M N H W :
  (∀ e, inb e [B; M] → (0 ≤ fwd_address la H W e < Z.of_nat (B * H * W))%Z) →
  ∃ acc,
    nd_scatter upd 1 (NDArray [N; B * H * W] (replicate (numel [N; B * H * W]) fzero))
      (fwd_index la B M N H W) (fwd_src xa B M N) = Ok acc ∧
    shape acc = [N; B * H * W] ∧ wf acc ∧
    ∀ n a, n < N → a < B * H * W →
      get acc [n; a]
      = foldl upd fzero
          (writes_at (fwd_address la H W) (λ e, get xa (e ++ [n])) a (indices [B; M])).
Proof.
  intros Haddr.
  set (self := NDArray [N; B * H * W] (replicate (numel [N; B * H * W]) fzero)).
  assert (Hflat : ∀ k, k < B * M → inb (unravel [B; M] k) [B; M]).
  { intros k Hk. apply unravel_inb. simpl. lia. }
  destruct (nd_scatter_ok upd 1 self (fwd_index la B M N H W) (fwd_src xa B M N))
    as (acc & Hacc & Hshape & Hwf & Hget).
  - unfold wf, self. simpl. by rewrite length_replicate.
  - intros _. unfold scatter_shape_ok. cbn [shape self fwd_index fwd_src tab length].
    repeat split; [lia| |by repeat constructor].
    repeat constructor; cbn [lookup_total list_lookup_total]; lia.
  - intros I HI. cbn [fwd_index tab shape] in HI. inb_destruct HI.
    unfold index_ok, fwd_index. rewrite get_tab by (by repeat constructor).
    cbn [self shape lookup_total list_lookup_total].
    specialize (Haddr _ (Hflat _ Hi0)). split; [done|].
    cbn [list_insert insert]. repeat constructor; [done|lia].
  - exists acc. split; [done|]. split; [done|]. split; [done|].
    intros n a Hn Ha. rewrite Hget by (by repeat constructor).
    unfold self at 1. rewrite get_zeros_like by (by repeat constructor).
    f_equal. cbn [fwd_index tab shape].
    rewrite (omap_indices_block _ _ _ n); [|done|]; last first.
    { intros i I _ _ Hi. unfold write_to. rewrite decide_False; [done|].
      destruct I as [|k I]; cbn [list_insert insert]; congruence. }
    rewrite (indices_flatten [B; M]) by (simpl; lia).
    rewrite omap_fmap_compose. unfold writes_at. apply omap_ext_in.
    intros e He%elem_of_indices. pose proof (Haddr _ He) as Hrange.
    pose proof (ravel_lt _ _ He) as Hlt. cbn [numel] in Hlt.
    unfold write_to, fwd_index, fwd_src.
    rewrite !get_tab by inb_solve.
    cbn [lookup_total list_lookup_total list_insert insert].
    rewrite unravel_ravel by done.
    destruct (decide (fwd_address la H W e = Z.of_nat a)) as [Heq|Hne].
    + rewrite decide_True; [done|]. rewrite Heq. by rewrite Nat2Z.id.
    + rewrite decide_False; [done|]. intros [= E]. apply Hne. lia.
Qed.

Lemma foldl_keep {A B} (l : list B) (a : A) : foldl (λ old _, old) a l = a.
Proof. induction l as [|x l IH]; [done|]. apply IH. Qed.

(** The scatter step of both entry points, under any of the three policy
    branches. *)
Lemma policy_scatter self (dim : nat) (s : list nat) (ia : ndarray Z)
    (sa : ndarray F) (P : (F → F → F) → ndarray F → Prop) :
  dim < length s →
  (∀ upd, ∃ acc,
     nd_scatter upd dim (NDArray s (replicate (numel s) fzero)) ia sa = Ok acc ∧
     P upd acc) →
  P (λ old _, old) (NDArray s (replicate (numel s) fzero)) →
  ∃ acc,
    (if decide (scatter_type self = "cover"%string)
     then scatter_ (zeros s) dim (TLong ia) (TFloat sa)
     else if decide (scatter_type self = "add"%string)
     then scatter_add_ (zeros s) dim (TLong ia) (TFloat sa)
     else mret (zeros s)) = Ok (TFloat acc) ∧ P (policy_upd self) acc.
Proof.
  intros Hdim Hsc Hz. unfold policy_upd, scatter_, scatter_add_, scatter_with, zeros.
  cbn [size shape]. rewrite !(decide_True (P := dim < length s)) by done.
  cbn [mbind result_bind]. repeat case_decide.
  - destruct (Hsc (λ _ v, v)) as (a & -> & Ha). by exists a.
  - destruct (Hsc fadd) as (a & -> & Ha). by exists a.
  - by eexists.
Qed.

Lemma forward_ok self (xa : ndarray F) (la : ndarray Z) B M N H W :
  shape xa = [B; M; N] → shape la = [B; M; 2] → 0 < N →
  int64_range (Z.of_nat W) → int64_range (Z.of_nat (H * W)) →
  (∀ e, inb e [B; M] → (0 ≤ fwd_address la H W e < Z.of_nat (B * H * W))%Z) →
  ∃ o, forward self (TFloat xa) (H, W) (TLong la) = Ok (TFloat o) ∧
       shape o = [B; N; H; W] ∧ wf o ∧
       ∀ b n h w, b < B → n < N → h < H → w < W →
         get o [b; n; h; w]
         = foldl (policy_upd self) fzero
             (writes_at (fwd_address la H W) (λ e, get xa (e ++ [n]))
                (b * (H * W) + h * W + w) (indices [B; M])).
Proof.
  intros Hx Hl HN HW HHW Haddr. rewrite (forward_unfold _ _ _ B M N) by done.
  destruct (policy_scatter self 1 [N; B * H * W] (fwd_index la B M N H W)
              (fwd_src xa B M N)
              (λ upd acc, shape acc = [N; B * H * W] ∧ wf acc ∧
                 ∀ n a, n < N → a < B * H * W →
                   get acc [n; a]
                   = foldl upd fzero
                       (writes_at (fwd_address la H W) (λ e, get xa (e ++ [n])) a
                          (indices [B; M]))))
    as (acc & -> & Hshape & Hwf & Hget).
  - simpl; lia.
  - intros upd. by apply forward_accumulate.
  - split; [done|]. split; [unfold wf; simpl; by rewrite length_replicate|].
    intros n a Hn Ha. rewrite get_zeros_like by inb_solve. by rewrite foldl_keep.
  - cbn [mbind result_bind]. unfold reshape.
    rewrite view_float_exact by (rewrite Hshape; simpl; lia).
    cbn [mbind result_bind].
    rewrite (permute_float_1023 _ N B H W) by done.
    cbn [mbind result_bind mret result_ret contiguous].
    eexists. split; [done|]. split; [done|]. split; [apply wf_tab|].
    intros b n h w Hb Hn Hh Hw. rewrite get_tab by inb_solve.
    cbn [lookup_total list_lookup_total].
    rewrite <-Hget by (done || by apply cell_lt).
    unfold get. rewrite Hshape. cbn [shape data ravel numel]. f_equal. lia.
Qed.
End forward_spec.

(** ** What [xy_forward] returns *)

Section xy_spec.
Context {F : Type} `{!FloatOps F}.

Lemma xy_unfold self (xa : ndarray F) (ia : ndarray Z) coord_x coord_y B M N H W :
  shape xa = [B; M; N] → shape ia = [B; M] →
  (cx ← mul coord_x (Z.of_nat W); s ← add cx coord_y; mret (long s))
    = Ok (TLong ia) →
  xy_forward self (TFloat xa) (H, W) coord_x coord_y =
    output ← (if decide (scatter_type self = "cover"%string)
              then scatter_ (zeros [B; N; H * W]) 2
                     (TLong (xy_index ia B M N)) (TFloat (xy_src xa B M N))
              else if decide (scatter_type self = "add"%string)
              then scatter_add_ (zeros [B; N; H * W]) 2
                     (TLong (xy_index ia B M N)) (TFloat (xy_src xa B M N))
              else mret (zeros [B; N; H * W]));
    view output (Z.of_nat <$> [B; N; H; W]).
Proof.
  intros Hx Hi Hidx. unfold xy_forward, hpc_wrapper.
  cbn [size]. rewrite Hx. cbn [unpack3 mbind result_bind].
  rewrite (permute_float_021 _ B M N) by done. cbn [mbind result_bind].
  rewrite Hidx. cbn [mbind result_bind].
  unfold unsqueeze, lift, nd_unsqueeze. rewrite Hi. cbn [length].
  rewrite (decide_True (P := 1 ≤ 2)) by lia.
  cbn [take drop app fmap result_fmap mbind result_bind].
  unfold repeat, lift, nd_repeat. cbn [shape length].
  rewrite (decide_True (P := 3 ≤ 3)) by lia.
  cbn [fmap result_fmap mbind result_bind Nat.sub replicate app zip_with data].
  unfold zeros at 1. rewrite view_float_exact by (simpl; lia).
  cbn [mbind result_bind data].
  replace (numel [B; N; H; W]) with (numel [B; N; H * W]) by (simpl; lia).
  fold (zeros (F:=F) [B; N; H * W]). fold (xy_src xa B M N).
  replace (tab [B * 1; 1 * N; M * 1]
             (λ I, data ia !!! ravel [B; 1; M] (zip_with Nat.modulo I [B; 1; M])))
    with (xy_index ia B M N); last first.
  { rewrite !Nat.mul_1_r, Nat.mul_1_l. apply tab_ext. intros I HI.
    inb_destruct HI. cbn [zip_with lookup_total list_lookup_total].
    rewrite Nat.mod_1_r, !Nat.mod_small by done.
    unfold get. rewrite Hi. cbn [ravel numel]. f_equal. lia. }
  match goal with |- ?m ≫= _ = _ => destruct m as [o|e] end; [|done].
  cbn [mbind result_bind]. by destruct (view o _).
Qed.

Lemma xy_accumulate (upd : F → F → F) (xa : ndarray F) (ia : ndarray Z)
    B M N H W :
  (∀ e, inb e [B; M] → (0 ≤ get ia e < Z.of_nat (H * W))%Z) →
  ∃ acc,
    nd_scatter upd 2 (NDArray [B; N; H * W] (replicate (numel [B; N; H * W]) fzero))
      (xy_index ia B M N) (xy_src xa B M N) = Ok acc ∧
    shape acc = [B; N; H * W] ∧ wf acc ∧
    ∀ b n c, b < B → n < N → c < H * W →
      get acc [b; n; c]
      = foldl upd fzero
          (writes_at (xy_address ia H W) (λ e, get xa (e ++ [n]))
             (b * (H * W) + c) (indices [B; M])).
Proof.
  intros Hrange.
  set (self := NDArray [B; N; H * W] (replicate (numel [B; N; H * W]) fzero)).
  destruct (nd_scatter_ok upd 2 self (xy_index ia B M N) (xy_src xa B M N))
    as (acc & Hacc & Hshape & Hwf & Hget).
  - unfold wf, self. simpl. by rewrite length_replicate.
  - intros _. unfold scatter_shape_ok. cbn [shape self xy_index xy_src tab length].
    repeat split; [lia| |by repeat constructor].
    repeat constructor; cbn [lookup_total list_lookup_total]; lia.
  - intros I HI. cbn [xy_index tab shape] in HI. inb_destruct HI.
    unfold index_ok, xy_index. rewrite get_tab by inb_solve.
    cbn [self shape lookup_total list_lookup_total].
    assert (Hr : (0 ≤ get ia [i; i1] < Z.of_nat (H * W))%Z)
      by (apply Hrange; inb_solve).
    split; [done|]. cbn [list_insert insert]. inb_solve.
  - exists acc. split; [done|]. split; [done|]. split; [done|].
    intros b n c Hb Hn Hc. rewrite Hget by inb_solve.
    unfold self at 1. rewrite get_zeros_like by inb_solve.
    f_equal. cbn [xy_index tab shape].
    rewrite (omap_indices_block _ _ _ b); [|done|]; last first.
    { intros i I _ _ Hi. unfold write_to. rewrite decide_False; [done|].
      destruct I as [|? [|? ?]]; cbn [list_insert insert]; congruence. }
    rewrite (omap_indices_block _ _ _ n); [|done|]; last first.
    { intros i I _ _ Hi. unfold write_to. rewrite decide_False; [done|].
      destruct I as [|? ?]; cbn [list_insert insert]; congruence. }
    unfold writes_at.
    rewrite (omap_indices_block _ B [M] b); [|done|]; last first.
    { intros i I Hi HI Hne. inb_destruct HI. rewrite decide_False; [done|].
      assert (Hr : (0 ≤ get ia [i; i0] < Z.of_nat (H * W))%Z)
        by (apply Hrange; inb_solve).
      unfold xy_address. cbn [lookup_total list_lookup_total]. nia. }
    apply omap_ext_in. intros I HI%elem_of_indices. inb_destruct HI.
    assert (Hr : (0 ≤ get ia [b; i] < Z.of_nat (H * W))%Z)
      by (apply Hrange; inb_solve).
    unfold write_to, xy_index, xy_src, xy_address.
    rewrite !get_tab by inb_solve.
    cbn [lookup_total list_lookup_total list_insert insert app].
    destruct (decide (get ia [b; i] = Z.of_nat c)) as [Heq|Hne].
    + rewrite Heq, Nat2Z.id. rewrite !decide_True by (done || lia). done.
    + rewrite !decide_False; [done|lia|]. intros [= E]. apply Hne. lia.
Qed.

Lemma xy_ok self (xa : ndarray F) (ia : ndarray Z) coord_x coord_y B M N H W :
  shape xa = [B; M; N] → shape ia = [B; M] →
  (cx ← mul coord_x (Z.of_nat W); s ← add cx coord_y; mret (long s))
    = Ok (TLong ia) →
  (∀ e, inb e [B; M] → (0 ≤ get ia e < Z.of_nat (H * W))%Z) →
  ∃ o, xy_forward self (TFloat xa) (H, W) coord_x coord_y = Ok (TFloat o) ∧
       shape o = [B; N; H; W] ∧ wf o ∧
       ∀ b n h w, b < B → n < N → h < H → w < W →
         get o [b; n; h; w]
         = foldl (policy_upd self) fzero
             (writes_at (xy_address ia H W) (λ e, get xa (e ++ [n]))
                (b * (H * W) + h * W + w) (indices [B; M])).
Proof.
  intros Hx Hi Hidx Hrange. rewrite (xy_unfold _ _ ia _ _ B M N) by done.
  destruct (policy_scatter self 2 [B; N; H * W] (xy_index ia B M N)
              (xy_src xa B M N)
              (λ upd acc, shape acc = [B; N; H * W] ∧ wf acc ∧
                 ∀ b n c, b < B → n < N → c < H * W →
                   get acc [b; n; c]
                   = foldl upd fzero
                       (writes_at (xy_address ia H W) (λ e, get xa (e ++ [n]))
                          (b * (H * W) + c) (indices [B; M]))))
    as (acc & -> & Hshape & Hwf & Hget).
  - simpl; lia.
  - intros upd. by apply xy_accumulate.
  - split; [done|]. split; [unfold wf; simpl; by rewrite length_replicate|].
    intros b n c Hb Hn Hc. rewrite get_zeros_like by inb_solve.
    by rewrite foldl_keep.
  - cbn [mbind result_bind].
    rewrite view_float_exact by (rewrite Hshape; simpl; lia).
    eexists. split; [done|]. split; [done|].
    split; [unfold wf in *; cbn [shape data]; rewrite Hwf, Hshape; simpl; lia|].
    intros b n h w Hb Hn Hh Hw.
    assert (h * W + w < H * W) by nia.
    rewrite <-Nat.add_assoc, <-Hget by done.
    unfold get. rewrite Hshape. cbn [shape data ravel numel]. f_equal. lia.
Qed.
End xy_spec.

(** ** Coordinates and addresses *)

Lemma wrap64_id z : int64_range z → wrap64 z = z.
Proof.
  unfold int64_range, wrap64. intros Hz.
  rewrite Z.mod_small by lia. lia.
Qed.

Lemma cell_inj H W b h w b' h' w' :
  h < H → w < W → h' < H → w' < W →
  b * (H * W) + h * W + w = b' * (H * W) + h' * W + w' →
  b = b' ∧ h = h' ∧ w = w'.
Proof.
  intros Hh Hw Hh' Hw' E.
  assert (E' : [b; h; w] = [b'; h'; w']); [|by simplify_eq].
  apply (ravel_inj [S (Nat.max b b'); H; W]); [inb_solve..|].
  cbn [ravel numel]. lia.
Qed.

Section coords.
Context {F : Type} `{!FloatOps F}.

Lemma fwd_address_in_range (la : ndarray Z) B M H W b m :
  sizes_fit B H W → locations_in_range la B M H W → b < B → m < M →
  fwd_address la H W [b; m]
  = (Z.of_nat (b * (H * W)) + loc_row la b m * Z.of_nat W + loc_col la b m)%Z.
Proof.
  intros (HW & HHW & HBHW) Hloc Hb Hm. destruct (Hloc b m Hb Hm) as [Hr Hc].
  unfold fwd_address. cbn [app lookup_total list_lookup_total].
  fold (loc_row la b m) (loc_col la b m).
  unfold int64_range in *.
  assert (Hcell : (loc_row la b m * Z.of_nat W + loc_col la b m
                   < Z.of_nat (H * W))%Z) by nia.
  assert (Hb' : (Z.of_nat b * Z.of_nat (H * W) + Z.of_nat (H * W)
                 ≤ Z.of_nat (B * H * W))%Z) by nia.
  rewrite (wrap64_id (_ * Z.of_nat W)) by (unfold int64_range; nia).
  rewrite (wrap64_id (_ * Z.of_nat W + _)) by (unfold int64_range; nia).
  rewrite (wrap64_id (Z.of_nat b * _)) by (unfold int64_range; nia).
  rewrite wrap64_id by (unfold int64_range; nia). lia.
Qed.

Lemma xy_indices_long (ca cb : ndarray Z) B M W :
  shape ca = [B; M] → shape cb = [B; M] → wf ca → int64_range (Z.of_nat W) →
  (cx ← mul (F:=F) (TLong ca) (Z.of_nat W); s ← add cx (TLong cb); mret (long s))
  = Ok (TLong (tab [B; M] (xy_long_index ca cb W))).
Proof.
  intros Ha Hb Hwf HW. unfold mul. rewrite decide_True by done.
  cbn [mbind result_bind add]. unfold nd_zip_with. cbn [shape nd_map].
  rewrite Ha, Hb, broadcast_shapes_same.
  cbn [fmap result_fmap mbind result_bind mret result_ret long].
  do 2 f_equal. apply tab_ext. intros I HI. unfold xy_long_index.
  rewrite !bget_shape by done. by rewrite get_nd_map by (by rewrite ?Ha).
Qed.


Lemma xy_long_index_in_range (ca cb : ndarray Z) B M H W b m :
  sizes_fit B H W → coords_in_range ca cb B M H W → b < B → m < M →
  xy_long_index ca cb W [b; m] = (get ca [b; m] * Z.of_nat W + get cb [b; m])%Z ∧
  (0 ≤ xy_long_index ca cb W [b; m] < Z.of_nat (H * W))%Z.
Proof.
  intros (HW & HHW & HBHW) Hco Hb Hm. destruct (Hco b m Hb Hm) as [Hr Hc].
  unfold xy_long_index, int64_range in *.
  assert (Hcell : (get ca [b; m] * Z.of_nat W + get cb [b; m]
                   < Z.of_nat (H * W))%Z) by nia.
  rewrite (wrap64_id (_ * Z.of_nat W)) by (unfold int64_range; nia).
  rewrite wrap64_id by (unfold int64_range; nia). lia.
Qed.
End coords.

(** ** The shape of every output

    Whatever the locations are, an output that one of the entry points
    returns has the shape (B, N, H, W): the last [reshape] and [view] decide
    it. *)

Lemma infer_size_of_nat (s s' : list nat) n :
  infer_size (Z.of_nat <$> s) n = Ok s' → s' = s.
Proof.
  unfold infer_size. case_decide; [done|].
  assert (Hf : filter (λ z, z ≠ (-1)%Z) (Z.of_nat <$> s) = Z.of_nat <$> s).
  { clear. induction s as [|d s IH]; [done|]. rewrite fmap_cons.
    rewrite filter_cons_True by lia. by rewrite IH. }
  assert (Hs : Z.to_nat <$> (Z.of_nat <$> s) = s).
  { rewrite <-list_fmap_compose. rewrite <-(list_fmap_id s) at 2.
    apply list_fmap_ext. intros ???. simpl. lia. }
  cbv zeta. rewrite Hf, Nat.sub_diag, Hs. case_decide; [|done]. by intros [= <-].
Qed.

Section result_shape.
Context {F : Type} `{!FloatOps F}.

Lemma view_size (t t' : tensor F) (s : list nat) :
  view t (Z.of_nat <$> s) = Ok t' → size t' = s.
Proof.
  destruct t as [a|a]; cbn [view lift]; intros (l & Hl & ->)%fmap_Ok;
    apply bind_Ok in Hl as (s' & Hs & [= <-]); cbn [size shape];
    by eapply infer_size_of_nat.
Qed.

Lemma permute_size (t t' : tensor F) (dims : list nat) :
  permute t dims = Ok t' → size t' = (λ d, size t !!! d) <$> dims.
Proof.
  destruct t as [a|a]; cbn [permute lift]; intros (l & Hl & ->)%fmap_Ok;
    unfold nd_permute in Hl; case_decide; try done; by injection Hl as <-.
Qed.

Lemma forward_result_shape self (tx tl t : tensor F) B M N H W :
  size tx = [B; M; N] → forward self tx (H, W) tl = Ok t →
  size t = [B; N; H; W].
Proof.
  intros Hx Hf. unfold forward, hpc_wrapper in Hf. rewrite Hx in Hf.
  cbn [unpack3] in Hf.
  apply bind_Ok in Hf as (? & [= <-] & Hf).
  do 6 apply bind_Ok in Hf as (? & _ & Hf). cbv zeta in Hf.
  apply bind_Ok in Hf as (tout1 & _ & Hf).
  apply bind_Ok in Hf as (tout2 & Htout2 & Hf).
  apply bind_Ok in Hf as (tout3 & Htout3 & Hf).
  injection Hf as <-. unfold contiguous.
  apply view_size in Htout2. apply permute_size in Htout3.
  by rewrite Htout3, Htout2.
Qed.

Lemma xy_forward_result_shape self (tx tcx tcy t : tensor F) B M N H W :
  size tx = [B; M; N] → xy_forward self tx (H, W) tcx tcy = Ok t →
  size t = [B; N; H; W].
Proof.
  intros Hx Hf. unfold xy_forward, hpc_wrapper in Hf. rewrite Hx in Hf.
  cbn [unpack3] in Hf.
  apply bind_Ok in Hf as (? & [= <-] & Hf).
  do 5 apply bind_Ok in Hf as (? & _ & Hf).
  apply bind_Ok in Hf as (tout2 & Htout2 & Hf).
  injection Hf as <-. by apply view_size in Htout2.
Qed.
End result_shape.

(** ** The writes that reach one address *)


Section writes.
Context {A : Type} (addr : list nat → Z) (val : list nat → A) (a : nat).

Lemma writes_at_app l1 l2 :
  writes_at addr val a (l1 ++ l2)
  = writes_at addr val a l1 ++ writes_at addr val a l2.
Proof. apply omap_app. Qed.

Lemma writes_at_hit e l :
  addr e = Z.of_nat a →
  writes_at addr val a (e :: l) = val e :: writes_at addr val a l.
Proof. intros He. unfold writes_at. cbn [omap list_omap]. by rewrite decide_True. Qed.

Lemma writes_at_miss e l :
  addr e ≠ Z.of_nat a →
  writes_at addr val a (e :: l) = writes_at addr val a l.
Proof. intros He. unfold writes_at. cbn [omap list_omap]. by rewrite decide_False. Qed.

Lemma writes_at_none l :
  (∀ e, e ∈ l → addr e ≠ Z.of_nat a) → writes_at addr val a l = [].
Proof.
  induction l as [|e l IH]; intros Hl; [done|].
  rewrite writes_at_miss by (apply Hl; left). apply IH.
  intros e' He'. apply Hl. by right.
Qed.

(** Under Overwrite the last entity addressed to [a] decides the cell. *)
Lemma writes_at_last z pre e post :
  addr e = Z.of_nat a → (∀ e', e' ∈ post → addr e' ≠ Z.of_nat a) →
  foldl (λ _ v, v) z (writes_at addr val a (pre ++ e :: post)) = val e.
Proof.
  intros He Hpost.
  rewrite writes_at_app, writes_at_hit, (writes_at_none post) by done.
  by rewrite foldl_app.
Qed.

End writes.

(** Two runs whose entities addressed to [a] coincide write the same
    values to [a]. *)
Lemma writes_at_ext {A} (addr addr' : list nat → Z) (val val' : list nat → A)
    a l :
  (∀ e, e ∈ l →
     (addr e = Z.of_nat a ↔ addr' e = Z.of_nat a) ∧
     (addr e = Z.of_nat a → val e = val' e)) →
  writes_at addr val a l = writes_at addr' val' a l.
Proof.
  intros Hl. unfold writes_at. apply omap_ext_in. intros e He.
  destruct (Hl e He) as [Hiff Hval].
  destruct (decide (addr e = Z.of_nat a)) as [Heq|Hne].
  - rewrite decide_True by (by apply Hiff). by rewrite Hval.
  - rewrite decide_False; [done|]. intros E. by apply Hne, Hiff.
Qed.

(** * The properties of the two entry points *)

Section entry_points.
Context {F : Type} `{!FloatOps F}.

(** In-range locations are accepted, and target the cell they name. *)
Lemma in_range_accepted (la : ndarray Z) B M H W :
  sizes_fit B H W → locations_in_range la B M H W → fwd_accepted la B M H W.
Proof.
  intros Hfit Hloc e He. inb_destruct He.
  rewrite (fwd_address_in_range la B M H W) by done.
  destruct (Hloc i i0 Hi Hi0) as [Hr Hc].
  pose proof (cell_lt B H W i (Z.to_nat (loc_row la i i0))
                (Z.to_nat (loc_col la i i0))) as Hlt.
  lia.
Qed.

Lemma in_range_targets (la : ndarray Z) B M H W b1 m b h w :
  sizes_fit B H W → locations_in_range la B M H W →
  b1 < B → m < M → h < H → w < W →
  fwd_targets la H W b1 m b h w
  ↔ b1 = b ∧ loc_row la b1 m = Z.of_nat h ∧ loc_col la b1 m = Z.of_nat w.
Proof.
  intros Hfit Hloc Hb1 Hm Hh Hw. unfold fwd_targets.
  rewrite (fwd_address_in_range la B M H W) by done.
  destruct (Hloc b1 m Hb1 Hm) as [Hr Hc]. split.
  - intros E.
    destruct (cell_inj H W b1 (Z.to_nat (loc_row la b1 m))
                (Z.to_nat (loc_col la b1 m)) b h w) as (? & ? & ?); lia.
  - intros (-> & -> & ->). lia.
Qed.

Lemma in_range_xy_accepted (ca cb : ndarray Z) B M H W :
  sizes_fit B H W → coords_in_range ca cb B M H W → xy_accepted ca cb B M H W.
Proof.
  intros Hfit Hco e He. inb_destruct He.
  by apply (xy_long_index_in_range ca cb B M H W).
Qed.

Lemma in_range_xy_targets (ca cb : ndarray Z) B M H W b1 m b h w :
  sizes_fit B H W → coords_in_range ca cb B M H W →
  b1 < B → m < M → h < H → w < W →
  xy_targets ca cb W b1 m b h w
  ↔ b1 = b ∧ get ca [b1; m] = Z.of_nat h ∧ get cb [b1; m] = Z.of_nat w.
Proof.
  intros Hfit Hco Hb1 Hm Hh Hw. unfold xy_targets.
  destruct (xy_long_index_in_range ca cb B M H W b1 m) as [-> _]; [done..|].
  destruct (Hco b1 m Hb1 Hm) as [Hr Hc]. split.
  - intros [-> E]. split; [done|].
    destruct (cell_inj H W 0 (Z.to_nat (get ca [b; m]))
                (Z.to_nat (get cb [b; m])) 0 h w) as (? & ? & ?); lia.
  - intros (-> & -> & ->). split; [done|lia].
Qed.

(** Both entry points, on a call the scatter accepts: the cell folds the
    values addressed to it. *)
Lemma forward_cells self (xa : ndarray F) (la : ndarray Z) B M N H W :
  shape xa = [B; M; N] → shape la = [B; M; 2] → 0 < N →
  int64_range (Z.of_nat W) → int64_range (Z.of_nat (H * W)) →
  fwd_accepted la B M H W →
  ∃ o, forward self (TFloat xa) (H, W) (TLong la) = Ok (TFloat o) ∧
       shape o = [B; N; H; W] ∧ wf o ∧
       ∀ b n h w, b < B → n < N → h < H → w < W →
         get o [b; n; h; w]
         = foldl (policy_upd self) fzero
             (writes_at (fwd_address la H W) (λ e, get xa (e ++ [n]))
                (b * (H * W) + h * W + w) (indices [B; M])).
Proof. intros. by apply forward_ok. Qed.

Lemma xy_forward_cells self (xa : ndarray F) (ca cb : ndarray Z) B M N H W :
  shape xa = [B; M; N] → shape ca = [B; M] → shape cb = [B; M] → wf ca →
  int64_range (Z.of_nat W) →
  xy_accepted ca cb B M H W →
  ∃ o, xy_forward self (TFloat xa) (H, W) (TLong ca) (TLong cb) = Ok (TFloat o) ∧
       shape o = [B; N; H; W] ∧ wf o ∧
       ∀ b n h w, b < B → n < N → h < H → w < W →
         get o [b; n; h; w]
         = foldl (policy_upd self) fzero
             (writes_at (xy_address (tab [B; M] (xy_long_index ca cb W)) H W)
                (λ e, get xa (e ++ [n]))
                (b * (H * W) + h * W + w) (indices [B; M])).
Proof.
  intros Hx Ha Hb Hwf HW Hacc.
  apply (xy_ok self xa (tab [B; M] (xy_long_index ca cb W))); [done..| |].
  - by apply xy_indices_long.
  - intros e He. rewrite get_tab by done. by apply Hacc.
Qed.



(** The address [xy_forward] writes for an entity, as a target. *)
Lemma xy_address_targets (ca cb : ndarray Z) B M H W b1 m b h w :
  xy_accepted ca cb B M H W → b1 < B → m < M → h < H → w < W →
  xy_address (tab [B; M] (xy_long_index ca cb W)) H W [b1; m]
    = Z.of_nat (b * (H * W) + h * W + w)
  ↔ xy_targets ca cb W b1 m b h w.
Proof.
  intros Hacc Hb1 Hm Hh Hw. unfold xy_address, xy_targets.
  rewrite get_tab by inb_solve. cbn [lookup_total list_lookup_total].
  assert (Hr : (0 ≤ xy_long_index ca cb W [b1; m] < Z.of_nat (H * W))%Z)
    by (apply Hacc; inb_solve).
  assert (h * W + w < H * W) by nia.
  split.
  - intros E. assert (b1 = b) as -> by nia. split; [done|lia].
  - intros [-> E]. lia.
Qed.

(** The address of an in-range entity equals that of an in-range cell
    exactly when the entity sits in that batch element at that cell. *)
Lemma fwd_hit_iff (la : ndarray Z) B M H W e b h w :
  sizes_fit B H W → locations_in_range la B M H W →
  inb e [B; M] → h < H → w < W →
  fwd_address la H W e = Z.of_nat (b * (H * W) + h * W + w)
  ↔ ∃ m, e = [b; m] ∧ m < M ∧
         loc_row la b m = Z.of_nat h ∧ loc_col la b m = Z.of_nat w.
Proof.
  intros Hfit Hloc He Hh Hw. inb_destruct He.
  pose proof (in_range_targets la B M H W i i0 b h w Hfit Hloc Hi Hi0 Hh Hw) as Ht.
  unfold fwd_targets in Ht. rewrite Ht. split.
  - intros (-> & ? & ?). eauto.
  - intros (m & [= -> ->] & ? & ? & ?). done.
Qed.

Lemma xy_hit_iff (ca cb : ndarray Z) B M H W e b h w :
  sizes_fit B H W → coords_in_range ca cb B M H W →
  inb e [B; M] → h < H → w < W →
  xy_address (tab [B; M] (xy_long_index ca cb W)) H W e
    = Z.of_nat (b * (H * W) + h * W + w)
  ↔ ∃ m, e = [b; m] ∧ m < M ∧
         get ca [b; m] = Z.of_nat h ∧ get cb [b; m] = Z.of_nat w.
Proof.
  intros Hfit Hco He Hh Hw. inb_destruct He.
  rewrite (xy_address_targets ca cb B M H W)
    by (done || by apply in_range_xy_accepted).
  rewrite (in_range_xy_targets ca cb B M H W) by done. split.
  - intros (-> & ? & ?). eauto.
  - intros (m & [= -> ->] & ? & ? & ?). done.
Qed.

Lemma policy_upd_cover self :
  scatter_type self = "cover"%string → policy_upd self = λ _ v, v.
Proof. intros Hs. unfold policy_upd. by rewrite decide_True. Qed.

Lemma policy_upd_add self :
  scatter_type self = "add"%string → policy_upd self = fadd.
Proof.
  intros Hs. unfold policy_upd. rewrite decide_False, decide_True; [done..|].
  by rewrite Hs.
Qed.

End entry_points.

(** Zero fill on every accepted call, in range or not: a cell that no
    entity targets is zero. *)
Lemma zero_fill_accepted {F : Type} `{!FloatOps F} self (xa : ndarray F)
    (la ca cb : ndarray Z) B M N H W b n h w :
  shape xa = [B; M; N] →
  int64_range (Z.of_nat W) → int64_range (Z.of_nat (H * W)) →
  b < B → n < N → h < H → w < W →
  (shape la = [B; M; 2] → fwd_accepted la B M H W →
   (∀ b1 m, b1 < B → m < M → ¬ fwd_targets la H W b1 m b h w) →
   ∃ o, forward self (TFloat xa) (H, W) (TLong la) = Ok (TFloat o) ∧
        get o [b; n; h; w] = fzero) ∧
  (shape ca = [B; M] → shape cb = [B; M] → wf ca → xy_accepted ca cb B M H W →
   (∀ b1 m, b1 < B → m < M → ¬ xy_targets ca cb W b1 m b h w) →
   ∃ o, xy_forward self (TFloat xa) (H, W) (TLong ca) (TLong cb) = Ok (TFloat o) ∧
        get o [b; n; h; w] = fzero).
Proof.
  intros Hx HW HHW Hb Hn Hh Hw. split.
  - intros Hl Hacc Hfree.
    destruct (forward_cells self xa la B M N H W) as (o & Ho & _ & _ & Hget);
      [done || lia ..|].
    exists o. split; [done|]. rewrite Hget by done.
    rewrite writes_at_none; [done|].
    intros e He%elem_of_indices. inb_destruct He. by apply Hfree.
  - intros Ha Hcb Hwf Hacc Hfree.
    destruct (xy_forward_cells self xa ca cb B M N H W) as (o & Ho & _ & _ & Hget);
      [done..|].
    exists o. split; [done|]. rewrite Hget by done.
    rewrite writes_at_none; [done|].
    intros e He%elem_of_indices. inb_destruct He.
    rewrite (xy_address_targets ca cb B M H W) by done. by apply Hfree.
Qed.

(** C7 (zero fill).  Under any collision policy and for in-range
    coordinates, a cell [(b, h, w)] that is the location of no entity of
    batch element [b] is zero in every channel [n] of the output, for
    [forward] and for [xy_forward]. *)
Theorem zero_fill {F : Type} `{!FloatOps F} self (xa : ndarray F)
    (la ca cb : ndarray Z) B M N H W b n h w :
  shape xa = [B; M; N] → sizes_fit B H W →
  b < B → n < N → h < H → w < W →
  (shape la = [B; M; 2] → locations_in_range la B M H W →
   (∀ m, m < M → ¬ (loc_row la b m = Z.of_nat h ∧ loc_col la b m = Z.of_nat w)) →
   ∃ o, forward self (TFloat xa) (H, W) (TLong la) = Ok (TFloat o) ∧
        get o [b; n; h; w] = fzero) ∧
  (shape ca = [B; M] → shape cb = [B; M] → wf ca →
   coords_in_range ca cb B M H W →
   (∀ m, m < M → ¬ (get ca [b; m] = Z.of_nat h ∧ get cb [b; m] = Z.of_nat w)) →
   ∃ o, xy_forward self (TFloat xa) (H, W) (TLong ca) (TLong cb) = Ok (TFloat o) ∧
        get o [b; n; h; w] = fzero).
Proof.
  intros Hx Hfit Hb Hn Hh Hw. pose proof Hfit as (HW & HHW & _). split.
  - intros Hl Hloc Hfree.
    destruct (forward_cells self xa la B M N H W) as (o & Ho & _ & _ & Hget);
      [done || lia || by apply in_range_accepted ..|].
    exists o. split; [done|]. rewrite Hget by done.
    rewrite writes_at_none; [done|].
    intros e He%elem_of_indices [m (-> & Hm & Hr & Hc)]%(fwd_hit_iff la B M); [|done..].
    by apply (Hfree m).
  - intros Ha Hcb Hwf Hco Hfree.
    destruct (xy_forward_cells self xa ca cb B M N H W) as (o & Ho & _ & _ & Hget);
      [done || by apply in_range_xy_accepted ..|].
    exists o. split; [done|]. rewrite Hget by done.
    rewrite writes_at_none; [done|].
    intros e He%elem_of_indices [m (-> & Hm & Hr & Hc)]%(xy_hit_iff ca cb B M); [|done..].
    by apply (Hfree m).
Qed.




(** C4 (no cross-batch bleed).  Two calls on in-range inputs that differ
    only in the features and coordinates of batch element [b] return
    outputs that agree on every cell of every other batch element [b']. *)
Theorem no_cross_batch_bleed {F : Type} `{!FloatOps F} self (xa xa' : ndarray F)
    (la la' ca cb ca' cb' : ndarray Z) B M N H W b b' n h w :
  shape xa = [B; M; N] → shape xa' = [B; M; N] → sizes_fit B H W →
  (∀ b1 m k, b1 ≠ b → b1 < B → m < M → k < N →
     get xa [b1; m; k] = get xa' [b1; m; k]) →
  b' < B → b' ≠ b → n < N → h < H → w < W →
  (shape la = [B; M; 2] → shape la' = [B; M; 2] →
   locations_in_range la B M H W → locations_in_range la' B M H W →
   (∀ b1 m, b1 ≠ b → b1 < B → m < M →
      loc_row la b1 m = loc_row la' b1 m ∧ loc_col la b1 m = loc_col la' b1 m) →
   ∃ o o', forward self (TFloat xa) (H, W) (TLong la) = Ok (TFloat o) ∧
           forward self (TFloat xa') (H, W) (TLong la') = Ok (TFloat o') ∧
           get o [b'; n; h; w] = get o' [b'; n; h; w]) ∧
  (shape ca = [B; M] → shape cb = [B; M] → wf ca →
   shape ca' = [B; M] → shape cb' = [B; M] → wf ca' →
   coords_in_range ca cb B M H W → coords_in_range ca' cb' B M H W →
   (∀ b1 m, b1 ≠ b → b1 < B → m < M →
      get ca [b1; m] = get ca' [b1; m] ∧ get cb [b1; m] = get cb' [b1; m]) →
   ∃ o o', xy_forward self (TFloat xa) (H, W) (TLong ca) (TLong cb) = Ok (TFloat o) ∧
           xy_forward self (TFloat xa') (H, W) (TLong ca') (TLong cb') = Ok (TFloat o') ∧
           get o [b'; n; h; w] = get o' [b'; n; h; w]).
Proof.
  intros Hx Hx' Hfit Hfeat Hb' Hne Hn Hh Hw. pose proof Hfit as (HW & HHW & _).
  split.
  - intros Hl Hl' Hloc Hloc' Hsame.
    destruct (forward_cells self xa la B M N H W) as (o & Ho & _ & _ & Hget);
      [done || lia || by apply in_range_accepted ..|].
    destruct (forward_cells self xa' la' B M N H W) as (o' & Ho' & _ & _ & Hget');
      [done || lia || by apply in_range_accepted ..|].
    exists o, o'. split; [done|]. split; [done|].
    rewrite Hget, Hget' by done. f_equal. apply writes_at_ext.
    intros e He%elem_of_indices.
    rewrite !(fwd_hit_iff _ B M) by done. split.
    + split; intros (m & -> & Hm & Hr & Hc); exists m;
        destruct (Hsame b' m) as [Er Ec]; try done;
        repeat split; congruence.
    + intros (m & -> & Hm & _). cbn [app]. by apply Hfeat.
  - intros Ha Hcb Hwf Ha' Hcb' Hwf' Hco Hco' Hsame.
    destruct (xy_forward_cells self xa ca cb B M N H W) as (o & Ho & _ & _ & Hget);
      [done || by apply in_range_xy_accepted ..|].
    destruct (xy_forward_cells self xa' ca' cb' B M N H W) as (o' & Ho' & _ & _ & Hget');
      [done || by apply in_range_xy_accepted ..|].
    exists o, o'. split; [done|]. split; [done|].
    rewrite Hget, Hget' by done. f_equal. apply writes_at_ext.
    intros e He%elem_of_indices.
    rewrite !(xy_hit_iff _ _ B M) by done. split.
    + split; intros (m & -> & Hm & Hr & Hc); exists m;
        destruct (Hsame b' m) as [Er Ec]; try done;
        repeat split; congruence.
    + intros (m & -> & Hm & _). cbn [app]. by apply Hfeat.
Qed.

(** ** Rejected calls *)

Section rejected.
Context {F : Type} `{!FloatOps F}.

Lemma nd_view_empty_ambiguous {A} (a : ndarray A) :
  nd_view a [(-1)%Z; Z.of_nat 0] = Raise RuntimeError.
Proof. done. Qed.

Lemma policy_cases (p : string) :
  p ∈ ["cover"; "add"]%string ↔ p = "cover"%string ∨ p = "add"%string.
Proof. rewrite !elem_of_cons, elem_of_nil. tauto. Qed.

Lemma scatter_policy_raise self (o i s : tensor F) (k : tensor F → result (tensor F)) :
  scatter_type self ∈ ["cover"; "add"]%string →
  scatter_ o 1 i s = Raise RuntimeError →
  scatter_add_ o 1 i s = Raise RuntimeError →
  (output ← (if decide (scatter_type self = "cover"%string)
             then scatter_ o 1 i s
             else if decide (scatter_type self = "add"%string)
             then scatter_add_ o 1 i s
             else mret o);
   k output) = Raise RuntimeError.
Proof.
  intros Hp Hc Ha. repeat case_decide.
  - by rewrite Hc.
  - by rewrite Ha.
  - apply policy_cases in Hp. tauto.
Qed.


Lemma forward_empty_features self (xa : ndarray F) (la : ndarray Z) B M H W :
  shape xa = [B; M; 0] → shape la = [B; M; 2] →
  forward self (TFloat xa) (H, W) (TLong la) = Raise RuntimeError.
Proof.
  intros Hx Hl. unfold forward, hpc_wrapper.
  cbn [size]. rewrite Hx. cbn [unpack3 mbind result_bind].
  rewrite (view_long_flat2 _ _ 2 (B * M)) by (rewrite ?Hl; simpl; lia).
  cbn [mbind result_bind].
  destruct (decide (int64_range (Z.of_nat (H * W)))) as [HHW|HHW]; last first.
  { unfold mul_, mul.
    rewrite (decide_False (P := int64_range (Z.of_nat (H * W)))) by done.
    reflexivity. }
  rewrite bias_block by done. cbn [mbind result_bind].
  destruct (decide (int64_range (Z.of_nat W))) as [HW|HW]; last first.
  { rewrite (select1_long _ (B * M) 0) by (done || lia).
    cbn [mbind result_bind]. unfold mul.
    rewrite (decide_False (P := int64_range (Z.of_nat W))) by done.
    reflexivity. }
  rewrite (index_block _ (B * M)) by done. cbn [mbind result_bind iadd].
  unfold nd_zip_with_. cbn [shape tab]. rewrite broadcast_shapes_same.
  rewrite (decide_True (P := [B * M] = [B * M])) by done.
  cbn [fmap result_fmap mbind result_bind].
  unfold repeat, lift, nd_repeat. cbn [shape tab length].
  rewrite (decide_True (P := 1 ≤ 2)) by lia.
  cbn [fmap result_fmap mbind result_bind Nat.sub replicate app zip_with].
  unfold view, lift. by rewrite nd_view_empty_ambiguous.
Qed.
End rejected.

(** C1 (axis conventions).  With B = 1, M = 1, H = W = 4, N = 2 and the
    feature vector [1, 2], under either policy: [forward] with the location
    (row 1, column 2) puts the vector at the cell [0, :, 1, 2], [xy_forward]
    with [coord_x] = 2 and [coord_y] = 1 puts it at the cell [0, :, 2, 1],
    and so the two calls, given the same point x = 2, y = 1, return
    different outputs. *)
Theorem axis_convention_divergence :
  let x := TFloat (NDArray [1; 1; 2] [f32_one; f32_two]) in
  ∀ policy, policy ∈ ["cover"; "add"]%string →
    let self := {| scatter_type := policy |} in
    forward self x (4, 4) (TLong (NDArray [1; 1; 2] [1; 2]%Z))
      = Ok (TFloat (one_hot_grid 4 4 1 2 [f32_one; f32_two])) ∧
    xy_forward self x (4, 4) (TLong (NDArray [1; 1] [2%Z]))
                             (TLong (NDArray [1; 1] [1%Z]))
      = Ok (TFloat (one_hot_grid 4 4 2 1 [f32_one; f32_two])) ∧
    forward self x (4, 4) (TLong (NDArray [1; 1; 2] [1; 2]%Z))
      ≠ xy_forward self x (4, 4) (TLong (NDArray [1; 1] [2%Z]))
                                 (TLong (NDArray [1; 1] [1%Z])).
Proof.
  intros x policy [-> | ->]%policy_cases; repeat split; try (vm_compute; reflexivity).
  all: intros E; vm_compute in E; congruence.
Qed.

Lemma axis_convention_divergence_witness :
  forward {| scatter_type := "cover" |}
    (TFloat (NDArray [1; 1; 2] [f32_one; f32_two])) (4, 4)
    (TLong (NDArray [1; 1; 2] [1; 2]%Z))
  = Ok (TFloat (one_hot_grid 4 4 1 2 [f32_one; f32_two])).
Proof.
  apply (axis_convention_divergence "cover"%string).
  apply policy_cases. by left.
Defined.

(** C9 (construction).  [__init__] raises [AssertionError] for every policy
    other than ['cover'] and ['add'], and for these two it returns an
    instance that holds the given policy. *)
Theorem init_validates_policy (policy : string) :
  (policy ∉ ["cover"; "add"]%string → __init__ policy = Raise AssertionError) ∧
  (policy ∈ ["cover"; "add"]%string →
   ∃ self, __init__ policy = Ok self ∧ scatter_type self = policy).
Proof.
  unfold __init__. split; intros Hp.
  - by rewrite decide_False.
  - rewrite decide_True by done. by eexists.
Qed.

Lemma init_validates_policy_witness :
  __init__ "max" = Raise AssertionError ∧
  ∃ self, __init__ "add" = Ok self ∧ scatter_type self = "add"%string.
Proof.
  split.
  - apply (init_validates_policy "max"). rewrite policy_cases. intros [?|?]; discriminate.
  - apply (init_validates_policy "add"). rewrite policy_cases. by right.
Defined.

(** C6 (output shape).  For features of shape (B, M, N) and the spatial
    size (H, W): on in-range locations of shape (B, M, 2), and with at
    least one channel, [forward] returns an output of shape (B, N, H, W),
    and on in-range coordinates of shape (B, M) so does [xy_forward];
    moreover every output that one of them returns, whatever the locations,
    has this shape. *)
Theorem output_shape {F : Type} `{!FloatOps F} self (xa : ndarray F)
    (la ca cb : ndarray Z) B M N H W :
  shape xa = [B; M; N] → sizes_fit B H W →
  ((0 < N → shape la = [B; M; 2] → locations_in_range la B M H W →
    ∃ o, forward self (TFloat xa) (H, W) (TLong la) = Ok o ∧
         size o = [B; N; H; W]) ∧
   (∀ location o, forward self (TFloat xa) (H, W) location = Ok o →
                  size o = [B; N; H; W])) ∧
  ((shape ca = [B; M] → shape cb = [B; M] → wf ca →
    coords_in_range ca cb B M H W →
    ∃ o, xy_forward self (TFloat xa) (H, W) (TLong ca) (TLong cb) = Ok o ∧
         size o = [B; N; H; W]) ∧
   (∀ coord_x coord_y o,
      xy_forward self (TFloat xa) (H, W) coord_x coord_y = Ok o →
      size o = [B; N; H; W])).
Proof.
  intros Hx Hfit. pose proof Hfit as (HW & HHW & _). split; split.
  - intros HN Hl Hloc.
    destruct (forward_cells self xa la B M N H W) as (o & Ho & Hs & _);
      [done || by apply in_range_accepted ..|].
    by exists (TFloat o).
  - intros location o. by apply (forward_result_shape _ _ _ _ B M N).
  - intros Ha Hb Hwf Hco.
    destruct (xy_forward_cells self xa ca cb B M N H W) as (o & Ho & Hs & _);
      [done || by apply in_range_xy_accepted ..|].
    by exists (TFloat o).
  - intros coord_x coord_y o. by apply (xy_forward_result_shape _ _ _ _ _ B M N).
Qed.

(** Features without channels: for the input of shape (1, 1, 0) on a 4 x 4
    grid, with the in-range location (1, 2), [x.view(-1, 0)] raises
    [RuntimeError] in [forward], where [xy_forward] returns the output of
    shape (1, 0, 4, 4). *)
Example forward_zero_channels :
  let x := TFloat (F:=float32) (NDArray [1; 1; 0] []) in
  let self := {| scatter_type := "cover" |} in
  forward self x (4, 4) (TLong (NDArray [1; 1; 2] [1; 2]%Z)) = Raise RuntimeError ∧
  xy_forward self x (4, 4) (TLong (NDArray [1; 1] [1%Z])) (TLong (NDArray [1; 1] [2%Z]))
    = Ok (TFloat (NDArray [1; 0; 4; 4] [])).
Proof. split; vm_compute; reflexivity. Qed.

(** C5, as the claim states it, fails: features of batch size 2 with 3
    entities and locations of batch size 3 with 2 entities are accepted. *)
Lemma shape_mismatch_accepted :
  ∃ o, forward {| scatter_type := "cover" |}
         (TFloat (NDArray [2; 3; 1] (replicate 6 f32_one))) (2, 2)
         (TLong (NDArray [3; 2; 2] [0; 0; 0; 1; 1; 0; 1; 1; 0; 0; 0; 1]%Z))
       = Ok o.
Proof. eexists. vm_compute. reflexivity. Qed.

(** C5 (shape mismatch), amended.  [forward] has no check of its own: when
    the locations hold another number of entities, B' * M', than the
    features, B * M, and hold at least one, the tensor library raises
    [RuntimeError], from the broadcast of [index += bias] or from the shape
    test of the scatter, before any cell is written, and no output is
    returned. *)
Theorem forward_rejects_entity_count_mismatch {F : Type} `{!FloatOps F} self
    (xa : ndarray F) (la : ndarray Z) B M N B' M' H W :
  scatter_type self ∈ ["cover"; "add"]%string →
  shape xa = [B; M; N] → shape la = [B'; M'; 2] →
  B' * M' ≠ B * M → B' * M' ≠ 0 →
  forward self (TFloat xa) (H, W) (TLong la) = Raise RuntimeError.
Proof.
  intros Hp Hx Hl Hne Hnz. unfold forward, hpc_wrapper.
  cbn [size]. rewrite Hx. cbn [unpack3 mbind result_bind].
  rewrite (view_long_flat2 _ _ 2 (B' * M')) by (rewrite ?Hl; simpl; lia).
  cbn [mbind result_bind].
  destruct (decide (int64_range (Z.of_nat (H * W)))) as [HHW|HHW]; last first.
  { unfold mul_, mul.
    rewrite (decide_False (P := int64_range (Z.of_nat (H * W)))) by done.
    reflexivity. }
  rewrite bias_block by done. cbn [mbind result_bind].
  destruct (decide (int64_range (Z.of_nat W))) as [HW|HW]; last first.
  { rewrite (select1_long _ (B' * M') 0) by (done || lia).
    cbn [mbind result_bind]. unfold mul.
    rewrite (decide_False (P := int64_range (Z.of_nat W))) by done.
    reflexivity. }
  rewrite (index_block _ (B' * M')) by done. cbn [mbind result_bind iadd].
  unfold nd_zip_with_, broadcast_shapes. cbn [shape tab reverse rev_append].
  cbn [broadcast_rev]. cbn [mbind option_bind].
  rewrite (decide_False (P := B' * M' = B * M)) by done.
  destruct (decide (B' * M' = 1)) as [HK'|HK'].
  { cbn [fmap option_fmap option_map reverse rev_append].
    rewrite decide_False by congruence. reflexivity. }
  destruct (decide (B * M = 1)) as [HK|HK]; [|reflexivity].
  cbn [fmap option_fmap option_map reverse rev_append].
  rewrite (decide_True (P := [B' * M'] = [B' * M'])) by done.
  cbn [fmap result_fmap mbind result_bind].
  unfold repeat, lift, nd_repeat. cbn [shape tab length].
  rewrite (decide_True (P := 1 ≤ 2)) by lia.
  cbn [fmap result_fmap mbind result_bind Nat.sub replicate app zip_with].
  destruct (decide (N = 0)) as [->|HN].
  { unfold view, lift. by rewrite nd_view_empty_ambiguous. }
  rewrite (view_float_flat2 _ _ N (B * M)) by (rewrite ?Hx; simpl; lia).
  cbn [mbind result_bind].
  rewrite (permute_float_10 _ (B * M) N) by done. cbn [mbind result_bind].
  apply scatter_policy_raise; [done|..].
  all: unfold scatter_, scatter_add_, scatter_with, zeros; cbn [size shape length].
  all: rewrite (decide_True (P := 1 < 2)) by lia; cbn [mbind result_bind].
  all: unfold nd_scatter; cbn [shape tab].
  all: rewrite decide_False by (simpl; nia).
  all: rewrite decide_False; [done|].
  all: unfold scatter_shape_ok; intros (_ & _ & _ & _ & Hle).
  all: inversion Hle as [|? ? ? ? _ Hle']; subst.
  all: inversion Hle' as [|? ? ? ? Hk _]; subst; lia.
Qed.

Lemma forward_rejects_entity_count_mismatch_witness :
  forward {| scatter_type := "cover" |}
    (TFloat (NDArray [1; 2; 1] [f32_one; f32_two])) (2, 2)
    (TLong (NDArray [1; 1; 2] [0; 0]%Z))
  = Raise RuntimeError.
Proof.
  apply (forward_rejects_entity_count_mismatch _ _ _ 1 2 1 1 1);
    [apply policy_cases; by left | reflexivity | reflexivity | lia | lia].
Defined.

(** On non-negative binary32 numbers the cast to int64 is the floor. *)
Lemma f32_to_long_floor (m p : positive) :
  (Zpos m / 2 ^ Zpos p < 2 ^ 63)%Z →
  f32_to_long (S754_finite false m (Zneg p)) = (Zpos m / 2 ^ Zpos p)%Z.
Proof.
  intros Hlt. unfold f32_to_long.
  rewrite Z.quot_div_nonneg by lia. by rewrite decide_True.
Qed.




(** ** The properties at the small scene *)

Lemma scene_sizes_fit : sizes_fit 2 2 2.
Proof. unfold sizes_fit, int64_range. simpl. lia. Defined.

Lemma scene_locations_in_range : locations_in_range scene_locations 2 2 2 2.
Proof.
  intros b m Hb Hm. below b; below m; vm_compute; repeat split; congruence.
Defined.

Lemma scene_coords_in_range :
  coords_in_range scene_coord_x scene_coord_y 2 2 2 2.
Proof.
  intros b m Hb Hm. below b; below m; vm_compute; repeat split; congruence.
Defined.

Lemma zero_fill_witness :
  (∃ o, forward {| scatter_type := "add" |}
          (TFloat scene_features) (2, 2) (TLong scene_locations) = Ok (TFloat o) ∧
        get o [0; 0; 1; 0] = Q_of 0) ∧
  (∃ o, xy_forward {| scatter_type := "add" |}
          (TFloat scene_features) (2, 2)
          (TLong scene_coord_x) (TLong scene_coord_y) = Ok (TFloat o) ∧
        get o [0; 0; 1; 0] = Q_of 0).
Proof.
  destruct (zero_fill {| scatter_type := "add" |}
              scene_features scene_locations scene_coord_x scene_coord_y
              2 2 1 2 2 0 0 1 0) as [Hf Hxy];
    [reflexivity | apply scene_sizes_fit | lia..|].
  split.
  - apply Hf; [reflexivity | apply scene_locations_in_range|].
    intros m Hm. below m; vm_compute; intros [? ?]; congruence.
  - apply Hxy; [reflexivity | reflexivity | reflexivity | apply scene_coords_in_range|].
    intros m Hm. below m; vm_compute; intros [? ?]; congruence.
Defined.

Lemma output_shape_witness :
  (∃ o, forward {| scatter_type := "cover" |}
          (TFloat scene_features) (2, 2) (TLong scene_locations) = Ok o ∧
        size o = [2; 1; 2; 2]) ∧
  (∃ o, xy_forward {| scatter_type := "cover" |}
          (TFloat scene_features) (2, 2)
          (TLong scene_coord_x) (TLong scene_coord_y) = Ok o ∧
        size o = [2; 1; 2; 2]).
Proof.
  destruct (output_shape {| scatter_type := "cover" |}
              scene_features scene_locations scene_coord_x scene_coord_y
              2 2 1 2 2) as [[Hf _] [Hxy _]];
    [reflexivity | apply scene_sizes_fit|].
  split.
  - apply Hf; [lia | reflexivity | apply scene_locations_in_range].
  - apply Hxy; [reflexivity | reflexivity | reflexivity
               | apply scene_coords_in_range].
Defined.

Lemma scene_locations'_in_range : locations_in_range scene_locations' 2 2 2 2.
Proof.
  intros b m Hb Hm. below b; below m; vm_compute; repeat split; congruence.
Defined.

Lemma scene_coords'_in_range :
  coords_in_range scene_coord_x' scene_coord_y' 2 2 2 2.
Proof.
  intros b m Hb Hm. below b; below m; vm_compute; repeat split; congruence.
Defined.





Lemma no_cross_batch_bleed_witness :
  (∃ o o', forward {| scatter_type := "add" |}
             (TFloat scene_features) (2, 2) (TLong scene_locations) = Ok (TFloat o) ∧
           forward {| scatter_type := "add" |}
             (TFloat scene_features') (2, 2) (TLong scene_locations') = Ok (TFloat o') ∧
           get o [1; 0; 1; 1] = get o' [1; 0; 1; 1]) ∧
  (∃ o o', xy_forward {| scatter_type := "add" |}
             (TFloat scene_features) (2, 2)
             (TLong scene_coord_x) (TLong scene_coord_y) = Ok (TFloat o) ∧
           xy_forward {| scatter_type := "add" |}
             (TFloat scene_features') (2, 2)
             (TLong scene_coord_x') (TLong scene_coord_y') = Ok (TFloat o') ∧
           get o [1; 0; 1; 1] = get o' [1; 0; 1; 1]).
Proof.
  destruct (no_cross_batch_bleed {| scatter_type := "add" |}
              scene_features scene_features'
              scene_locations scene_locations'
              scene_coord_x scene_coord_y scene_coord_x' scene_coord_y'
              2 2 1 2 2 0 1 0 1 1) as [Hf Hxy];
    [reflexivity | reflexivity | apply scene_sizes_fit | | lia..|].
  { intros b1 m k Hne Hb1 Hm Hk. below b1. below m; below k; reflexivity. }
  split.
  - apply Hf; [reflexivity | reflexivity | apply scene_locations_in_range
              | apply scene_locations'_in_range|].
    intros b1 m Hne Hb1 Hm. below b1. below m; split; reflexivity.
  - apply Hxy; [reflexivity | reflexivity | reflexivity | reflexivity | reflexivity
               | reflexivity | apply scene_coords_in_range
               | apply scene_coords'_in_range|].
    intros b1 m Hne Hb1 Hm. below b1. below m; split; reflexivity.
Defined.

(** ** What a call does to the store *)

Section frame.
Context {F : Type} `{!FloatOps F}.

Lemma preserves_ret n {A} (a : A) (Q : A → Prop) :
  Q a → preserves (F:=F) n (mret a) Q.
Proof. intros Ha σ Hσ. repeat split; [done|]. by intros a' [= <-]. Qed.

Lemma preserves_bind n {A B} (m : St F A) (k : A → St F B) Q R :
  preserves n m Q → (∀ a, Q a → preserves (F:=F) n (k a) R) →
  preserves (F:=F) n (m ≫= k) R.
Proof.
  intros Hm Hk σ Hσ. destruct (Hm σ Hσ) as (Htake & Hlen & HQ).
  unfold mbind, St_bind. destruct (m σ) as [[a|e] σ'] eqn:E; simpl in *.
  - destruct (Hk a (HQ a eq_refl) σ' Hlen) as (Htake' & Hlen' & HR).
    repeat split; [congruence|done..].
  - repeat split; [done..|]. intros ? [=].
Qed.

Lemma preserves_weaken n {A} (m : St F A) (Q Q' : A → Prop) :
  preserves n m Q → (∀ a, Q a → Q' a) → preserves n m Q'.
Proof.
  intros Hm HQ σ Hσ. destruct (Hm σ Hσ) as (? & ? & ?). repeat split; auto.
Qed.

Lemma preserves_run n {A} (r : result A) (Q : A → Prop) :
  (∀ a, r = Ok a → Q a) → preserves (F:=F) n (run r) Q.
Proof. intros Hr σ Hσ. by repeat split. Qed.

Lemma preserves_load n (h : handle) : preserves (F:=F) n (load h) (λ _, True).
Proof. intros σ Hσ. by repeat split. Qed.

Lemma preserves_alloc n (t : tensor F) :
  preserves (F:=F) n (alloc t) (λ h, n ≤ sid h).
Proof.
  intros σ Hσ. unfold alloc. simpl.
  rewrite take_app_le, length_app by done.
  repeat split; [lia|]. by intros ? [= <-].
Qed.

Lemma preserves_write n (h : handle) (t : tensor F) :
  n ≤ sid h → preserves (F:=F) n (write h t) (λ _, True).
Proof.
  intros Hh σ Hσ. unfold write.
  destruct (σ !! sid h) as [[l|l]|], t as [a|a]; simpl;
    rewrite ?take_insert_ge, ?length_insert by done; by repeat split.
Qed.

(** Views keep the storage of their receiver. *)
Lemma preserves_view_of n (h : handle) (r : result (ndarray nat)) :
  preserves (F:=F) n (l ← run r; mret (Handle (sid h) l))
            (λ h', sid h' = sid h).
Proof.
  eapply (preserves_bind _ _ _ (λ _, True)); [by apply preserves_run|].
  intros l _. by apply preserves_ret.
Qed.

Lemma preserves_st_view n h spec :
  preserves (F:=F) n (st_view h spec) (λ h', sid h' = sid h).
Proof.
  unfold st_view. case_decide; [apply preserves_view_of|].
  by apply preserves_run.
Qed.

Lemma preserves_st_unsqueeze n h dim :
  preserves (F:=F) n (st_unsqueeze h dim) (λ h', sid h' = sid h).
Proof. apply preserves_view_of. Qed.

Lemma preserves_st_select1 n h c :
  preserves (F:=F) n (st_select1 h c) (λ h', sid h' = sid h).
Proof. apply preserves_view_of. Qed.

Lemma preserves_st_permute n h dims :
  preserves (F:=F) n (st_permute h dims) (λ h', sid h' = sid h).
Proof. apply preserves_view_of. Qed.

(** Calls that allocate return a fresh tensor. *)
Lemma preserves_load_alloc n (h : handle) (f : tensor F → result (tensor F)) :
  preserves (F:=F) n (t ← load h; t' ← run (f t); alloc t') (λ h', n ≤ sid h').
Proof.
  eapply preserves_bind; [apply preserves_load|]. intros t _.
  eapply (preserves_bind _ _ _ (λ _, True)); [by apply preserves_run|].
  intros t' _. apply preserves_alloc.
Qed.

Lemma preserves_st_repeat n h reps :
  preserves (F:=F) n (st_repeat h reps) (λ h', n ≤ sid h').
Proof. apply (preserves_load_alloc n h (λ t, repeat t reps)). Qed.

Lemma preserves_st_mul n h c :
  preserves (F:=F) n (st_mul h c) (λ h', n ≤ sid h').
Proof. apply (preserves_load_alloc n h (λ t, mul t c)). Qed.

Lemma preserves_st_add n h1 h2 :
  preserves (F:=F) n (st_add h1 h2) (λ h', n ≤ sid h').
Proof.
  unfold st_add. eapply preserves_bind; [apply preserves_load|]. intros t1 _.
  eapply preserves_bind; [apply preserves_load|]. intros t2 _.
  eapply (preserves_bind _ _ _ (λ _, True)); [by apply preserves_run|].
  intros t _. apply preserves_alloc.
Qed.

(** [reshape], [contiguous] and [long] return their receiver, a view of it
    or a fresh tensor. *)
Lemma preserves_st_reshape n h spec :
  preserves (F:=F) n (st_reshape h spec) (λ h', sid h' = sid h ∨ n ≤ sid h').
Proof.
  unfold st_reshape. case_decide.
  - eapply preserves_weaken; [apply preserves_st_view|]. auto.
  - eapply preserves_weaken;
      [apply (preserves_load_alloc n h (λ t, reshape t spec))|]. auto.
Qed.

Lemma preserves_st_contiguous n h :
  preserves (F:=F) n (st_contiguous h) (λ h', sid h' = sid h ∨ n ≤ sid h').
Proof.
  unfold st_contiguous. case_decide; [apply preserves_ret; auto|].
  eapply preserves_bind; [apply preserves_load|]. intros t _.
  eapply preserves_weaken; [apply preserves_alloc|]. auto.
Qed.

Lemma preserves_st_long n h :
  preserves (F:=F) n (st_long h) (λ h', sid h' = sid h ∨ n ≤ sid h').
Proof.
  unfold st_long. eapply preserves_bind; [apply preserves_load|].
  intros [a|a] _; [apply preserves_ret; auto|].
  eapply preserves_weaken; [apply preserves_alloc|]. auto.
Qed.

(** Calls that write in place leave the first [n] storages alone when
    their receiver lies beyond them. *)
Lemma preserves_st_mul_ n h c :
  n ≤ sid h → preserves (F:=F) n (st_mul_ h c) (λ h', sid h' = sid h).
Proof.
  intros Hh. unfold st_mul_.
  eapply preserves_bind; [apply preserves_load|]. intros t _.
  eapply (preserves_bind _ _ _ (λ _, True)); [by apply preserves_run|].
  intros t' _. eapply preserves_bind; [by apply preserves_write|].
  intros _ _. by apply preserves_ret.
Qed.

Lemma preserves_st_iadd n h1 h2 :
  n ≤ sid h1 → preserves (F:=F) n (st_iadd h1 h2) (λ h', sid h' = sid h1).
Proof.
  intros Hh. unfold st_iadd.
  eapply preserves_bind; [apply preserves_load|]. intros t1 _.
  eapply preserves_bind; [apply preserves_load|]. intros t2 _.
  eapply (preserves_bind _ _ _ (λ _, True)); [by apply preserves_run|].
  intros t' _. eapply preserves_bind; [by apply preserves_write|].
  intros _ _. by apply preserves_ret.
Qed.

Lemma preserves_st_scatter n self dim index src
    (f : tensor F → nat → tensor F → tensor F → result (tensor F)) :
  n ≤ sid self →
  preserves (F:=F) n (ts ← load self; ti ← load index; tsrc ← load src;
               t ← run (f ts dim ti tsrc); _ ← write self t; mret self)
            (λ h', sid h' = sid self).
Proof.
  intros Hh.
  eapply preserves_bind; [apply preserves_load|]. intros ts _.
  eapply preserves_bind; [apply preserves_load|]. intros ti _.
  eapply preserves_bind; [apply preserves_load|]. intros tsrc _.
  eapply (preserves_bind _ _ _ (λ _, True)); [by apply preserves_run|].
  intros t' _. eapply preserves_bind; [by apply preserves_write|].
  intros _ _. by apply preserves_ret.
Qed.

Lemma preserves_policy n self (output index x : handle) dim :
  n ≤ sid output →
  preserves (F:=F) n
    (if decide (scatter_type self = "cover"%string)
     then st_scatter_ output dim index x
     else if decide (scatter_type self = "add"%string)
     then st_scatter_add_ output dim index x
     else mret output)
    (λ h', n ≤ sid h').
Proof.
  intros Hh. repeat case_decide.
  - eapply preserves_weaken; [by apply (preserves_st_scatter _ _ _ _ _ scatter_)|].
    intros h' ->. done.
  - eapply preserves_weaken; [by apply (preserves_st_scatter _ _ _ _ _ scatter_add_)|].
    intros h' ->. done.
  - by apply preserves_ret.
Qed.

Lemma forward_st_preserves n self x spatial_size location :
  preserves (F:=F) n (forward_st self x spatial_size location) (λ out, n ≤ sid out).
Proof.
  unfold forward_st, hpc_wrapper.
  eapply (preserves_bind _ _ _ (λ _, True)); [by apply preserves_run|].
  intros [[B M] N] _. destruct spatial_size as [H W].
  eapply preserves_bind; [apply preserves_st_view|]. intros index0 _.
  eapply (preserves_bind _ _ _ (λ _, True)).
  { eapply preserves_bind; [apply preserves_alloc|]. intros b Hb.
    eapply preserves_bind; [by apply preserves_st_mul_|]. intros b1 _.
    eapply preserves_bind; [apply preserves_st_unsqueeze|]. intros b2 _.
    eapply preserves_bind; [apply preserves_st_repeat|]. intros b3 _.
    eapply preserves_bind; [apply preserves_st_view|]. intros b4 _.
    by apply preserves_ret. }
  intros bias _.
  eapply (preserves_bind _ _ _ (λ h, n ≤ sid h)).
  { eapply preserves_bind; [apply preserves_st_select1|]. intros i0 _.
    eapply preserves_bind; [apply preserves_st_mul|]. intros i1 _.
    eapply preserves_bind; [apply preserves_st_select1|]. intros i2 _.
    apply preserves_st_add. }
  intros index Hindex.
  eapply preserves_bind; [by apply preserves_st_iadd|]. intros index1 _.
  eapply preserves_bind; [apply preserves_st_repeat|]. intros index2 _.
  eapply (preserves_bind _ _ _ (λ _, True)).
  { eapply preserves_bind; [apply preserves_st_view|]. intros x1 _.
    eapply preserves_weaken; [apply preserves_st_permute|]. done. }
  intros x2 _.
  eapply preserves_bind; [apply preserves_alloc|]. intros output Houtput.
  eapply preserves_bind; [by apply preserves_policy|]. intros output1 Houtput1.
  eapply (preserves_bind _ _ _ (λ h, n ≤ sid h)).
  { eapply preserves_weaken; [apply preserves_st_reshape|]. intros h' [->|?]; done. }
  intros output2 Houtput2.
  eapply (preserves_bind _ _ _ (λ h, n ≤ sid h)).
  { eapply preserves_weaken; [apply preserves_st_permute|]. intros h' ->. done. }
  intros output3 Houtput3.
  eapply preserves_weaken; [apply preserves_st_contiguous|]. intros h' [->|?]; done.
Qed.

Lemma xy_forward_st_preserves n self x spatial_size coord_x coord_y :
  preserves (F:=F) n (xy_forward_st self x spatial_size coord_x coord_y)
            (λ out, n ≤ sid out).
Proof.
  unfold xy_forward_st, hpc_wrapper.
  eapply (preserves_bind _ _ _ (λ _, True)); [by apply preserves_run|].
  intros [[B M] N] _.
  eapply preserves_bind; [apply preserves_st_permute|]. intros x1 _.
  destruct spatial_size as [H W].
  eapply (preserves_bind _ _ _ (λ _, True)).
  { eapply preserves_bind; [apply preserves_st_mul|]. intros cx _.
    eapply preserves_bind; [apply preserves_st_add|]. intros s _.
    eapply preserves_weaken; [apply preserves_st_long|]. done. }
  intros indices _.
  eapply (preserves_bind _ _ _ (λ _, True)).
  { eapply preserves_bind; [apply preserves_st_unsqueeze|]. intros i _.
    eapply preserves_weaken; [apply preserves_st_repeat|]. done. }
  intros indices1 _.
  eapply (preserves_bind _ _ _ (λ h, n ≤ sid h)).
  { eapply preserves_bind; [apply preserves_alloc|]. intros z Hz.
    eapply preserves_weaken; [apply preserves_st_view|]. intros h' ->. done. }
  intros output Houtput.
  eapply preserves_bind; [by apply preserves_policy|]. intros output1 Houtput1.
  eapply (preserves_bind _ _ _ (λ h, n ≤ sid h)).
  { eapply preserves_weaken; [apply preserves_st_view|]. intros h' ->. done. }
  intros output2 Houtput2. by apply preserves_ret.
Qed.

(** What is readable before a computation that preserves the whole store
    reads the same after it. *)
Lemma preserves_read {A} (m : St F A) Q (σ : list (storage F)) h t :
  preserves (length σ) m Q → read σ h = Ok t → read (m σ).2 h = Ok t.
Proof.
  intros Hm Hread. destruct (Hm σ (le_n _)) as (Htake & _ & _).
  rewrite firstn_all in Htake. unfold read in *.
  destruct (σ !! sid h) as [s|] eqn:E; [|done].
  assert ((m σ).2 !! sid h = Some s) as ->; [|done].
  rewrite <-(lookup_take_lt _ (length σ)) by (by eapply lookup_lt_Some).
  by rewrite Htake.
Qed.
End frame.

(** C8 (no input is mutated).  Whatever a call of [forward] or [xy_forward]
    returns or raises, every tensor that could be read before the call, the
    features and the coordinates among them, reads the same after it; and
    a returned output lives in a storage allocated by the call. *)
Theorem inputs_unchanged {F : Type} `{!FloatOps F} self
    (x location coord_x coord_y : handle) spatial_size (σ : list (storage F)) :
  ((∀ h t, read σ h = Ok t →
           read (forward_st self x spatial_size location σ).2 h = Ok t) ∧
   (∀ out, (forward_st self x spatial_size location σ).1 = Ok out →
           length σ ≤ sid out)) ∧
  ((∀ h t, read σ h = Ok t →
           read (xy_forward_st self x spatial_size coord_x coord_y σ).2 h = Ok t) ∧
   (∀ out, (xy_forward_st self x spatial_size coord_x coord_y σ).1 = Ok out →
           length σ ≤ sid out)).
Proof.
  split; split.
  - intros h t. apply preserves_read with (λ out, length σ ≤ sid out).
    apply forward_st_preserves.
  - apply (forward_st_preserves (length σ) self x spatial_size location σ (le_n _)).
  - intros h t. apply preserves_read with (λ out, length σ ≤ sid out).
    apply xy_forward_st_preserves.
  - apply (xy_forward_st_preserves (length σ) self x spatial_size coord_x coord_y σ
             (le_n _)).
Qed.


Lemma inputs_unchanged_witness :
  let self := {| scatter_type := "add" |} in
  read (forward_st self scene_x (2, 2) scene_location scene_store).2 scene_x
    = Ok (TFloat scene_features) ∧
  read (forward_st self scene_x (2, 2) scene_location scene_store).2 scene_location
    = Ok (TLong scene_locations) ∧
  read (xy_forward_st self scene_x (2, 2) scene_cx scene_cy scene_store).2 scene_cx
    = Ok (TLong scene_coord_x) ∧
  read (xy_forward_st self scene_x (2, 2) scene_cx scene_cy scene_store).2 scene_cy
    = Ok (TLong scene_coord_y).
Proof.
  intros self.
  destruct (inputs_unchanged self scene_x scene_location scene_cx scene_cy (2, 2)
              scene_store) as [[Hf _] [Hxy _]].
  repeat split; (apply Hf || apply Hxy); reflexivity.
Defined.

(** On the scene the calls on the store return the values of [forward] and
    [xy_forward]. *)
Example scene_store_agrees :
  let self := {| scatter_type := "add" |} in
  (let '(r, σ) := forward_st self scene_x (2, 2) scene_location scene_store in
   out ← r; read σ out)
  = forward self (TFloat scene_features) (2, 2) (TLong scene_locations) ∧
  (let '(r, σ) := xy_forward_st self scene_x (2, 2) scene_cx scene_cy scene_store in
   out ← r; read σ out)
  = xy_forward self (TFloat scene_features) (2, 2)
      (TLong scene_coord_x) (TLong scene_coord_y).
Proof. split; vm_compute; reflexivity. Qed.

(** ** The calls on the store compute the values of [forward] and
    [xy_forward] *)

Lemma fmap_lookup_seq `{Inhabited A} (l : list A) :
  (λ o, l !!! o) <$> seq 0 (length l) = l.
Proof.
  apply list_eq_same_length with (length l);
    [done|by rewrite length_fmap, length_seq|].
  intros i x y Hi Hx Hy. rewrite list_lookup_fmap, lookup_seq_lt in Hx by done.
  simpl in Hx. apply list_lookup_total_correct in Hy. congruence.
Qed.

(** Naturality of the views: they move elements and never look at them. *)
Lemma nd_select1_natural {A B} `{Inhabited A, Inhabited B} (f : A → B)
    (a : ndarray A) c :
  wf a → nd_select1 (nd_map f a) c = nd_map f <$> nd_select1 a c.
Proof.
  intros Hwf. unfold nd_select1. cbn [shape nd_map].
  destruct (shape a) as [|d0 [|d1 s']] eqn:Hs; [done..|].
  case_decide; [|done]. cbn [fmap result_fmap]. rewrite nd_map_tab. f_equal.
  apply tab_ext. intros I HI. apply inb_inv in HI as (i & I' & -> & Hi & HI).
  change (get (nd_map f a) ?J) with (get (NDArray (shape a) (f <$> data a)) J).
  rewrite <-(get_nd_map f a) by (rewrite ?Hs; cbn [take drop app]; rewrite ?drop_0;
                               by repeat apply inb_cons).
  done.
Qed.

Lemma permuted_inb (s dims I : list nat) :
  length dims = length s → Forall (λ d, d ∈ dims) (seq 0 (length s)) →
  inb I ((λ d, s !!! d) <$> dims) →
  inb ((λ d, I !!! index_of d dims) <$> seq 0 (length s)) s.
Proof.
  intros Hlen Hall HI. unfold inb in *.
  assert (Hidx : ∀ d, d ∈ dims → dims !! index_of d dims = Some d).
  { clear. induction dims as [|x dims IH]; intros d Hd; [by apply elem_of_nil in Hd|].
    simpl. case_decide; [by subst|]. apply elem_of_cons in Hd as [->|Hd]; [done|].
    by apply IH. }
  apply Forall2_same_length_lookup_2.
  { by rewrite length_fmap, length_seq. }
  intros d i sd Hi Hsd. rewrite list_lookup_fmap in Hi.
  assert (Hd : d < length s) by (by eapply lookup_lt_Some).
  rewrite lookup_seq_lt in Hi by done. simpl in Hi. simplify_eq.
  rewrite Forall_forall in Hall.
  specialize (Hidx d (Hall d ltac:(apply elem_of_seq; lia))).
  assert (Hj : index_of d dims < length I).
  { rewrite (Forall2_length _ _ _ HI), length_fmap. by eapply lookup_lt_Some. }
  destruct (lookup_lt_is_Some_2 I _ Hj) as [i Hi].
  rewrite (list_lookup_total_correct _ _ _ Hi).
  eapply (Forall2_lookup_lr _ _ _ _ _ _ HI Hi).
  rewrite list_lookup_fmap, Hidx. simpl.
  by rewrite (list_lookup_total_correct _ _ _ Hsd).
Qed.

Lemma nd_permute_natural {A B} `{Inhabited A, Inhabited B} (f : A → B)
    (a : ndarray A) dims :
  wf a → nd_permute (nd_map f a) dims = nd_map f <$> nd_permute a dims.
Proof.
  intros Hwf. unfold nd_permute. cbn [shape nd_map].
  case_decide as Hd; [|done]. destruct Hd as [Hlen Hall].
  cbn [fmap result_fmap]. rewrite nd_map_tab. f_equal.
  apply tab_ext. intros I HI.
  change (get (nd_map f a) ?J) with (get (NDArray (shape a) (f <$> data a)) J).
  by rewrite <-(get_nd_map f a) by (done || by apply permuted_inb).
Qed.

Lemma infer_size_numel spec n s : infer_size spec n = Ok s → numel s = n.
Proof.
  unfold infer_size. case_decide as Hneg; [done|].
  set (q := n / numel (Z.to_nat <$> filter (λ z, z ≠ (-1)%Z) spec)).
  assert (Hgen : ∀ l : list Z,
    numel ((λ z, if decide (z = (-1)%Z) then q else Z.to_nat z) <$> l)
    = q ^ (length l - length (filter (λ z, z ≠ (-1)%Z) l))
      * numel (Z.to_nat <$> filter (λ z, z ≠ (-1)%Z) l)).
  { induction l as [|z l IH]; [done|]. rewrite fmap_cons. cbn [numel].
    rewrite IH. pose proof (length_filter (λ z, z ≠ (-1)%Z) l) as Hle.
    destruct (decide (z = (-1)%Z)) as [->|Hz].
    - rewrite filter_cons_False by (intros ?; done). cbn [length].
      replace (S (length l) - length (filter (λ z, z ≠ (-1)%Z) l))
        with (S (length l - length (filter (λ z, z ≠ (-1)%Z) l))) by lia.
      cbn [Nat.pow]. lia.
    - rewrite filter_cons_True by done. rewrite fmap_cons. cbn [length numel Nat.sub].
      lia. }
  destruct (length spec - length (filter (λ z, z ≠ (-1)%Z) spec)) as [|[|k]] eqn:Hk;
    [| |done].
  - case_decide as Hn; [|done]. intros [= <-]. rewrite <-Hn.
    assert (Hf : filter (λ z, z ≠ (-1)%Z) spec = spec); [|by rewrite Hf].
    pose proof (length_filter (λ z, z ≠ (-1)%Z) spec) as Hle.
    clear -Hk Hle. induction spec as [|y spec IH]; [done|].
    destruct (decide (y ≠ (-1)%Z)) as [Hy|Hy].
    + rewrite filter_cons_True in * by done. simpl in *.
      pose proof (length_filter (λ z, z ≠ (-1)%Z) spec). f_equal. apply IH; lia.
    + rewrite filter_cons_False in * by done. simpl in *.
      pose proof (length_filter (λ z, z ≠ (-1)%Z) spec). lia.
  - case_decide as Hn; [|done]. destruct Hn as [Hpos Hmod]. intros [= <-].
    rewrite Hgen, Hk. cbn [Nat.pow]. unfold q.
    pose proof (Nat.div_mod_eq n (numel (Z.to_nat <$> filter (λ z, z ≠ (-1)%Z) spec))).
    lia.
Qed.

Section simulation.
Context {F : Type} `{!FloatOps F}.
Implicit Types (σ : list (storage F)) (h g : handle) (t : tensor F).

Lemma read_covering σ n t :
  σ !! n = Some (storage_of t) → read σ (covering n t) = Ok t.
Proof.
  intros Hσ. unfold read, covering. cbn [sid layout]. rewrite Hσ.
  destruct t as [[s d]|[s d]]; cbn [storage_of size tdata_length shape data];
    unfold nd_map; cbn [shape data]; by rewrite fmap_lookup_seq.
Qed.

Lemma owned_read σ h t : owned σ h t → read σ h = Ok t.
Proof. intros [Hσ ->]. by apply read_covering. Qed.

Lemma read_app σ σ2 h t : read σ h = Ok t → read (σ ++ σ2) h = Ok t.
Proof.
  unfold read. destruct (σ !! sid h) as [s|] eqn:E; [|done].
  by rewrite (lookup_app_l_Some _ _ _ _ E).
Qed.

Lemma owned_app σ σ2 h t : owned σ h t → owned (σ ++ σ2) h t.
Proof. intros [Hσ Hh]. split; [by apply lookup_app_l_Some|done]. Qed.

Lemma owned_alloc σ t : owned (σ ++ [storage_of t]) (covering (length σ) t) t.
Proof. split; [apply list_lookup_middle; done|done]. Qed.

Lemma read_insert_ne σ j s g :
  sid g ≠ j → read (<[j := s]> σ) g = read σ g.
Proof. intros Hne. unfold read. by rewrite list_lookup_insert_ne. Qed.

Lemma owned_insert_ne σ j s g t :
  sid g ≠ j → owned σ g t → owned (<[j := s]> σ) g t.
Proof. intros Hne [Hσ Hg]. split; [by rewrite list_lookup_insert_ne|done]. Qed.

(** Writing a full row of values over a whole storage. *)
Lemma write_list_seq {A} (vals l : list A) k :
  k + length vals ≤ length l →
  write_list l (seq k (length vals)) vals
  = take k l ++ vals ++ drop (k + length vals) l.
Proof.
  unfold write_list. revert l k.
  induction vals as [|v vals IH]; intros l k Hlen.
  - simpl. by rewrite Nat.add_0_r, take_drop.
  - cbn [length seq zip zip_with foldl fst snd]. simpl in Hlen.
    rewrite IH by (rewrite length_insert; lia).
    rewrite (take_S_r _ _ v) by (apply list_lookup_insert_eq; lia).
    rewrite take_insert_ge, drop_insert_lt by lia.
    rewrite <-app_assoc.
    by replace (k + S (length vals)) with (S k + length vals) by lia.
Qed.

Lemma write_list_all {A} (vals l : list A) :
  length vals = length l → write_list l (seq 0 (length l)) vals = vals.
Proof.
  intros Hlen. rewrite <-Hlen, write_list_seq by lia.
  by rewrite take_0, drop_ge, app_nil_r by lia.
Qed.

Lemma similar_storage t t' :
  similar t t' → covering 0 t' = covering 0 t ∧
  match storage_of t, storage_of t' with
  | SLong l, SLong l' | SFloat l, SFloat l' => True
  | _, _ => False
  end.
Proof.
  intros (Hs & Hl & Hd). unfold covering. rewrite Hs, Hl.
  by destruct t, t'.
Qed.

Lemma write_owned σ h t t' :
  owned σ h t → similar t t' →
  write h t' σ = (Ok (), <[sid h := storage_of t']> σ) ∧
  owned (<[sid h := storage_of t']> σ) h t'.
Proof.
  intros [Hσ Hh] (Hs & Hl & Hd). split.
  - unfold write. rewrite Hσ. rewrite Hh. cbn [layout sid covering data].
    destruct t as [a|a], t' as [a'|a']; try done;
      cbn [storage_of tdata_length] in *;
      by rewrite write_list_all.
  - split.
    + apply list_lookup_insert_eq. by eapply lookup_lt_Some.
    + rewrite Hh at 1. unfold covering. cbn [sid]. by rewrite Hs, Hl.
Qed.

(** *** Sequencing *)
Lemma St_bind_Ok {A B} (m : St F A) (k : A → St F B) σ a σ1 :
  m σ = (Ok a, σ1) → (m ≫= k) σ = k a σ1.
Proof. intros E. unfold mbind, St_bind. by rewrite E. Qed.

Lemma St_bind_assoc {A B C} (m : St F A) (k1 : A → St F B) (k2 : B → St F C) σ :
  ((m ≫= k1) ≫= k2) σ = (m ≫= (λ a, k1 a ≫= k2)) σ.
Proof. unfold mbind, St_bind. by destruct (m σ) as [[a|e] σ1]. Qed.

Lemma St_ret_bind {A B} (a : A) (k : A → St F B) σ : (mret a ≫= k) σ = k a σ.
Proof. done. Qed.

Lemma run_Ok {A} (r : result A) a σ : r = Ok a → run r σ = (Ok a, σ).
Proof. by intros ->. Qed.

(** *** Shapes and sizes *)
Lemma read_size σ h t : read σ h = Ok t → size t = shape (layout h).
Proof.
  unfold read. destruct (σ !! sid h) as [[d|d]|]; [| |done]; by intros [= <-].
Qed.

Lemma read_lt σ h t : read σ h = Ok t → sid h < length σ.
Proof.
  unfold read. destruct (σ !! sid h) as [s|] eqn:E; [|done].
  intros _. by eapply lookup_lt_Some.
Qed.

Lemma owned_contiguous σ h t : owned σ h t → contiguous_layout (layout h).
Proof.
  intros [_ ->]. unfold contiguous_layout, covering. cbn [layout data].
  rewrite length_seq. by destruct (tdata_length t).
Qed.

Lemma owned_wf σ h t : owned σ h t → twf t → wf (layout h).
Proof.
  intros [_ ->] Ht. unfold wf, covering. cbn [layout data shape].
  by rewrite length_seq.
Qed.

Lemma twf_zeros s : twf (zeros s).
Proof. unfold twf, zeros. cbn. by rewrite length_replicate. Qed.

Lemma twf_similar t t' : similar t t' → twf t → twf t'.
Proof. intros (Hs & Hl & _). unfold twf. by rewrite Hs, Hl. Qed.

Lemma nd_view_wf {A} (a l : ndarray A) spec :
  wf a → nd_view a spec = Ok l → wf l.
Proof.
  intros Hwf (s & Hs & [= <-])%bind_Ok. unfold wf. cbn [data shape].
  by rewrite (infer_size_numel _ _ _ Hs).
Qed.

Lemma twf_view t spec t' : twf t → view t spec = Ok t' → twf t'.
Proof.
  destruct t as [a|a]; cbn [view lift twf tdata_length size];
    intros Hwf (l & Hl & ->)%fmap_Ok; by apply (nd_view_wf a l spec).
Qed.

Lemma twf_add t1 t2 t : add t1 t2 = Ok t → twf t.
Proof.
  destruct t1 as [a|a], t2 as [b|b]; cbn [add]; intros (l & Hl & ->)%fmap_Ok;
    unfold nd_zip_with in Hl; destruct (broadcast_shapes _ _); try done;
    injection Hl as <-; apply wf_tab.
Qed.

(** *** In-place calls keep the dtype, the shape and the size *)
Lemma similar_mul t c t' : mul t c = Ok t' → similar t t'.
Proof.
  unfold mul. case_decide; [|done].
  destruct t as [a|a]; intros [= <-]; unfold similar; cbn;
    by rewrite length_fmap.
Qed.

Lemma similar_iadd t1 t2 t : twf t1 → iadd t1 t2 = Ok t → similar t1 t.
Proof.
  unfold twf.
  destruct t1 as [a|a], t2 as [b|b]; cbn [iadd tdata_length size]; try done;
    intros Hwf (l & Hl & ->)%fmap_Ok; unfold nd_zip_with_ in Hl;
    destruct (broadcast_shapes _ _) as [s|]; try done;
    case_decide as Hs; try done; injection Hl as <-;
    unfold similar; cbn [size tdata_length tab shape data];
    by rewrite length_fmap, length_indices, Hs.
Qed.

Lemma scatter_loop_length `{Inhabited A} (upd : A → A → A) dim
    (self : ndarray A) index src d :
  scatter_loop upd dim self index src = Ok d → length d = length (data self).
Proof.
  unfold scatter_loop. generalize (data self) as d0.
  induction (indices (shape index)) as [|I Is IH]; intros d0; cbn [foldl].
  - by intros [= <-].
  - change (Ok d0 ≫= ?k) with (k d0). cbv beta zeta.
    case_decide.
    + intros Hd. rewrite (IH _ Hd). by rewrite length_insert.
    + intros Hd. exfalso. revert Hd. clear.
      induction Is as [|I' Is IH]; [done|]. done.
Qed.

Lemma nd_scatter_length `{Inhabited A} (upd : A → A → A) dim
    (self : ndarray A) index src out :
  nd_scatter upd dim self index src = Ok out →
  shape out = shape self ∧ length (data out) = length (data self).
Proof.
  unfold nd_scatter. case_decide; [by intros [= <-]|]. case_decide; [|done].
  intros (d & Hd & [= <-])%bind_Ok. split; [done|].
  by apply scatter_loop_length in Hd.
Qed.

Lemma similar_scatter updL updF self dim index src t :
  scatter_with updL updF self dim index src = Ok t → similar self t.
Proof.
  unfold scatter_with. case_decide; [|done].
  intros (i & _ & Ht)%bind_Ok.
  destruct self as [o|o], src as [s|s]; try done;
    apply fmap_Ok in Ht as (out & Hout & ->);
    apply nd_scatter_length in Hout as [Hs Hl]; by unfold similar.
Qed.

(** *** Views *)
Lemma nd_view_natural {A B} (f : A → B) (a : ndarray A) spec :
  nd_view (nd_map f a) spec = nd_map f <$> nd_view a spec.
Proof.
  unfold nd_view. cbn [shape nd_map].
  by destruct (infer_size spec (numel (shape a))).
Qed.

Lemma nd_unsqueeze_natural {A B} (f : A → B) (a : ndarray A) dim :
  nd_unsqueeze (nd_map f a) dim = nd_map f <$> nd_unsqueeze a dim.
Proof. unfold nd_unsqueeze. cbn [shape nd_map]. by case_decide. Qed.

Lemma read_lift σ h t t'
    (op : ∀ A, Inhabited A → ndarray A → result (ndarray A)) :
  (∀ B (HB : Inhabited B) (f : nat → B),
     op B HB (nd_map f (layout h)) = nd_map f <$> op nat _ (layout h)) →
  read σ h = Ok t → lift op t = Ok t' →
  ∃ l, op nat _ (layout h) = Ok l ∧ read σ (Handle (sid h) l) = Ok t'.
Proof.
  intros Hnat Hr Hop. unfold read in *.
  destruct (σ !! sid h) as [[d|d]|] eqn:E; [| |done]; injection Hr as <-;
    cbn [lift] in Hop; rewrite Hnat in Hop;
    destruct (op nat _ (layout h)) as [l|e]; try done;
    injection Hop as <-; exists l; (split; [done|]); cbn [sid layout];
    by rewrite E.
Qed.

Lemma st_view_read σ h t spec t' :
  contiguous_layout (layout h) → read σ h = Ok t → view t spec = Ok t' →
  ∃ h', st_view h spec σ = (Ok h', σ) ∧ read σ h' = Ok t' ∧
        (wf (layout h) → wf (layout h')) ∧
        sid h' = sid h ∧ nd_view (layout h) spec = Ok (layout h').
Proof.
  intros Hc Hr Hv.
  destruct (read_lift σ h t t' (λ A _ a, nd_view a spec)) as (l & Hl & Hrl);
    [intros; apply nd_view_natural|done..|].
  exists (Handle (sid h) l). split_and!; [|done| |done..].
  - unfold st_view. rewrite decide_True by done.
    unfold run, mbind, St_bind. by rewrite Hl.
  - intros Hwf. by apply (nd_view_wf (layout h) l spec).
Qed.

Lemma st_unsqueeze_read σ h t dim t' :
  read σ h = Ok t → unsqueeze t dim = Ok t' →
  ∃ h', st_unsqueeze h dim σ = (Ok h', σ) ∧ read σ h' = Ok t'.
Proof.
  intros Hr Hv.
  destruct (read_lift σ h t t' (λ A _ a, nd_unsqueeze a dim)) as (l & Hl & Hrl);
    [intros; apply nd_unsqueeze_natural|done..|].
  exists (Handle (sid h) l). split; [|done].
  unfold st_unsqueeze, run, mbind, St_bind. by rewrite Hl.
Qed.

Lemma st_select1_read σ h t c t' :
  wf (layout h) → read σ h = Ok t → select1 t c = Ok t' →
  ∃ h', st_select1 h c σ = (Ok h', σ) ∧ read σ h' = Ok t'.
Proof.
  intros Hwf Hr Hv.
  destruct (read_lift σ h t t' (λ A _ a, nd_select1 a c)) as (l & Hl & Hrl);
    [intros; by apply nd_select1_natural|done..|].
  exists (Handle (sid h) l). split; [|done].
  unfold st_select1, run, mbind, St_bind. by rewrite Hl.
Qed.

Lemma st_permute_read σ h t dims t' :
  wf (layout h) → read σ h = Ok t → permute t dims = Ok t' →
  ∃ h', st_permute h dims σ = (Ok h', σ) ∧ read σ h' = Ok t'.
Proof.
  intros Hwf Hr Hv.
  destruct (read_lift σ h t t' (λ A _ a, nd_permute a dims)) as (l & Hl & Hrl);
    [intros; by apply nd_permute_natural|done..|].
  exists (Handle (sid h) l). split; [|done].
  unfold st_permute, run, mbind, St_bind. by rewrite Hl.
Qed.

(** A view of a tensor that covers its storage covers it as well. *)
Lemma owned_view σ h t spec t' l :
  owned σ h t → view t spec = Ok t' → nd_view (layout h) spec = Ok l →
  owned σ (Handle (sid h) l) t'.
Proof.
  intros [Hσ Hh] Hv Hl. rewrite Hh in Hl. unfold covering in Hl.
  cbn [layout] in Hl. apply bind_Ok in Hl as (s & Hs & [= <-]).
  cbn [shape data] in *. unfold owned, covering. cbn [sid].
  destruct t as [a|a]; cbn [view lift] in Hv;
    apply fmap_Ok in Hv as (a' & Ha' & ->);
    apply bind_Ok in Ha' as (s' & Hs' & [= <-]);
    cbn [size tdata_length storage_of shape data] in *;
    (split; [done|]); congruence.
Qed.

Lemma st_view_owned σ h t spec t' :
  owned σ h t → view t spec = Ok t' →
  ∃ h', st_view h spec σ = (Ok h', σ) ∧ owned σ h' t'.
Proof.
  intros Ho Hv.
  destruct (st_view_read σ h t spec t' (owned_contiguous _ _ _ Ho)
              (owned_read _ _ _ Ho) Hv) as ([n l] & E & _ & _ & Hn & Hl).
  cbn [sid layout] in *. subst n. exists (Handle (sid h) l).
  split; [done|]. by eapply owned_view.
Qed.

(** *** Stores that grow *)
Lemma extends_refl σ : extends σ σ.
Proof. by split. Qed.

Lemma extends_trans σ1 σ2 σ3 : extends σ1 σ2 → extends σ2 σ3 → extends σ1 σ3.
Proof. intros [H1 R1] [H2 R2]. split; [lia|]. intros g u Hg. by apply R2, R1. Qed.

Lemma extends_read σ σ' g u : extends σ σ' → read σ g = Ok u → read σ' g = Ok u.
Proof. intros [_ R]. apply R. Qed.

Lemma extends_app σ τ : extends σ (σ ++ τ).
Proof. split; [rewrite length_app; lia|]. intros g u. apply read_app. Qed.

Lemma extends_insert σ0 σ j s :
  extends σ0 σ → length σ0 ≤ j → extends σ0 (<[j := s]> σ).
Proof.
  intros [Hlen R] Hj. split; [by rewrite length_insert|].
  intros g u Hg. rewrite read_insert_ne; [by apply R|].
  apply read_lt in Hg. lia.
Qed.

(** *** Calls that return a new tensor *)
Lemma alloc_sim σ (m : St F handle) t :
  m σ = alloc t σ →
  ∃ h' σ', m σ = (Ok h', σ') ∧ owned σ' h' t ∧ length σ ≤ sid h' ∧
           extends σ σ'.
Proof.
  intros ->. eexists _, _. split; [done|].
  split_and!; [apply owned_alloc|done|apply extends_app].
Qed.

Lemma st_repeat_sim σ h t reps t' :
  read σ h = Ok t → repeat t reps = Ok t' →
  ∃ h' σ', st_repeat h reps σ = (Ok h', σ') ∧ owned σ' h' t' ∧
           length σ ≤ sid h' ∧ extends σ σ'.
Proof.
  intros Hr Ht. apply alloc_sim.
  unfold st_repeat, load, run, mbind, St_bind. by rewrite Hr, Ht.
Qed.

Lemma st_mul_sim σ h t c t' :
  read σ h = Ok t → mul t c = Ok t' →
  ∃ h' σ', st_mul h c σ = (Ok h', σ') ∧ owned σ' h' t' ∧
           length σ ≤ sid h' ∧ extends σ σ'.
Proof.
  intros Hr Ht. apply alloc_sim.
  unfold st_mul, load, run, mbind, St_bind. by rewrite Hr, Ht.
Qed.

Lemma st_add_sim σ h1 h2 t1 t2 t' :
  read σ h1 = Ok t1 → read σ h2 = Ok t2 → add t1 t2 = Ok t' →
  ∃ h' σ', st_add h1 h2 σ = (Ok h', σ') ∧ owned σ' h' t' ∧
           length σ ≤ sid h' ∧ extends σ σ'.
Proof.
  intros Hr1 Hr2 Ht. apply alloc_sim.
  unfold st_add, load, run, mbind, St_bind. by rewrite Hr1, Hr2, Ht.
Qed.

Lemma st_long_sim σ h t :
  read σ h = Ok t →
  ∃ h' σ', st_long h σ = (Ok h', σ') ∧ read σ' h' = Ok (long t) ∧
           extends σ σ'.
Proof.
  intros Hr. unfold st_long, load, mbind, St_bind. rewrite Hr.
  destruct t as [a|a].
  - exists h, σ. split_and!; [done..|apply extends_refl].
  - eexists _, _. split; [done|]. split.
    + apply owned_read, owned_alloc.
    + apply extends_app.
Qed.

Lemma st_contiguous_sim σ h t :
  read σ h = Ok t →
  ∃ h' σ', st_contiguous h σ = (Ok h', σ') ∧ read σ' h' = Ok (contiguous t).
Proof.
  intros Hr. unfold st_contiguous. case_decide.
  - by exists h, σ.
  - unfold load, alloc, mbind, St_bind. rewrite Hr.
    eexists _, _. split; [done|]. apply owned_read, owned_alloc.
Qed.

(** *** Calls that write into their receiver *)
Lemma write_sim σ h t t' (m : St F handle) :
  owned σ h t → similar t t' →
  (∀ σ', write h t' σ = (Ok (), σ') → m σ = (Ok h, σ')) →
  ∃ σ', m σ = (Ok h, σ') ∧ owned σ' h t' ∧
        ∀ σ0, extends σ0 σ → length σ0 ≤ sid h → extends σ0 σ'.
Proof.
  intros Ho Hsim Hm. destruct (write_owned σ h t t' Ho Hsim) as [Hw Ho'].
  eexists. split_and!; [by apply Hm|done|].
  intros σ0 Hext Hlen. by apply extends_insert.
Qed.

Lemma st_mul__sim σ h t c t' :
  owned σ h t → mul_ t c = Ok t' →
  ∃ σ', st_mul_ h c σ = (Ok h, σ') ∧ owned σ' h t' ∧
        ∀ σ0, extends σ0 σ → length σ0 ≤ sid h → extends σ0 σ'.
Proof.
  intros Ho Ht. apply (write_sim σ h t t'); [done|by eapply similar_mul|].
  intros σ' Hw. unfold st_mul_, load, run, mbind, St_bind.
  by rewrite (owned_read _ _ _ Ho), Ht, Hw.
Qed.

Lemma st_iadd_sim σ h1 h2 t1 t2 t' :
  owned σ h1 t1 → twf t1 → read σ h2 = Ok t2 → iadd t1 t2 = Ok t' →
  ∃ σ', st_iadd h1 h2 σ = (Ok h1, σ') ∧ owned σ' h1 t' ∧
        ∀ σ0, extends σ0 σ → length σ0 ≤ sid h1 → extends σ0 σ'.
Proof.
  intros Ho Hwf Hr Ht.
  apply (write_sim σ h1 t1 t'); [done|by eapply similar_iadd|].
  intros σ' Hw. unfold st_iadd, load, run, mbind, St_bind.
  by rewrite (owned_read _ _ _ Ho), Hr, Ht, Hw.
Qed.

Lemma st_scatter__sim σ self dim index src ts ti tsrc t' :
  owned σ self ts → read σ index = Ok ti → read σ src = Ok tsrc →
  scatter_ ts dim ti tsrc = Ok t' →
  ∃ σ', st_scatter_ self dim index src σ = (Ok self, σ') ∧ owned σ' self t'.
Proof.
  intros Ho Hi Hs Ht.
  destruct (write_sim σ self ts t' (st_scatter_ self dim index src) Ho)
    as (σ' & E & Ho' & _); [by eapply similar_scatter| |by exists σ'].
  intros σ' Hw. unfold st_scatter_, load, run, mbind, St_bind.
  by rewrite (owned_read _ _ _ Ho), Hi, Hs, Ht, Hw.
Qed.

Lemma st_scatter_add__sim σ self dim index src ts ti tsrc t' :
  owned σ self ts → read σ index = Ok ti → read σ src = Ok tsrc →
  scatter_add_ ts dim ti tsrc = Ok t' →
  ∃ σ', st_scatter_add_ self dim index src σ = (Ok self, σ') ∧
        owned σ' self t'.
Proof.
  intros Ho Hi Hs Ht.
  destruct (write_sim σ self ts t' (st_scatter_add_ self dim index src) Ho)
    as (σ' & E & Ho' & _); [by eapply similar_scatter| |by exists σ'].
  intros σ' Hw. unfold st_scatter_add_, load, run, mbind, St_bind.
  by rewrite (owned_read _ _ _ Ho), Hi, Hs, Ht, Hw.
Qed.

Lemma similar_refl t : similar t t.
Proof. by destruct t. Qed.

Lemma st_policy_Ok (self : ScatterConnection) σ output index x dim
    tout ti tx t' :
  owned σ output tout → read σ index = Ok ti → read σ x = Ok tx →
  (if decide (scatter_type self = "cover"%string) then scatter_ tout dim ti tx
   else if decide (scatter_type self = "add"%string)
   then scatter_add_ tout dim ti tx else mret tout) = Ok t' →
  ∃ σ', (if decide (scatter_type self = "cover"%string)
         then st_scatter_ output dim index x
         else if decide (scatter_type self = "add"%string)
         then st_scatter_add_ output dim index x
         else mret output) σ = (Ok output, σ') ∧
        owned σ' output t' ∧ similar tout t'.
Proof.
  intros Ho Hi Hx Ht. repeat case_decide.
  - destruct (st_scatter__sim σ output dim index x _ _ _ _ Ho Hi Hx Ht)
      as (σ' & E & Ho').
    exists σ'. split_and!; [done..|]. by eapply similar_scatter.
  - destruct (st_scatter_add__sim σ output dim index x _ _ _ _ Ho Hi Hx Ht)
      as (σ' & E & Ho').
    exists σ'. split_and!; [done..|]. by eapply similar_scatter.
  - injection Ht as <-. exists σ. split_and!; [done..|]. apply similar_refl.
Qed.

(** *** The two entry points *)
Ltac st_step E :=
  rewrite ?St_bind_assoc; rewrite (St_bind_Ok _ _ _ _ _ E); cbv beta iota.

(** Run on the store, where a view shares the storage of its receiver and
    [mul_], [+=] and the scatter overwrite theirs, [forward] returns a
    tensor that reads as the value computed without any sharing: no write
    of the call reaches a tensor that it reads later under another name.
    The features and the locations are contiguous tensors of the store. *)
Theorem forward_st_computes_forward self x location spatial_size σ tx tl t :
  read σ x = Ok tx → read σ location = Ok tl →
  wf (layout x) → contiguous_layout (layout x) →
  wf (layout location) → contiguous_layout (layout location) →
  forward self tx spatial_size tl = Ok t →
  ∃ out σ', forward_st self x spatial_size location σ = (Ok out, σ') ∧
            read σ' out = Ok t.
Proof.
  intros Hx Hl Hwx Hcx Hwl Hcl Hf.
  destruct spatial_size as [H W].
  unfold forward, hpc_wrapper in Hf. unfold forward_st, hpc_wrapper.
  apply bind_Ok in Hf as ([[B M] N] & HBMN & Hf).
  apply bind_Ok in Hf as (ti0 & Hti0 & Hf).
  apply bind_Ok in Hf as (tbias & Hbias & Hf).
  apply bind_Ok in Hf as (tidx & Hidx & Hf).
  apply bind_Ok in Hf as (tidx2 & Hidx2 & Hf).
  apply bind_Ok in Hf as (tidx3 & Hidx3 & Hf).
  apply bind_Ok in Hf as (tx2 & Htx2 & Hf).
  cbv zeta in Hf.
  apply bind_Ok in Hf as (tout1 & Htout1 & Hf).
  apply bind_Ok in Hf as (tout2 & Htout2 & Hf).
  apply bind_Ok in Hf as (tout3 & Htout3 & Hf).
  apply bind_Ok in Hbias as (tb1 & Htb1 & Hbias).
  apply bind_Ok in Hbias as (tb2 & Htb2 & Hbias).
  apply bind_Ok in Hbias as (tb3 & Htb3 & Hbias).
  apply bind_Ok in Hbias as (tb4 & Htb4 & Hbias).
  injection Hbias as <-.
  apply bind_Ok in Hidx as (s0 & Hs0 & Hidx).
  apply bind_Ok in Hidx as (s0' & Hs0' & Hidx).
  apply bind_Ok in Hidx as (s1 & Hs1 & Hidx).
  apply bind_Ok in Htx2 as (tx1 & Htx1 & Htx2).
  injection Hf as <-.
  (* B, M, N = x.shape; index = location.view(-1, 2) *)
  rewrite <-(read_size _ _ _ Hx). st_step (run_Ok _ _ σ HBMN).
  destruct (st_view_read σ _ _ _ _ Hcl Hl Hti0) as (hi0 & E & Ri0 & Wi0 & _).
  st_step E. clear E. specialize (Wi0 Hwl).
  (* bias *)
  destruct (alloc_sim σ (st_arange B) (arange B) eq_refl)
    as (hb & σ1 & E & Ob & Sb & X1).
  st_step E. clear E.
  destruct (st_mul__sim _ _ _ _ _ Ob Htb1) as (σ2 & E & Ob1 & X2).
  st_step E. clear E. specialize (X2 σ X1 Sb).
  destruct (st_unsqueeze_read _ _ _ _ _ (owned_read _ _ _ Ob1) Htb2)
    as (hb2 & E & Rb2).
  st_step E. clear E.
  destruct (st_repeat_sim _ _ _ _ _ Rb2 Htb3) as (hb3 & σ3 & E & Ob3 & _ & X3).
  st_step E. clear E.
  destruct (st_view_owned _ _ _ _ _ Ob3 Htb4) as (hb4 & E & Ob4).
  st_step E. clear E.
  rewrite ?St_bind_assoc, St_ret_bind. unfold st_to_device.
  assert (X03 : extends σ σ3) by (by eapply extends_trans).
  (* index = index[:, 0] * W + index[:, 1] *)
  pose proof (extends_read _ _ _ _ X03 Ri0) as Ri3.
  destruct (st_select1_read _ _ _ _ _ Wi0 Ri3 Hs0) as (hs0 & E & Rs0).
  st_step E. clear E.
  destruct (st_mul_sim _ _ _ _ _ Rs0 Hs0') as (hm & σ4 & E & Om & _ & X4).
  st_step E. clear E.
  destruct (st_select1_read _ _ _ _ _ Wi0 (extends_read _ _ _ _ X4 Ri3) Hs1)
    as (hs1 & E & Rs1).
  st_step E. clear E.
  destruct (st_add_sim _ _ _ _ _ _ (owned_read _ _ _ Om) Rs1 Hidx)
    as (hidx & σ5 & E & Oidx & Sidx & X5).
  st_step E. clear E.
  assert (X05 : extends σ σ5) by (by repeat (eapply extends_trans; [|done])).
  (* index += bias; index = index.repeat(N, 1) *)
  destruct (st_iadd_sim _ _ _ _ _ _ Oidx (twf_add _ _ _ Hidx)
              (extends_read _ _ _ _ X5
                 (extends_read _ _ _ _ X4 (owned_read _ _ _ Ob4))) Hidx2)
    as (σ6 & E & Oidx2 & X6).
  st_step E. clear E.
  assert (X06 : extends σ σ6).
  { apply X6; [done|]. destruct X03 as [? _], X4 as [? _]. lia. }
  destruct (st_repeat_sim _ _ _ _ _ (owned_read _ _ _ Oidx2) Hidx3)
    as (hidx3 & σ7 & E & Oidx3 & _ & X7).
  st_step E. clear E.
  (* x = x.view(-1, N).permute(1, 0) *)
  pose proof (extends_read _ _ _ _ X7 (extends_read _ _ _ _ X06 Hx)) as Rx7.
  destruct (st_view_read _ _ _ _ _ Hcx Rx7 Htx1) as (hx1 & E & Rx1 & Wx1 & _).
  st_step E. clear E. specialize (Wx1 Hwx).
  destruct (st_permute_read _ _ _ _ _ Wx1 Rx1 Htx2) as (hx2 & E & Rx2).
  st_step E. clear E.
  (* output = torch.zeros(N, B * H * W); the scatter *)
  destruct (alloc_sim σ7 (st_zeros [N; B * H * W]) (zeros [N; B * H * W]) eq_refl)
    as (hout & σ8 & E & Oout & _ & X8).
  st_step E. clear E.
  destruct (st_policy_Ok self σ8 hout hidx3 hx2 1 _ _ _ _ Oout
              (extends_read _ _ _ _ X8 (owned_read _ _ _ Oidx3))
              (extends_read _ _ _ _ X8 Rx2) Htout1)
    as (σ9 & E & Oout1 & Hsim).
  st_step E. clear E.
  (* output = output.reshape(N, B, H, W).permute(1, 0, 2, 3).contiguous() *)
  unfold st_reshape.
  rewrite (decide_True (P := contiguous_layout (layout hout)))
    by (by eapply owned_contiguous).
  destruct (st_view_read _ _ _ _ _ (owned_contiguous _ _ _ Oout1)
              (owned_read _ _ _ Oout1) Htout2) as (hout2 & E & Rout2 & Wout2 & _).
  st_step E. clear E.
  specialize (Wout2 (owned_wf _ _ _ Oout1 (twf_similar _ _ Hsim (twf_zeros _)))).
  destruct (st_permute_read _ _ _ _ _ Wout2 Rout2 Htout3) as (hout3 & E & Rout3).
  st_step E. clear E.
  destruct (st_contiguous_sim _ _ _ Rout3) as (out & σ' & E & Rout).
  by exists out, σ'.
Qed.

(** The same for [xy_forward], whose coordinates may be any tensors of the
    store. *)
Theorem xy_forward_st_computes_xy_forward self x coord_x coord_y spatial_size
    σ tx tcx tcy t :
  read σ x = Ok tx → read σ coord_x = Ok tcx → read σ coord_y = Ok tcy →
  wf (layout x) →
  xy_forward self tx spatial_size tcx tcy = Ok t →
  ∃ out σ', xy_forward_st self x spatial_size coord_x coord_y σ = (Ok out, σ') ∧
            read σ' out = Ok t.
Proof.
  intros Hx Hcx Hcy Hwx Hf.
  destruct spatial_size as [H W].
  unfold xy_forward, hpc_wrapper in Hf. unfold xy_forward_st, hpc_wrapper.
  apply bind_Ok in Hf as ([[B M] N] & HBMN & Hf).
  apply bind_Ok in Hf as (tx1 & Htx1 & Hf).
  apply bind_Ok in Hf as (tidx & Hidx & Hf).
  apply bind_Ok in Hf as (tidx2 & Hidx2 & Hf).
  apply bind_Ok in Hf as (tz & Hz & Hf).
  apply bind_Ok in Hf as (tout1 & Htout1 & Hf).
  apply bind_Ok in Hf as (tout2 & Htout2 & Hf).
  injection Hf as <-.
  apply bind_Ok in Hidx as (tm & Htm & Hidx).
  apply bind_Ok in Hidx as (ts & Hts & Hidx).
  injection Hidx as <-.
  apply bind_Ok in Hidx2 as (tu & Htu & Hidx2).
  (* BatchSize, Num, EmbeddingSize = x.shape; x = x.permute(0, 2, 1) *)
  rewrite <-(read_size _ _ _ Hx). st_step (run_Ok _ _ σ HBMN).
  destruct (st_permute_read _ _ _ _ _ Hwx Hx Htx1) as (hx1 & E & Rx1).
  st_step E. clear E.
  (* indices = (coord_x * W + coord_y).long() *)
  destruct (st_mul_sim _ _ _ _ _ Hcx Htm) as (hm & σ1 & E & Om & _ & X1).
  st_step E. clear E.
  destruct (st_add_sim _ _ _ _ _ _ (owned_read _ _ _ Om)
              (extends_read _ _ _ _ X1 Hcy) Hts) as (hs & σ2 & E & Os & _ & X2).
  st_step E. clear E.
  destruct (st_long_sim _ _ _ (owned_read _ _ _ Os)) as (hl & σ3 & E & Rl & X3).
  st_step E. clear E.
  (* indices = indices.unsqueeze(dim=1).repeat(1, EmbeddingSize, 1) *)
  destruct (st_unsqueeze_read _ _ _ _ _ Rl Htu) as (hu & E & Ru).
  st_step E. clear E.
  destruct (st_repeat_sim _ _ _ _ _ Ru Hidx2) as (hidx2 & σ4 & E & Oi & _ & X4).
  st_step E. clear E.
  (* output = torch.zeros(...).view(...); the scatter *)
  destruct (alloc_sim σ4 (st_zeros [B; N; H; W]) (zeros [B; N; H; W]) eq_refl)
    as (hz & σ5 & E & Oz & _ & X5).
  st_step E. clear E.
  destruct (st_view_owned _ _ _ _ _ Oz Hz) as (hv & E & Ov).
  st_step E. clear E.
  assert (X05 : extends σ σ5) by (by repeat (eapply extends_trans; [|done])).
  destruct (st_policy_Ok self σ5 hv hidx2 hx1 2 _ _ _ _ Ov
              (extends_read _ _ _ _ X5 (owned_read _ _ _ Oi))
              (extends_read _ _ _ _ X05 Rx1) Htout1)
    as (σ6 & E & Oout1 & _).
  st_step E. clear E.
  (* output = output.view(BatchSize, EmbeddingSize, H, W) *)
  destruct (st_view_read _ _ _ _ _ (owned_contiguous _ _ _ Oout1)
              (owned_read _ _ _ Oout1) Htout2) as (hout2 & E & Rout2 & _).
  st_step E. clear E.
  by exists hout2, σ6.
Qed.
End simulation.

(** * Further properties of the module *)

(** Two arrays of one shape with the same elements are equal. *)
Lemma nd_ext {A} `{!Inhabited A} (a b : ndarray A) :
  shape a = shape b → wf a → wf b →
  (∀ I, inb I (shape a) → get a I = get b I) → a = b.
Proof.
  destruct a as [s d], b as [s' d']. unfold wf, get. cbn [shape data].
  intros <- Hd Hd' Hget. f_equal.
  apply list_eq_same_length with (numel s); [done..|].
  intros k x y Hk Hx Hy.
  specialize (Hget (unravel s k) (unravel_inb s k Hk)).
  rewrite ravel_unravel in Hget by done.
  apply list_lookup_total_correct in Hx, Hy. congruence.
Qed.

Lemma grid_ext {A} `{!Inhabited A} (o o' : ndarray A) B N H W :
  shape o = [B; N; H; W] → shape o' = [B; N; H; W] → wf o → wf o' →
  (∀ b n h w, b < B → n < N → h < H → w < W →
     get o [b; n; h; w] = get o' [b; n; h; w]) →
  o = o'.
Proof.
  intros Hs Hs' Hwf Hwf' Hget. apply nd_ext; [congruence|done..|].
  rewrite Hs. intros I HI. inb_destruct HI. by apply Hget.
Qed.


Section more_properties.
Context {F : Type} `{!FloatOps F}.

End more_properties.

(** The two entry points agree: [forward] on the locations [(row, column)]
    returns what [xy_forward] returns on the rows as [coord_x] and the
    columns as [coord_y], for in-range locations and at least one
    channel. *)
Theorem forward_agrees_with_xy_forward {F : Type} `{!FloatOps F} self
    (xa : ndarray F) (la ca cb : ndarray Z) B M N H W :
  shape xa = [B; M; N] → 0 < N → sizes_fit B H W →
  shape la = [B; M; 2] → locations_in_range la B M H W →
  shape ca = [B; M] → shape cb = [B; M] → wf ca →
  (∀ b m, b < B → m < M →
     get ca [b; m] = loc_row la b m ∧ get cb [b; m] = loc_col la b m) →
  ∃ o, forward self (TFloat xa) (H, W) (TLong la) = Ok o ∧
       xy_forward self (TFloat xa) (H, W) (TLong ca) (TLong cb) = Ok o.
Proof.
  intros Hx HN Hfit Hl Hloc Ha Hb Hwf Hsame.
  pose proof Hfit as (HW & HHW & _).
  assert (Hco : coords_in_range ca cb B M H W).
  { intros b m Hb' Hm. destruct (Hsame b m Hb' Hm) as [-> ->]. by apply Hloc. }
  destruct (forward_cells self xa la B M N H W) as (o & Ho & Hs & Hwfo & Hget);
    [done || by apply in_range_accepted ..|].
  destruct (xy_forward_cells self xa ca cb B M N H W)
    as (o' & Ho' & Hs' & Hwfo' & Hget');
    [done || by apply in_range_xy_accepted ..|].
  exists (TFloat o). split; [done|]. rewrite Ho'. do 2 f_equal.
  symmetry. apply (grid_ext o o' B N H W); [done..|].
  intros b n h w Hb' Hn Hh Hw. rewrite Hget, Hget' by done. f_equal.
  apply writes_at_ext. intros e He%elem_of_indices. split; [|done].
  rewrite (fwd_hit_iff la B M), (xy_hit_iff ca cb B M) by done.
  split; intros (m & -> & Hm & Hr & Hc); exists m;
    destruct (Hsame b m Hb' Hm) as [Er Ec]; repeat split; congruence.
Qed.


(** ** Addresses outside the buffer *)

Lemma nd_scatter_out_of_bounds {A} `{!Inhabited A} (upd : A → A → A) dim
    (self : ndarray A) (index : ndarray Z) (src : ndarray A) I :
  numel (shape index) ≠ 0 → inb I (shape index) →
  ¬ (0 ≤ get index I < Z.of_nat (shape self !!! dim))%Z →
  nd_scatter upd dim self index src = Raise RuntimeError.
Proof.
  intros Hn HI Hbad. unfold nd_scatter. rewrite decide_False by done.
  case_decide; [|done]. by rewrite (scatter_loop_raise upd dim self index src I).
Qed.

Section out_of_bounds.
Context {F : Type} `{!FloatOps F}.

Lemma policy_raise self dim (o i s : tensor F)
    (k : tensor F → result (tensor F)) :
  scatter_type self ∈ ["cover"; "add"]%string →
  scatter_ o dim i s = Raise RuntimeError →
  scatter_add_ o dim i s = Raise RuntimeError →
  (output ← (if decide (scatter_type self = "cover"%string)
             then scatter_ o dim i s
             else if decide (scatter_type self = "add"%string)
             then scatter_add_ o dim i s
             else mret o);
   k output) = Raise RuntimeError.
Proof.
  intros Hp Hc Ha. repeat case_decide.
  - by rewrite Hc.
  - by rewrite Ha.
  - apply policy_cases in Hp. tauto.
Qed.

Lemma scatter_zeros_out_of_bounds updL (updF : F → F → F) dim s
    (ia : ndarray Z) (sa : ndarray F) I :
  dim < length s → numel (shape ia) ≠ 0 → inb I (shape ia) →
  ¬ (0 ≤ get ia I < Z.of_nat (s !!! dim))%Z →
  scatter_with updL updF (zeros s) dim (TLong ia) (TFloat sa)
  = Raise RuntimeError.
Proof.
  intros Hdim Hn HI Hbad. unfold scatter_with, zeros. cbn [size shape].
  rewrite decide_True by done. cbn [mbind result_bind].
  by rewrite (nd_scatter_out_of_bounds _ _ _ _ _ I).
Qed.
End out_of_bounds.

(** [forward] does no bounds check of its own, the scatter does one on the
    linear address: an entity whose address [row * W + col + b * H * W]
    falls outside the [B * H * W] cells of the buffer makes the call raise
    [RuntimeError], and no output is returned. *)
Theorem forward_rejects_address_outside_buffer {F : Type} `{!FloatOps F} self
    (xa : ndarray F) (la : ndarray Z) B M N H W b m :
  scatter_type self ∈ ["cover"; "add"]%string →
  shape xa = [B; M; N] → shape la = [B; M; 2] → 0 < N →
  int64_range (Z.of_nat W) → int64_range (Z.of_nat (H * W)) →
  b < B → m < M →
  ¬ (0 ≤ fwd_address la H W [b; m] < Z.of_nat (B * H * W))%Z →
  forward self (TFloat xa) (H, W) (TLong la) = Raise RuntimeError.
Proof.
  intros Hp Hx Hl HN HW HHW Hb Hm Hbad.
  rewrite (forward_unfold _ _ _ B M N) by done.
  assert (Hin : inb [b; m] [B; M]) by inb_solve.
  pose proof (ravel_lt _ _ Hin) as Hlt. cbn [numel] in Hlt.
  assert (Hget : get (fwd_index la B M N H W) [0; ravel [B; M] [b; m]]
                 = fwd_address la H W [b; m]).
  { unfold fwd_index. rewrite get_tab by inb_solve.
    cbn [lookup_total list_lookup_total]. by rewrite unravel_ravel. }
  apply policy_raise; [done|..].
  all: apply (scatter_zeros_out_of_bounds _ _ _ _ _ _ [0; ravel [B; M] [b; m]]);
    [simpl; lia | cbn [fwd_index tab shape]; destruct B, M, N; simpl; lia
    | cbn [fwd_index tab shape]; inb_solve
    | by rewrite Hget].
Qed.

(** [xy_forward] scatters within the [H * W] cells of one batch element: an
    entity whose cell index [coord_x * W + coord_y] falls outside them
    makes the call raise [RuntimeError]. *)
Theorem xy_forward_rejects_index_outside_grid {F : Type} `{!FloatOps F} self
    (xa : ndarray F) (ca cb : ndarray Z) B M N H W b m :
  scatter_type self ∈ ["cover"; "add"]%string →
  shape xa = [B; M; N] → shape ca = [B; M] → shape cb = [B; M] → wf ca →
  0 < N → int64_range (Z.of_nat W) → b < B → m < M →
  ¬ (0 ≤ xy_long_index ca cb W [b; m] < Z.of_nat (H * W))%Z →
  xy_forward self (TFloat xa) (H, W) (TLong ca) (TLong cb) = Raise RuntimeError.
Proof.
  intros Hp Hx Ha Hcb Hwf HN HW Hb Hm Hbad.
  rewrite (xy_unfold self xa (tab [B; M] (xy_long_index ca cb W)) _ _ B M N)
    by (done || by apply xy_indices_long).
  assert (Hget : get (xy_index (tab [B; M] (xy_long_index ca cb W)) B M N) [b; 0; m]
                 = xy_long_index ca cb W [b; m]).
  { unfold xy_index. rewrite get_tab by inb_solve.
    cbn [lookup_total list_lookup_total]. by rewrite get_tab by inb_solve. }
  apply policy_raise; [done|..].
  all: apply (scatter_zeros_out_of_bounds _ _ _ _ _ _ [b; 0; m]);
    [simpl; lia | cbn [xy_index tab shape]; destruct B, M, N; simpl; lia
    | cbn [xy_index tab shape]; inb_solve
    | by rewrite Hget].
Qed.

(** An out-of-range location that [forward] accepts is written where its
    linear address points, in another row or in another batch element:
    under ['cover'] the cell of the address [a = row * W + col + b * H * W]
    of an entity, which is the cell [(a / (H * W), a mod (H * W) / W,
    a mod W)], holds the features of the last entity with that address. *)
Theorem forward_writes_at_linear_address {F : Type} `{!FloatOps F} self
    (xa : ndarray F) (la : ndarray Z) B M N H W b m n :
  scatter_type self = "cover"%string →
  shape xa = [B; M; N] → shape la = [B; M; 2] →
  int64_range (Z.of_nat W) → int64_range (Z.of_nat (H * W)) →
  fwd_accepted la B M H W → b < B → m < M → n < N →
  (∀ e, inb e [B; M] → ravel [B; M] [b; m] < ravel [B; M] e →
        fwd_address la H W e ≠ fwd_address la H W [b; m]) →
  ∃ o, forward self (TFloat xa) (H, W) (TLong la) = Ok (TFloat o) ∧
       let a := Z.to_nat (fwd_address la H W [b; m]) in
       get o [a / (H * W); n; a mod (H * W) / W; a mod W] = get xa [b; m; n].
Proof.
  intros Hcover Hx Hl HW HHW Hacc Hb Hm Hn Hlast.
  assert (Hin : inb [b; m] [B; M]) by inb_solve.
  destruct (indices_split [B; M] [b; m] Hin) as (pre & post & Hsplit & _ & Hpost).
  rewrite Forall_forall in Hpost.
  destruct (forward_cells self xa la B M N H W) as (o & Ho & _ & _ & Hget);
    [done || lia ..|].
  exists o. split; [done|]. cbv zeta.
  pose proof (Hacc _ Hin) as Hr.
  set (a := Z.to_nat (fwd_address la H W [b; m])) in *.
  assert (Ha : a < B * (H * W)) by lia.
  assert (HHW0 : H * W ≠ 0) by lia. assert (HW0 : W ≠ 0) by lia.
  pose proof (Nat.div_mod_eq a (H * W)) as E1.
  pose proof (Nat.mod_upper_bound a (H * W) HHW0) as L1.
  pose proof (Nat.div_mod_eq (a mod (H * W)) W) as E2.
  pose proof (Nat.mod_upper_bound (a mod (H * W)) W HW0) as L2.
  assert (Hmod : a mod (H * W) mod W = a mod W).
  { rewrite (Nat.mul_comm H W), Nat.Div0.mod_mul_r.
    rewrite (Nat.mul_comm W), Nat.Div0.mod_add. apply Nat.Div0.mod_mod. }
  rewrite Hmod in *.
  assert (Hb' : a / (H * W) < B) by (apply Nat.Div0.div_lt_upper_bound; lia).
  assert (Hh' : a mod (H * W) / W < H).
  { apply Nat.Div0.div_lt_upper_bound. lia. }
  rewrite Hget by done.
  replace (a / (H * W) * (H * W) + a mod (H * W) / W * W + a mod W) with a by lia.
  rewrite policy_upd_cover, Hsplit by done.
  rewrite writes_at_last; [done|unfold a; lia|].
  intros e He. destruct (Hpost e He) as [Hine Hlater].
  intros E. apply (Hlast e); [done..|]. unfold a in E. lia.
Qed.

(** ** Degenerate and reshaped inputs *)

Lemma indices_1 M : indices [M] = (λ m, [m]) <$> seq 0 M.
Proof.
  unfold indices. cbn [numel]. rewrite Nat.mul_1_r.
  apply list_fmap_ext. intros i k [-> Hk]%lookup_seq.
  cbn [unravel numel Nat.add]. by rewrite Nat.div_1_r.
Qed.

Lemma indices_empty s : numel s = 0 → indices s = [].
Proof. intros Hs. apply length_zero_iff_nil. by rewrite length_indices. Qed.

Lemma omap_decide_filter {A B} (P : A → Prop) `{!∀ x, Decision (P x)}
    (f : A → B) (l : list A) :
  omap (λ x, if decide (P x) then Some (f x) else None) l = f <$> filter P l.
Proof.
  induction l as [|x l IH]; [done|]. cbn [omap list_omap].
  destruct (decide (P x)).
  - rewrite filter_cons_True by done. by rewrite fmap_cons, IH.
  - by rewrite filter_cons_False.
Qed.

(** Both entry points start with [B, M, N = x.shape]: features that are
    not 3-dimensional raise [ValueError], whatever the other arguments. *)
Theorem entry_points_need_three_dimensions {F : Type} `{!FloatOps F} self
    (x location coord_x coord_y : tensor F) (spatial_size : nat * nat) :
  length (size x) ≠ 3 →
  forward self x spatial_size location = Raise ValueError ∧
  xy_forward self x spatial_size coord_x coord_y = Raise ValueError.
Proof.
  intros Hrank. unfold forward, xy_forward, hpc_wrapper.
  destruct (size x) as [|a [|b [|c [|d s]]]]; simpl in Hrank; try lia; done.
Qed.

(** [forward] reads the locations through [view(-1, 2)]: only their
    elements in row-major order count, not the shape they come in. *)
Theorem forward_reads_locations_flat {F : Type} `{!FloatOps F} self
    (x : tensor F) (spatial_size : nat * nat) (la la' : ndarray Z) :
  numel (shape la) = numel (shape la') → data la = data la' →
  forward self x spatial_size (TLong la) = forward self x spatial_size (TLong la').
Proof.
  intros Hn Hd. unfold forward, hpc_wrapper.
  assert (Hview : view (F:=F) (TLong la) [-1; 2]%Z = view (TLong la') [-1; 2]%Z).
  { unfold view, lift, nd_view. by rewrite Hn, Hd. }
  by rewrite Hview.
Qed.

(** Without entities, both entry points return the zero grid. *)
Theorem no_entities_all_zero {F : Type} `{!FloatOps F} self
    (xa : ndarray F) (la ca cb : ndarray Z) B N H W :
  shape xa = [B; 0; N] →
  int64_range (Z.of_nat W) → int64_range (Z.of_nat (H * W)) →
  (0 < N → shape la = [B; 0; 2] →
   forward self (TFloat xa) (H, W) (TLong la) = Ok (zeros [B; N; H; W])) ∧
  (shape ca = [B; 0] → shape cb = [B; 0] → wf ca →
   xy_forward self (TFloat xa) (H, W) (TLong ca) (TLong cb)
   = Ok (zeros [B; N; H; W])).
Proof.
  intros Hx HW HHW.
  assert (Hnil : indices [B; 0] = []) by (apply indices_empty; simpl; lia).
  assert (Hz : wf (NDArray [B; N; H; W] (replicate (numel [B; N; H; W]) (fzero (F:=F))))).
  { unfold wf. cbn [data shape]. by rewrite length_replicate. }
  split.
  - intros HN Hl.
    destruct (forward_cells self xa la B 0 N H W) as (o & -> & Hs & Hwf & Hget);
      [done..| |].
    { intros e He. inb_destruct He. lia. }
    unfold zeros. apply (f_equal (λ o, Ok (TFloat o))).
    apply (grid_ext _ _ B N H W); [done..|].
    intros b n h w Hb Hn Hh Hw. rewrite Hget, Hnil by done.
    by rewrite get_zeros_like by inb_solve.
  - intros Ha Hb Hwf.
    destruct (xy_forward_cells self xa ca cb B 0 N H W)
      as (o & -> & Hs & Hwfo & Hget); [done..| |].
    { intros e He. inb_destruct He. lia. }
    unfold zeros. apply (f_equal (λ o, Ok (TFloat o))).
    apply (grid_ext _ _ B N H W); [done..|].
    intros b n h w Hb' Hn Hh Hw. rewrite Hget, Hnil by done.
    by rewrite get_zeros_like by inb_solve.
Qed.

(** The branches of the scatter test ['cover'] and ['add'] only: under any
    other value of [scatter_type] nothing is scattered, and both entry
    points return the zero grid, whatever the integer locations are. *)
Theorem unknown_policy_scatters_nothing {F : Type} `{!FloatOps F} self
    (xa : ndarray F) (la ca cb : ndarray Z) B M N H W :
  scatter_type self ∉ ["cover"; "add"]%string →
  shape xa = [B; M; N] →
  int64_range (Z.of_nat W) → int64_range (Z.of_nat (H * W)) →
  (0 < N → shape la = [B; M; 2] →
   forward self (TFloat xa) (H, W) (TLong la) = Ok (zeros [B; N; H; W])) ∧
  (shape ca = [B; M] → shape cb = [B; M] → wf ca →
   xy_forward self (TFloat xa) (H, W) (TLong ca) (TLong cb)
   = Ok (zeros [B; N; H; W])).
Proof.
  intros Hp Hx HW HHW.
  apply not_elem_of_cons in Hp as [Hc Hp].
  apply not_elem_of_cons in Hp as [Ha _].
  split.
  - intros HN Hl. rewrite (forward_unfold _ _ _ B M N) by done.
    rewrite !decide_False by done. cbn [mbind result_bind mret result_ret].
    unfold reshape, zeros. rewrite view_float_exact by (simpl; lia).
    cbn [mbind result_bind].
    rewrite (permute_float_1023 _ N B H W) by done.
    cbn [mbind result_bind mret result_ret contiguous].
    apply (f_equal (λ o, Ok (TFloat o))).
    apply (grid_ext _ _ B N H W);
      [done | done | apply wf_tab
      | unfold wf; cbn [data shape]; by rewrite length_replicate |].
    intros b n h w Hb Hn Hh Hw. rewrite get_tab by inb_solve.
    cbn [lookup_total list_lookup_total].
    cbn [data].
    replace (numel [N; B * H * W]) with (numel [N; B; H; W]) by (simpl; lia). rewrite get_zeros_like by inb_solve.
    replace (numel [N; B; H; W]) with (numel [B; N; H; W]) by (simpl; lia).
    by rewrite get_zeros_like by inb_solve.
  - intros Hca Hcb Hwf.
    rewrite (xy_unfold self xa (tab [B; M] (xy_long_index ca cb W)) _ _ B M N)
      by (done || by apply xy_indices_long).
    rewrite !decide_False by done. cbn [mbind result_bind mret result_ret].
    unfold zeros. rewrite view_float_exact by (simpl; lia).
    cbn [data].
    by replace (numel [B; N; H * W]) with (numel [B; N; H; W]) by (simpl; lia).
Qed.

(** ** Channels, batch elements and sums *)

(** Channels are scattered independently: channel [n] of the output
    depends on channel [n] of the features only, on every call that the
    scatter accepts. *)
Theorem channels_are_independent {F : Type} `{!FloatOps F} self
    (xa xa' : ndarray F) (la ca cb : ndarray Z) B M N H W n :
  shape xa = [B; M; N] → shape xa' = [B; M; N] →
  int64_range (Z.of_nat W) → int64_range (Z.of_nat (H * W)) → n < N →
  (∀ b m, b < B → m < M → get xa [b; m; n] = get xa' [b; m; n]) →
  (shape la = [B; M; 2] → fwd_accepted la B M H W →
   ∃ o o', forward self (TFloat xa) (H, W) (TLong la) = Ok (TFloat o) ∧
           forward self (TFloat xa') (H, W) (TLong la) = Ok (TFloat o') ∧
           ∀ b h w, b < B → h < H → w < W →
             get o [b; n; h; w] = get o' [b; n; h; w]) ∧
  (shape ca = [B; M] → shape cb = [B; M] → wf ca → xy_accepted ca cb B M H W →
   ∃ o o', xy_forward self (TFloat xa) (H, W) (TLong ca) (TLong cb) = Ok (TFloat o) ∧
           xy_forward self (TFloat xa') (H, W) (TLong ca) (TLong cb) = Ok (TFloat o') ∧
           ∀ b h w, b < B → h < H → w < W →
             get o [b; n; h; w] = get o' [b; n; h; w]).
Proof.
  intros Hx Hx' HW HHW Hn Hsame.
  assert (Hval : ∀ e, e ∈ indices [B; M] → get xa (e ++ [n]) = get xa' (e ++ [n])).
  { intros e He%elem_of_indices. inb_destruct He. by apply Hsame. }
  split.
  - intros Hl Hacc.
    destruct (forward_cells self xa la B M N H W) as (o & Ho & _ & _ & Hget);
      [done || lia ..|].
    destruct (forward_cells self xa' la B M N H W) as (o' & Ho' & _ & _ & Hget');
      [done || lia ..|].
    exists o, o'. split; [done|]. split; [done|].
    intros b h w Hb Hh Hw. rewrite Hget, Hget' by done. f_equal.
    apply writes_at_ext. intros e He. split; [done|]. intros _. by apply Hval.
  - intros Ha Hb Hwf Hacc.
    destruct (xy_forward_cells self xa ca cb B M N H W)
      as (o & Ho & _ & _ & Hget); [done..|].
    destruct (xy_forward_cells self xa' ca cb B M N H W)
      as (o' & Ho' & _ & _ & Hget'); [done..|].
    exists o, o'. split; [done|]. split; [done|].
    intros b h w Hb' Hh Hw. rewrite Hget, Hget' by done. f_equal.
    apply writes_at_ext. intros e He. split; [done|]. intros _. by apply Hval.
Qed.

(** [xy_forward] scatters along the cells of one batch element, so batch
    elements stay apart on every call it accepts, also when a coordinate
    is out of range: two accepted calls that differ in batch element [b]
    only agree on every other batch element. *)
Theorem xy_forward_keeps_batches_apart {F : Type} `{!FloatOps F} self
    (xa xa' : ndarray F) (ca cb ca' cb' : ndarray Z) B M N H W b b' n h w :
  shape xa = [B; M; N] → shape xa' = [B; M; N] →
  shape ca = [B; M] → shape cb = [B; M] → wf ca →
  shape ca' = [B; M] → shape cb' = [B; M] → wf ca' →
  int64_range (Z.of_nat W) →
  xy_accepted ca cb B M H W → xy_accepted ca' cb' B M H W →
  (∀ b1 m k, b1 ≠ b → b1 < B → m < M → k < N →
     get xa [b1; m; k] = get xa' [b1; m; k]) →
  (∀ b1 m, b1 ≠ b → b1 < B → m < M →
     get ca [b1; m] = get ca' [b1; m] ∧ get cb [b1; m] = get cb' [b1; m]) →
  b' < B → b' ≠ b → n < N → h < H → w < W →
  ∃ o o', xy_forward self (TFloat xa) (H, W) (TLong ca) (TLong cb) = Ok (TFloat o) ∧
          xy_forward self (TFloat xa') (H, W) (TLong ca') (TLong cb') = Ok (TFloat o') ∧
          get o [b'; n; h; w] = get o' [b'; n; h; w].
Proof.
  intros Hx Hx' Ha Hb Hwf Ha' Hb' Hwf' HW Hacc Hacc' Hfeat Hsame Hlt Hne Hn Hh Hw.
  destruct (xy_forward_cells self xa ca cb B M N H W)
    as (o & Ho & _ & _ & Hget); [done..|].
  destruct (xy_forward_cells self xa' ca' cb' B M N H W)
    as (o' & Ho' & _ & _ & Hget'); [done..|].
  exists o, o'. split; [done|]. split; [done|].
  rewrite Hget, Hget' by done. f_equal. apply writes_at_ext.
  intros e He%elem_of_indices. inb_destruct He.
  rewrite !(xy_address_targets _ _ B M H W) by done.
  unfold xy_targets, xy_long_index. split.
  - split; intros [-> E]; (split; [done|]);
      destruct (Hsame b' i0) as [Ea Eb]; try done; congruence.
  - intros [-> _]. cbn [app]. by apply Hfeat.
Qed.

(** Under ['add'] a cell holds the sum of all the entities of its batch
    element that sit at it: the features of the entities [m] at the cell,
    in increasing order of [m], added up from zero. *)
Theorem accumulate_sums_all {F : Type} `{!FloatOps F} self (xa : ndarray F)
    (la ca cb : ndarray Z) B M N H W b n h w :
  scatter_type self = "add"%string →
  shape xa = [B; M; N] → sizes_fit B H W →
  b < B → n < N → h < H → w < W →
  (shape la = [B; M; 2] → locations_in_range la B M H W →
   ∃ o, forward self (TFloat xa) (H, W) (TLong la) = Ok (TFloat o) ∧
        get o [b; n; h; w]
        = foldl fadd fzero
            ((λ m, get xa [b; m; n]) <$>
             filter (λ m, loc_row la b m = Z.of_nat h ∧ loc_col la b m = Z.of_nat w)
                    (seq 0 M))) ∧
  (shape ca = [B; M] → shape cb = [B; M] → wf ca →
   coords_in_range ca cb B M H W →
   ∃ o, xy_forward self (TFloat xa) (H, W) (TLong ca) (TLong cb) = Ok (TFloat o) ∧
        get o [b; n; h; w]
        = foldl fadd fzero
            ((λ m, get xa [b; m; n]) <$>
             filter (λ m, get ca [b; m] = Z.of_nat h ∧ get cb [b; m] = Z.of_nat w)
                    (seq 0 M))).
Proof.
  intros Hadd Hx Hfit Hb Hn Hh Hw. pose proof Hfit as (HW & HHW & _).
  assert (Hsel : ∀ (addr : list nat → Z) (P : nat → Prop) (HP : ∀ m, Decision (P m)),
            (∀ e, inb e [B; M] →
               addr e = Z.of_nat (b * (H * W) + h * W + w)
               ↔ ∃ m, e = [b; m] ∧ m < M ∧ P m) →
            writes_at addr (λ e, get xa (e ++ [n]))
              (b * (H * W) + h * W + w) (indices [B; M])
            = (λ m, get xa [b; m; n]) <$> filter P (seq 0 M)).
  { intros addr P HP Hiff. unfold writes_at.
    rewrite (omap_indices_block _ B [M] b); [|done|]; last first.
    { intros i I Hi HI Hne. rewrite decide_False; [done|].
      rewrite Hiff by (by apply inb_cons). intros (m & [= ? _] & _). done. }
    rewrite indices_1, omap_fmap_compose.
    rewrite <-(omap_decide_filter P). apply omap_ext_in.
    intros m [_ Hm]%elem_of_seq. simpl in Hm.
    destruct (decide (P m)) as [Hp|Hp].
    - rewrite decide_True; [done|]. apply Hiff; [inb_solve|]. by exists m.
    - rewrite decide_False; [done|].
      rewrite Hiff by inb_solve. intros (m' & [= <-] & _ & ?). done. }
  split.
  - intros Hl Hloc.
    destruct (forward_cells self xa la B M N H W) as (o & Ho & _ & _ & Hget);
      [done || lia || by apply in_range_accepted ..|].
    exists o. split; [done|]. rewrite Hget, policy_upd_add by done. f_equal.
    apply (Hsel _ _ _). intros e He. rewrite (fwd_hit_iff la B M) by done.
    split; intros (m & -> & Hm & Hr); exists m; destruct Hr; by repeat split.
  - intros Ha Hcb Hwf Hco.
    destruct (xy_forward_cells self xa ca cb B M N H W)
      as (o & Ho & _ & _ & Hget);
      [done || by apply in_range_xy_accepted ..|].
    exists o. split; [done|]. rewrite Hget, policy_upd_add by done. f_equal.
    apply (Hsel _ _ _). intros e He. rewrite (xy_hit_iff ca cb B M) by done.
    split; intros (m & -> & Hm & Hr); exists m; destruct Hr; by repeat split.
Qed.

(** ** Dtypes *)

Section dtypes.
Context {F : Type} `{!FloatOps F}.

Lemma lift_is_float (op : ∀ A, Inhabited A → ndarray A → result (ndarray A))
    (t t' : tensor F) :
  lift op t = Ok t' → is_float t' = is_float t.
Proof.
  destruct t as [a|a]; cbn [lift]; by intros (a' & _ & ->)%fmap_Ok.
Qed.

Lemma scatter_float_is_float updL updF (o : ndarray F) dim
    (index src t : tensor F) :
  scatter_with updL updF (TFloat o) dim index src = Ok t →
  is_float t = true ∧ is_float src = true.
Proof.
  unfold scatter_with. case_decide; [|done].
  intros (i & _ & Ht)%bind_Ok. destruct src as [a|a]; [done|].
  by apply fmap_Ok in Ht as (o' & _ & ->).
Qed.

Lemma policy_is_float self (o : ndarray F) dim (index src t : tensor F) :
  (if decide (scatter_type self = "cover"%string)
   then scatter_ (TFloat o) dim index src
   else if decide (scatter_type self = "add"%string)
   then scatter_add_ (TFloat o) dim index src
   else mret (TFloat o)) = Ok t →
  is_float t = true ∧
  (scatter_type self ∈ ["cover"; "add"]%string → is_float src = true).
Proof.
  repeat case_decide.
  - intros [? ?]%scatter_float_is_float. done.
  - intros [? ?]%scatter_float_is_float. done.
  - intros [= <-]. split; [done|]. intros [?|?]%policy_cases; done.
Qed.

Lemma forward_dtypes self (x location t : tensor F) spatial_size :
  forward self x spatial_size location = Ok t →
  is_float t = true ∧
  (scatter_type self ∈ ["cover"; "add"]%string → is_float x = true).
Proof.
  intros Hf. destruct spatial_size as [H W].
  unfold forward, hpc_wrapper in Hf.
  apply bind_Ok in Hf as ([[B M] N] & _ & Hf).
  do 5 apply bind_Ok in Hf as (? & _ & Hf).
  apply bind_Ok in Hf as (tx2 & Htx2 & Hf). cbv zeta in Hf.
  apply bind_Ok in Hf as (tout1 & Htout1 & Hf).
  apply bind_Ok in Hf as (tout2 & Htout2 & Hf).
  apply bind_Ok in Hf as (tout3 & Htout3 & Hf).
  injection Hf as <-. unfold contiguous.
  apply bind_Ok in Htx2 as (tx1 & Htx1 & Htx2).
  apply lift_is_float in Htx1, Htx2, Htout2, Htout3.
  apply policy_is_float in Htout1 as [Hout Hsrc].
  split; [congruence|]. intros Hp. specialize (Hsrc Hp). congruence.
Qed.

Lemma xy_forward_dtypes self (x coord_x coord_y t : tensor F) spatial_size :
  xy_forward self x spatial_size coord_x coord_y = Ok t →
  is_float t = true ∧
  (scatter_type self ∈ ["cover"; "add"]%string → is_float x = true).
Proof.
  intros Hf. destruct spatial_size as [H W].
  unfold xy_forward, hpc_wrapper in Hf.
  apply bind_Ok in Hf as ([[B M] N] & _ & Hf).
  apply bind_Ok in Hf as (tx1 & Htx1 & Hf).
  do 2 apply bind_Ok in Hf as (? & _ & Hf).
  apply bind_Ok in Hf as (tz & Hz & Hf).
  apply bind_Ok in Hf as (tout1 & Htout1 & Hf).
  apply bind_Ok in Hf as (tout2 & Htout2 & Hf).
  injection Hf as <-.
  apply lift_is_float in Htx1, Htout2.
  unfold zeros in Hz. rewrite view_float_exact in Hz by (simpl; lia).
  injection Hz as <-.
  apply policy_is_float in Htout1 as [Hout Hsrc].
  split; [congruence|]. intros Hp. specialize (Hsrc Hp). congruence.
Qed.
End dtypes.

(** The output is allocated by [torch.zeros]: whatever the dtypes of the
    arguments, an output that [forward] or [xy_forward] returns is of the
    float dtype. *)
Theorem output_is_float {F : Type} `{!FloatOps F} self
    (x location coord_x coord_y t : tensor F) spatial_size :
  (forward self x spatial_size location = Ok t → is_float t = true) ∧
  (xy_forward self x spatial_size coord_x coord_y = Ok t → is_float t = true).
Proof.
  split; intros Hf.
  - by apply forward_dtypes in Hf as [? _].
  - by apply xy_forward_dtypes in Hf as [? _].
Qed.

(** The scatter wants source and destination of one dtype: under ['cover']
    and ['add'] neither entry point returns an output for features of the
    int64 dtype, whatever the other arguments are. *)
Theorem features_must_be_float {F : Type} `{!FloatOps F} self
    (xa : ndarray Z) (location coord_x coord_y : tensor F) spatial_size :
  scatter_type self ∈ ["cover"; "add"]%string →
  is_ok (forward self (TLong xa) spatial_size location) = false ∧
  is_ok (xy_forward self (TLong xa) spatial_size coord_x coord_y) = false.
Proof.
  intros Hp. split.
  - destruct (forward self (TLong xa) spatial_size location) as [t|e] eqn:Hf;
      [|done].
    apply forward_dtypes in Hf as [_ Hx]. by specialize (Hx Hp).
  - destruct (xy_forward self (TLong xa) spatial_size coord_x coord_y)
      as [t|e] eqn:Hf; [|done].
    apply xy_forward_dtypes in Hf as [_ Hx]. by specialize (Hx Hp).
Qed.

(** ** The shape function *)

(** However the call passes [x] and [spatial_size], by position or by
    keyword, the shape function returns the same list: the dimensions of
    [x], the entries of [spatial_size], and the policy of the module, that
    is [B, M, N, H, W, scatter_type]. *)
Theorem shape_fn_positional_or_keyword {F : Type} `{!FloatOps F} self
    (x : tensor F) (sz : list Z) (rest : list (pyobj F))
    (kwargs : gmap string (pyobj F)) :
  let expected :=
    ((λ d, PInt (Z.of_nat d)) <$> size x) ++ (PInt <$> sz)
      ++ [PStr (scatter_type self)] in
  shape_fn_scatter_connection
    (PModule self :: PTensor x :: PTuple sz :: rest) kwargs = Returns expected ∧
  (kwargs !! "spatial_size"%string = Some (PTuple sz) →
   shape_fn_scatter_connection [PModule self; PTensor x] kwargs
   = Returns expected) ∧
  (kwargs !! "x"%string = Some (PTensor x) →
   kwargs !! "spatial_size"%string = Some (PTuple sz) →
   shape_fn_scatter_connection [PModule self] kwargs = Returns expected).
Proof.
  intros expected. unfold shape_fn_scatter_connection, expected. split; [|split].
  - repeat case_decide; try (simpl in *; lia). cbn. by rewrite <-app_assoc.
  - intros Hs. repeat case_decide; try (simpl in *; lia).
    unfold getitem. rewrite Hs. cbn. by rewrite <-app_assoc.
  - intros Hx Hs. repeat case_decide; try (simpl in *; lia).
    unfold getitem. rewrite Hx, Hs. cbn. by rewrite <-app_assoc.
Qed.

(** What the shape function does with a call that lacks an argument: a
    missing keyword raises [KeyError], and without the module as first
    positional argument it never returns, even when [x] and
    [spatial_size] are both given by keyword. *)
Theorem shape_fn_missing_arguments {F : Type} `{!FloatOps F}
    (args : list (pyobj F)) (kwargs : gmap string (pyobj F)) :
  (length args ≤ 1 → kwargs !! "x"%string = None →
   shape_fn_scatter_connection args kwargs = Raises (KeyError "x")) ∧
  (∀ me x, args = [me; PTensor x] → kwargs !! "spatial_size"%string = None →
   shape_fn_scatter_connection args kwargs = Raises (KeyError "spatial_size")) ∧
  (args = [] → ∀ l, shape_fn_scatter_connection args kwargs ≠ Returns l).
Proof.
  unfold shape_fn_scatter_connection. split; [|split].
  - intros Hlen Hx. rewrite decide_True by done. unfold getitem. by rewrite Hx.
  - intros me x -> Hs. repeat case_decide; try (simpl in *; lia).
    unfold getitem. rewrite Hs. done.
  - intros -> l. repeat case_decide; try (simpl in *; lia).
    destruct (getitem kwargs "x" ≫= shape_list) as [tmp|e]; [|done].
    cbn [mbind outcome_bind].
    destruct (getitem kwargs "spatial_size" ≫= extend tmp) as [tmp'|e]; done.
Qed.

(** ** The layout of the output *)

Section store_output.
Context {F : Type} `{!FloatOps F}.

Lemma St_bind_inv {A B} (m : St F A) (k : A → St F B) σ b σ' :
  (m ≫= k) σ = (Ok b, σ') → ∃ a σ1, m σ = (Ok a, σ1) ∧ k a σ1 = (Ok b, σ').
Proof.
  unfold mbind, St_bind. destruct (m σ) as [[a|e] σ1]; [|done].
  intros E. by exists a, σ1.
Qed.

Lemma covering_contiguous n (t : tensor F) :
  contiguous_layout (layout (covering n t)).
Proof.
  unfold contiguous_layout, covering. cbn [layout data].
  rewrite length_seq. by destruct (tdata_length t).
Qed.

Lemma st_contiguous_layout h (σ σ' : list (storage F)) out :
  st_contiguous h σ = (Ok out, σ') → contiguous_layout (layout out).
Proof.
  unfold st_contiguous. case_decide as Hc.
  - by intros [= <- _].
  - intros (t & σ1 & _ & [= <- _])%St_bind_inv. apply covering_contiguous.
Qed.

Lemma st_view_layout h spec (σ σ' : list (storage F)) out :
  st_view h spec σ = (Ok out, σ') → contiguous_layout (layout out).
Proof.
  unfold st_view. case_decide as Hc; [|done].
  intros (l & σ1 & Hl & [= <- _])%St_bind_inv.
  unfold run in Hl. injection Hl as Hl _.
  apply bind_Ok in Hl as (s & _ & [= <-]).
  unfold contiguous_layout in *. by cbn [layout data].
Qed.
End store_output.

(** Both entry points return a contiguous tensor: [forward] ends with
    [.contiguous()], which copies the permuted output unless it is
    contiguous already, and [xy_forward] with a view of the contiguous
    accumulator. *)
Theorem outputs_are_contiguous {F : Type} `{!FloatOps F} self
    (x location coord_x coord_y : handle) spatial_size
    (σ : list (storage F)) out :
  ((forward_st self x spatial_size location σ).1 = Ok out →
   contiguous_layout (layout out)) ∧
  ((xy_forward_st self x spatial_size coord_x coord_y σ).1 = Ok out →
   contiguous_layout (layout out)).
Proof.
  destruct spatial_size as [H W]. split.
  - destruct (forward_st self x (H, W) location σ) as [r σ'] eqn:Hf.
    cbn [fst]. intros ->. unfold forward_st, hpc_wrapper in Hf.
    apply St_bind_inv in Hf as ([[B M] N] & ? & _ & Hf).
    do 10 apply St_bind_inv in Hf as (? & ? & _ & Hf).
    by apply st_contiguous_layout in Hf.
  - destruct (xy_forward_st self x (H, W) coord_x coord_y σ) as [r σ'] eqn:Hf.
    cbn [fst]. intros ->. unfold xy_forward_st, hpc_wrapper in Hf.
    apply St_bind_inv in Hf as ([[B M] N] & ? & _ & Hf).
    do 5 apply St_bind_inv in Hf as (? & ? & _ & Hf).
    apply St_bind_inv in Hf as (o & ? & Hv & [= <- _]).
    by apply st_view_layout in Hv.
Qed.

(** ** Fewer coordinates than entities *)

(** The scatter reads its source at the positions of the index only. *)
Lemma nd_scatter_src_ext {A} `{!Inhabited A} (upd : A → A → A) dim
    (self : ndarray A) (index : ndarray Z) (src src' : ndarray A) :
  (scatter_shape_ok dim (shape self) (shape index) (shape src)
   ↔ scatter_shape_ok dim (shape self) (shape index) (shape src')) →
  (∀ I, inb I (shape index) → get src I = get src' I) →
  nd_scatter upd dim self index src = nd_scatter upd dim self index src'.
Proof.
  intros Hshape Hget. unfold nd_scatter. case_decide; [done|].
  destruct (decide (scatter_shape_ok dim (shape self) (shape index) (shape src)))
    as [Hok|Hno].
  - rewrite (decide_True (P := scatter_shape_ok _ _ _ (shape src')))
      by (by apply Hshape).
    assert (Hloop : scatter_loop upd dim self index src
                    = scatter_loop upd dim self index src'); [|by rewrite Hloop].
    unfold scatter_loop. generalize (Ok (data self)).
    assert (Hall : ∀ I, I ∈ indices (shape index) → get src I = get src' I).
    { intros I HI%elem_of_indices. by apply Hget. }
    induction (indices (shape index)) as [|I Is IH]; intros acc; [done|].
    cbn [foldl]. rewrite (Hall I) by left. apply IH.
    intros J HJ. apply Hall. by right.
  - rewrite (decide_False (P := scatter_shape_ok _ _ _ (shape src'))); [done|].
    intros Hok. by apply Hno, Hshape.
Qed.

Section xy_fewer.
Context {F : Type} `{!FloatOps F}.

(** [xy_forward] up to its scatter, for [M'] coordinates per batch element
    and [M] entities. *)
Lemma xy_unfold_entities self (xa : ndarray F) (ia : ndarray Z) coord_x coord_y
    B M M' N H W :
  shape xa = [B; M; N] → shape ia = [B; M'] →
  (cx ← mul coord_x (Z.of_nat W); s ← add cx coord_y; mret (long s))
    = Ok (TLong ia) →
  xy_forward self (TFloat xa) (H, W) coord_x coord_y =
    output ← (if decide (scatter_type self = "cover"%string)
              then scatter_ (zeros [B; N; H * W]) 2
                     (TLong (xy_index ia B M' N)) (TFloat (xy_src xa B M N))
              else if decide (scatter_type self = "add"%string)
              then scatter_add_ (zeros [B; N; H * W]) 2
                     (TLong (xy_index ia B M' N)) (TFloat (xy_src xa B M N))
              else mret (zeros [B; N; H * W]));
    view output (Z.of_nat <$> [B; N; H; W]).
Proof.
  intros Hx Hi Hidx. unfold xy_forward, hpc_wrapper.
  cbn [size]. rewrite Hx. cbn [unpack3 mbind result_bind].
  rewrite (permute_float_021 _ B M N) by done. cbn [mbind result_bind].
  rewrite Hidx. cbn [mbind result_bind].
  unfold unsqueeze, lift, nd_unsqueeze. rewrite Hi. cbn [length].
  rewrite (decide_True (P := 1 ≤ 2)) by lia.
  cbn [take drop app fmap result_fmap mbind result_bind].
  unfold repeat, lift, nd_repeat. cbn [shape length].
  rewrite (decide_True (P := 3 ≤ 3)) by lia.
  cbn [fmap result_fmap mbind result_bind Nat.sub replicate app zip_with data].
  unfold zeros at 1. rewrite view_float_exact by (simpl; lia).
  cbn [mbind result_bind data].
  replace (numel [B; N; H; W]) with (numel [B; N; H * W]) by (simpl; lia).
  fold (zeros (F:=F) [B; N; H * W]). fold (xy_src xa B M N).
  replace (tab [B * 1; 1 * N; M' * 1]
             (λ I, data ia !!! ravel [B; 1; M'] (zip_with Nat.modulo I [B; 1; M'])))
    with (xy_index ia B M' N); last first.
  { rewrite !Nat.mul_1_r, Nat.mul_1_l. apply tab_ext. intros I HI.
    inb_destruct HI. cbn [zip_with lookup_total list_lookup_total].
    rewrite Nat.mod_1_r, !Nat.mod_small by done.
    unfold get. rewrite Hi. cbn [ravel numel]. f_equal. lia. }
  match goal with |- ?m ≫= _ = _ => destruct m as [o|e] end; [|done].
  cbn [mbind result_bind]. by destruct (view o _).
Qed.

Lemma scatter_zeros_src_ext updL (updF : F → F → F) s dim (ia : ndarray Z)
    (sa sa' : ndarray F) :
  (scatter_shape_ok dim s (shape ia) (shape sa)
   ↔ scatter_shape_ok dim s (shape ia) (shape sa')) →
  (∀ I, inb I (shape ia) → get sa I = get sa' I) →
  scatter_with updL updF (zeros s) dim (TLong ia) (TFloat sa)
  = scatter_with updL updF (zeros s) dim (TLong ia) (TFloat sa').
Proof.
  intros Hshape Hget. unfold scatter_with, zeros. cbn [size shape].
  case_decide; [|done]. cbn [mbind result_bind].
  by rewrite (nd_scatter_src_ext updF dim _ ia sa sa').
Qed.
End xy_fewer.

(** [xy_forward] does not compare the number of coordinates with the
    number of entities: given coordinates for [M' <= M] entities per batch
    element it scatters the first [M'] entities and leaves the others out,
    returning what it returns on the features of those [M'] entities. *)
Theorem xy_forward_drops_entities_without_coordinates {F : Type} `{!FloatOps F}
    self (xa : ndarray F) (ca cb : ndarray Z) B M M' N H W :
  shape xa = [B; M; N] → shape ca = [B; M'] → shape cb = [B; M'] → wf ca →
  int64_range (Z.of_nat W) → M' ≤ M →
  xy_forward self (TFloat xa) (H, W) (TLong ca) (TLong cb)
  = xy_forward self (TFloat (tab [B; M'; N] (get xa))) (H, W) (TLong ca) (TLong cb).
Proof.
  intros Hx Ha Hb Hwf HW Hle.
  rewrite (xy_unfold_entities self xa (tab [B; M'] (xy_long_index ca cb W))
             _ _ B M M' N) by (done || by apply xy_indices_long).
  rewrite (xy_unfold_entities self (tab [B; M'; N] (get xa))
             (tab [B; M'] (xy_long_index ca cb W)) _ _ B M' M' N)
    by (done || by apply xy_indices_long).
  assert (Hsrc : ∀ updL updF,
    scatter_with updL updF (zeros [B; N; H * W]) 2
      (TLong (xy_index (tab [B; M'] (xy_long_index ca cb W)) B M' N))
      (TFloat (xy_src xa B M N))
    = scatter_with updL updF (zeros [B; N; H * W]) 2
        (TLong (xy_index (tab [B; M'] (xy_long_index ca cb W)) B M' N))
        (TFloat (xy_src (tab [B; M'; N] (get xa)) B M' N))).
  { intros updL updF. apply scatter_zeros_src_ext.
    - unfold scatter_shape_ok. cbn [xy_index xy_src tab shape length].
      split; intros (? & ? & ? & ? & _); repeat split; try done;
        repeat constructor; lia.
    - cbn [xy_index tab shape]. intros I HI. inb_destruct HI.
      unfold xy_src. rewrite !get_tab by inb_solve.
      cbn [lookup_total list_lookup_total]. by rewrite ?get_tab by inb_solve. }
  unfold scatter_, scatter_add_. by rewrite !Hsrc.
Qed.

(** ** The further properties at the scenes *)

Lemma small_sizes_fit : int64_range (Z.of_nat 2) ∧ int64_range (Z.of_nat (2 * 2)).
Proof. unfold int64_range. simpl. lia. Defined.

Lemma forward_agrees_with_xy_forward_witness :
  ∃ o, forward {| scatter_type := "cover" |}
         (TFloat scene_features) (2, 2) (TLong scene_locations) = Ok o ∧
       xy_forward {| scatter_type := "cover" |}
         (TFloat scene_features) (2, 2)
         (TLong scene_coord_x) (TLong scene_coord_y) = Ok o.
Proof.
  apply (forward_agrees_with_xy_forward _ scene_features scene_locations
           scene_coord_x scene_coord_y 2 2 1 2 2);
    [reflexivity | lia | apply scene_sizes_fit | reflexivity
    | apply scene_locations_in_range | reflexivity | reflexivity | reflexivity |].
  intros b m Hb Hm. below b; below m; split; reflexivity.
Defined.


Lemma forward_rejects_address_outside_buffer_witness :
  forward {| scatter_type := "cover" |}
    (TFloat (NDArray [1; 1; 1] [Q_of 10])) (2, 2)
    (TLong (NDArray [1; 1; 2] [2; 0]%Z))
  = Raise RuntimeError.
Proof.
  apply (forward_rejects_address_outside_buffer _ _ _ 1 1 1 2 2 0 0);
    [apply policy_cases; by left | reflexivity | reflexivity | lia
    | apply small_sizes_fit | apply small_sizes_fit | lia | lia |].
  vm_compute. intros [? ?]. congruence.
Defined.

Lemma xy_forward_rejects_index_outside_grid_witness :
  xy_forward {| scatter_type := "cover" |} (TFloat stray_features) (2, 2)
    (TLong (NDArray [2; 1] [2; 0]%Z)) (TLong (NDArray [2; 1] [0; 1]%Z))
  = Raise RuntimeError.
Proof.
  apply (xy_forward_rejects_index_outside_grid _ _ _ _ 2 1 1 2 2 0 0);
    [apply policy_cases; by left | reflexivity | reflexivity | reflexivity
    | reflexivity | lia | apply small_sizes_fit | lia | lia |].
  vm_compute. intros [? ?]. congruence.
Defined.

Lemma forward_writes_at_linear_address_witness :
  ∃ o, forward {| scatter_type := "cover" |}
         (TFloat stray_features) (2, 2) (TLong stray_locations) = Ok (TFloat o) ∧
       get o [1; 0; 0; 0] = Q_of 10.
Proof.
  destruct (forward_writes_at_linear_address {| scatter_type := "cover" |}
              stray_features stray_locations 2 1 1 2 2 0 0 0)
    as (o & Ho & Hcell);
    [reflexivity | reflexivity | reflexivity
    | apply small_sizes_fit | apply small_sizes_fit | | lia | lia | lia | |].
  - intros e He. inb_destruct He. below i; below i0; vm_compute; split; congruence.
  - intros e He Hlt. inb_destruct He.
    below i; below i0; try (simpl in Hlt; lia); vm_compute; congruence.
  - exists o. split; [exact Ho | exact Hcell].
Defined.

Lemma entry_points_need_three_dimensions_witness :
  forward {| scatter_type := "cover" |}
    (TFloat (NDArray [2; 2] (Q_of <$> [10; 20; 30; 40]%Z))) (2, 2)
    (TLong scene_locations) = Raise ValueError ∧
  xy_forward {| scatter_type := "cover" |}
    (TFloat (NDArray [2; 2] (Q_of <$> [10; 20; 30; 40]%Z))) (2, 2)
    (TLong scene_coord_x) (TLong scene_coord_y) = Raise ValueError.
Proof. apply entry_points_need_three_dimensions. simpl. lia. Defined.

Lemma forward_reads_locations_flat_witness :
  forward {| scatter_type := "cover" |}
    (TFloat scene_features) (2, 2) (TLong scene_locations)
  = forward {| scatter_type := "cover" |}
      (TFloat scene_features) (2, 2) (TLong scene_locations_flat).
Proof. apply forward_reads_locations_flat; reflexivity. Defined.

Lemma no_entities_all_zero_witness :
  forward {| scatter_type := "cover" |}
    (TFloat (NDArray [1; 0; 1] ([] : list QArith_base.Q))) (2, 2)
    (TLong (NDArray [1; 0; 2] [])) = Ok (zeros [1; 1; 2; 2]) ∧
  xy_forward {| scatter_type := "cover" |}
    (TFloat (NDArray [1; 0; 1] ([] : list QArith_base.Q))) (2, 2)
    (TLong (NDArray [1; 0] [])) (TLong (NDArray [1; 0] []))
  = Ok (zeros [1; 1; 2; 2]).
Proof.
  destruct (no_entities_all_zero {| scatter_type := "cover" |}
              (NDArray [1; 0; 1] ([] : list QArith_base.Q))
              (NDArray [1; 0; 2] []) (NDArray [1; 0] []) (NDArray [1; 0] [])
              1 1 2 2) as [Hf Hxy];
    [reflexivity | apply small_sizes_fit | apply small_sizes_fit |].
  split; [apply Hf; [lia | reflexivity] | apply Hxy; reflexivity].
Defined.

Lemma unknown_policy_scatters_nothing_witness :
  forward {| scatter_type := "max" |}
    (TFloat scene_features) (2, 2) (TLong scene_locations)
  = Ok (zeros [2; 1; 2; 2]) ∧
  xy_forward {| scatter_type := "max" |}
    (TFloat scene_features) (2, 2) (TLong scene_coord_x) (TLong scene_coord_y)
  = Ok (zeros [2; 1; 2; 2]).
Proof.
  destruct (unknown_policy_scatters_nothing {| scatter_type := "max" |}
              scene_features scene_locations scene_coord_x scene_coord_y
              2 2 1 2 2) as [Hf Hxy];
    [rewrite policy_cases; intros [?|?]; discriminate | reflexivity
    | apply small_sizes_fit | apply small_sizes_fit |].
  split; [apply Hf; [lia | reflexivity] | apply Hxy; reflexivity].
Defined.

Lemma channels_are_independent_witness :
  let xa := NDArray [1; 1; 2] (Q_of <$> [1; 2]%Z) in
  let xa' := NDArray [1; 1; 2] (Q_of <$> [1; 3]%Z) in
  ∃ o o', forward {| scatter_type := "add" |}
            (TFloat xa) (2, 2) (TLong (NDArray [1; 1; 2] [1; 0]%Z)) = Ok (TFloat o) ∧
          forward {| scatter_type := "add" |}
            (TFloat xa') (2, 2) (TLong (NDArray [1; 1; 2] [1; 0]%Z)) = Ok (TFloat o') ∧
          ∀ b h w, b < 1 → h < 2 → w < 2 →
            get o [b; 0; h; w] = get o' [b; 0; h; w].
Proof.
  intros xa xa'.
  destruct (channels_are_independent {| scatter_type := "add" |} xa xa'
              (NDArray [1; 1; 2] [1; 0]%Z) (NDArray [1; 1] [1%Z])
              (NDArray [1; 1] [0%Z]) 1 1 2 2 2 0) as [Hf _];
    [reflexivity | reflexivity | apply small_sizes_fit | apply small_sizes_fit
    | lia | |].
  - intros b m Hb Hm. below b; below m; reflexivity.
  - apply Hf; [reflexivity|].
    intros e He. inb_destruct He. below i; below i0; vm_compute; split; congruence.
Defined.

Lemma xy_forward_keeps_batches_apart_witness :
  ∃ o o', xy_forward {| scatter_type := "add" |}
            (TFloat scene_features) (2, 2)
            (TLong scene_coord_x) (TLong scene_coord_y) = Ok (TFloat o) ∧
          xy_forward {| scatter_type := "add" |}
            (TFloat scene_features') (2, 2)
            (TLong scene_coord_x') (TLong scene_coord_y') = Ok (TFloat o') ∧
          get o [1; 0; 1; 1] = get o' [1; 0; 1; 1].
Proof.
  apply (xy_forward_keeps_batches_apart _ _ _ _ _ _ _ 2 2 1 2 2 0 1 0 1 1);
    [reflexivity | reflexivity | reflexivity | reflexivity | reflexivity
    | reflexivity | reflexivity | reflexivity | apply small_sizes_fit
    | apply in_range_xy_accepted;
        [apply scene_sizes_fit | apply scene_coords_in_range]
    | apply in_range_xy_accepted;
        [apply scene_sizes_fit | apply scene_coords'_in_range]
    | | | lia | lia | lia | lia | lia].
  - intros b1 m k Hne Hb1 Hm Hk. below b1. below m; below k; reflexivity.
  - intros b1 m Hne Hb1 Hm. below b1. below m; split; reflexivity.
Defined.

Lemma accumulate_sums_all_witness :
  (∃ o, forward {| scatter_type := "add" |}
          (TFloat scene_features) (2, 2) (TLong scene_locations) = Ok (TFloat o) ∧
        get o [0; 0; 0; 1]
        = QArith_base.Qplus (QArith_base.Qplus (Q_of 0) (Q_of 10)) (Q_of 20)) ∧
  (∃ o, xy_forward {| scatter_type := "add" |}
          (TFloat scene_features) (2, 2)
          (TLong scene_coord_x) (TLong scene_coord_y) = Ok (TFloat o) ∧
        get o [0; 0; 0; 1]
        = QArith_base.Qplus (QArith_base.Qplus (Q_of 0) (Q_of 10)) (Q_of 20)).
Proof.
  destruct (accumulate_sums_all {| scatter_type := "add" |}
              scene_features scene_locations scene_coord_x scene_coord_y
              2 2 1 2 2 0 0 0 1) as [Hf Hxy];
    [reflexivity | reflexivity | apply scene_sizes_fit | lia..|].
  split.
  - destruct Hf as (o & Ho & Hcell);
      [reflexivity | apply scene_locations_in_range|].
    exists o. split; [exact Ho | exact Hcell].
  - destruct Hxy as (o & Ho & Hcell);
      [reflexivity | reflexivity | reflexivity | apply scene_coords_in_range|].
    exists o. split; [exact Ho | exact Hcell].
Defined.

Lemma output_is_float_witness :
  is_float (TFloat scene_cover_output) = true.
Proof.
  apply (proj1 (output_is_float {| scatter_type := "cover" |}
                  (TFloat scene_features) (TLong scene_locations)
                  (TLong scene_coord_x) (TLong scene_coord_y)
                  (TFloat scene_cover_output) (2, 2))).
  vm_compute. reflexivity.
Defined.

Lemma features_must_be_float_witness :
  is_ok (forward (F:=QArith_base.Q) {| scatter_type := "cover" |}
           (TLong (NDArray [2; 2; 1] [10; 20; 30; 40]%Z)) (2, 2)
           (TLong scene_locations)) = false.
Proof.
  apply (features_must_be_float (F:=QArith_base.Q) {| scatter_type := "cover" |}
           _ _ (TLong scene_coord_x) (TLong scene_coord_y)).
  apply policy_cases. by left.
Defined.

Lemma shape_fn_positional_or_keyword_witness :
  let self := {| scatter_type := "cover" |} in
  let expected :=
    [PInt 2; PInt 2; PInt 1; PInt 2; PInt 2; PStr "cover"]%Z in
  shape_fn_scatter_connection
    [PModule self; PTensor (TFloat scene_features); PTuple [2; 2]%Z;
     PTensor (TLong scene_locations)] ∅ = Returns expected ∧
  shape_fn_scatter_connection
    [PModule self; PTensor (TFloat scene_features)] scene_kwargs
  = Returns expected ∧
  shape_fn_scatter_connection [PModule self] scene_kwargs = Returns expected.
Proof.
  intros self expected.
  pose proof (shape_fn_positional_or_keyword self (TFloat scene_features)
                [2; 2]%Z [PTensor (TLong scene_locations)] ∅) as [H1 _].
  pose proof (shape_fn_positional_or_keyword self (TFloat scene_features)
                [2; 2]%Z [] scene_kwargs) as (_ & H2 & H3).
  split; [exact H1|].
  split; [apply H2 | apply H3]; reflexivity.
Defined.

Lemma shape_fn_missing_arguments_witness :
  shape_fn_scatter_connection [] (∅ : gmap string (pyobj QArith_base.Q))
  = Raises (KeyError "x").
Proof.
  apply (proj1 (shape_fn_missing_arguments [] ∅)); [simpl; lia | reflexivity].
Defined.

Lemma outputs_are_contiguous_witness :
  contiguous_layout (NDArray [2; 1; 2; 2] (seq 0 8)).
Proof.
  apply (proj1 (outputs_are_contiguous {| scatter_type := "cover" |}
                  scene_x scene_location scene_cx scene_cy (2, 2) scene_store
                  (Handle 9 (NDArray [2; 1; 2; 2] (seq 0 8))))).
  vm_compute. reflexivity.
Defined.

Lemma forward_st_computes_forward_witness :
  ∃ out σ', forward_st {| scatter_type := "cover" |}
              scene_x (2, 2) scene_location scene_store = (Ok out, σ') ∧
            read σ' out = Ok (TFloat scene_cover_output).
Proof.
  apply (forward_st_computes_forward _ _ _ _ _
           (TFloat scene_features) (TLong scene_locations));
    [reflexivity | reflexivity | reflexivity | reflexivity | reflexivity
    | reflexivity | vm_compute; reflexivity].
Defined.

Lemma xy_forward_st_computes_xy_forward_witness :
  ∃ out σ', xy_forward_st {| scatter_type := "cover" |}
              scene_x (2, 2) scene_cx scene_cy scene_store = (Ok out, σ') ∧
            read σ' out = Ok (TFloat scene_cover_output).
Proof.
  apply (xy_forward_st_computes_xy_forward _ _ _ _ _ _
           (TFloat scene_features) (TLong scene_coord_x) (TLong scene_coord_y));
    [reflexivity | reflexivity | reflexivity | reflexivity
    | vm_compute; reflexivity].
Defined.

Lemma xy_forward_drops_entities_without_coordinates_witness :
  xy_forward {| scatter_type := "add" |} (TFloat scene_features) (2, 2)
    (TLong (NDArray [2; 1] [0; 1]%Z)) (TLong (NDArray [2; 1] [1; 1]%Z))
  = xy_forward {| scatter_type := "add" |}
      (TFloat (tab [2; 1; 1] (get scene_features))) (2, 2)
      (TLong (NDArray [2; 1] [0; 1]%Z)) (TLong (NDArray [2; 1] [1; 1]%Z)).
Proof.
  apply (xy_forward_drops_entities_without_coordinates _ _ _ _ 2 2 1 1 2 2);
    [reflexivity | reflexivity | reflexivity | reflexivity
    | apply small_sizes_fit | lia].
Defined.
